(** * Experiments/editFaces.py: tiling, differencing and scaling of face grids

    A shallow embedding of the helpers of [Experiments/editFaces.py] and of
    the two passes built from them, together with the properties of the
    tiling geometry, the label grid, the difference aggregation and the
    scaling that the specification states.

    Arrays are lists: a two-dimensional ndarray is a list of rows, a stack
    of images is a list of two-dimensional arrays.  Samples are IEEE 754
    values ([spec_float] of the standard library, with the precision of the
    dtype the code computes in), so rounding, NaN and signed zeros are the
    ones NumPy produces. *)

From Stdlib Require Import Strings.String.
From Stdlib Require Import ZArith NArith List Lia Bool PeanoNat Permutation.
From Stdlib Require Import Strings.Byte Floats.SpecFloat.
Import ListNotations.

Set Implicit Arguments.

(** ** Arrays, slices and slice assignment *)

Section Arrays.
Context {A : Type}.

(** A two-dimensional array, row by row. *)
Definition array2 := list (list A).

(** [l[a:b]] for non-negative bounds: out-of-range bounds are clipped. *)
Definition slice (a b : nat) (l : list A) : list A :=
  firstn (b - a) (skipn a l).

Definition has_len (n : nat) (l : list A) : Prop := length l = n.

End Arrays.

Arguments array2 A : clear implicits.

Section Arrays2.
Context {A : Type}.
Variable zero : A.

(** [img[r0:r1, c0:c1]] *)
Definition crop (r0 r1 c0 c1 : nat) (img : array2 A) : array2 A :=
  map (slice c0 c1) (slice r0 r1 img).

(** The array has [h] rows of [w] samples each. *)
Definition has_shape (h w : nat) (img : array2 A) : Prop :=
  length img = h /\ Forall (fun row => length row = w) img.

(** Decidable version of [has_shape]. *)
Definition has_shapeb (h w : nat) (img : array2 A) : bool :=
  (length img =? h) && forallb (fun row => length row =? w) img.

(** [np.zeros((h, w))] *)
Definition zeros (h w : nat) : array2 A := repeat (repeat zero w) h.

(** The sample at row [y], column [x]. *)
Definition px (img : array2 A) (y x : nat) : A := nth x (nth y img []) zero.

(** NumPy broadcasting along one axis: an axis of the wanted length is
    kept, an axis of length one is repeated, anything else is an error. *)
Definition broadcast {B : Type} (n : nat) (l : list B) : option (list B) :=
  if length l =? n then Some l
  else match l with
       | [x] => Some (repeat x n)
       | _ => None
       end.

(** Row-wise part of [frame[r0:r1, c0:c1] = image]: [frows] are the rows
    [frame[r0:r1]], [irows] the rows of the broadcast image. *)
Fixpoint paste_rows (c0 c1 : nat) (frows irows : array2 A) : option (array2 A) :=
  match frows, irows with
  | [], _ => Some []
  | f :: fs, i :: irest =>
      match broadcast (length (slice c0 c1 f)) i, paste_rows c0 c1 fs irest with
      | Some i', Some rest => Some ((firstn c0 f ++ i' ++ skipn c1 f) :: rest)
      | _, _ => None
      end
  | _ :: _, [] => None
  end.

(** [frame[r0:r1, c0:c1] = image], on a copy of [frame].  [None] is the
    ValueError NumPy raises when [image] does not broadcast to the shape of
    the (clipped) slice. *)
Definition set_block (r0 r1 c0 c1 : nat) (frame image : array2 A) : option (array2 A) :=
  let frows := slice r0 r1 frame in
  match broadcast (length frows) image with
  | None => None
  | Some irows =>
      match paste_rows c0 c1 frows irows with
      | None => None
      | Some mid => Some (firstn r0 frame ++ mid ++ skipn r1 frame)
      end
  end.

(** [enumerate(images)] *)
Definition enumerate {B : Type} (l : list B) : list (nat * B) :=
  combine (seq 0 (length l)) l.

(** One iteration of the tiling loop with [cols] cells of side [p] per row:
<<
      index_column = index % cols
      index_row    = index // cols
      frame[(index_row*p):((index_row+1)*p),
            (index_column*p):((index_column+1)*p)] = image
>> *)
Definition paste_cell (p cols : nat) (frame : option (array2 A))
    (ii : nat * array2 A) : option (array2 A) :=
  match frame with
  | None => None
  | Some fr =>
      let index := fst ii in
      let index_column := index mod cols in
      let index_row := index / cols in
      set_block (index_row * p) ((index_row + 1) * p)
                (index_column * p) ((index_column + 1) * p) fr (snd ii)
  end.

(** The tiling loop of [tile_to_square] and of [save_generated_output],
    which differ in the cell grid only: a zero frame of [rows] by [cols]
    cells of side [p], filled from [images] in row-major order. *)
Definition tile_frame (p rows cols : nat) (images : list (array2 A)) : option (array2 A) :=
  fold_left (paste_cell p cols) (enumerate images) (Some (zeros (rows * p) (cols * p))).

(** The slicing loop of [get_generated_images], with the grid as
    parameters: cell [(r, c)] is [img[r*p:(r+1)*p, p*(c+off):p*(c+off+1)]],
    cells are listed row by row. *)
Definition extract_cells (p rows cols off : nat) (img : array2 A) : list (array2 A) :=
  flat_map (fun r =>
    map (fun c => crop (r * p) ((r + 1) * p) (p * (c + off)) (p * (c + off + 1)) img)
        (seq 0 cols))
    (seq 0 rows).

(** The slicing loop of [get_generated_images], on the array read from
    the file: 7 rows of 7 cells, starting at the fourth cell column.
<<
      for r in range(7):
          for c in range(7):
              single_image = img[r*p:(r+1)*p, p*(c+3):p*(c+4)]
              res.append(single_image)
>>
    The result is the list [res]; [np.asarray] stacks it without changing
    any sample when the slices have one shape. *)
Definition get_generated_images (p : nat) (img : array2 A) : list (array2 A) :=
  extract_cells p 7 7 3 img.

(** [black_image = np.zeros((1, 96, 96, 3))]: a stack of one image. *)
Definition black_image : list (array2 A) := [zeros 96 96].

(** [black_image3 = np.tile(black_image, (3, 1, 1, 1))] *)
Definition black_image3 : list (array2 A) :=
  black_image ++ black_image ++ black_image.

(** [np.concatenate] along the first axis needs every stacked image to
    have the shape of the others; with [black_image] in the list that
    shape is 96 by 96. *)
Definition concatenate (parts : list (list (array2 A))) : option (list (array2 A)) :=
  let l := concat parts in
  if forallb (has_shapeb 96 96) l then Some l else None.

(** The list of cells of [save_generated_output]. *)
Definition final_image_list (inp generated_outp : list (array2 A))
    : option (list (array2 A)) :=
  concatenate
    [ black_image3; slice 0 7 generated_outp;
      black_image3; slice 7 14 generated_outp;
      black_image3; slice 14 21 generated_outp;
      black_image; inp; black_image; slice 21 28 generated_outp;
      black_image3; slice 28 35 generated_outp;
      black_image3; slice 35 42 generated_outp;
      black_image3; skipn 42 generated_outp ].

(** The canvas [final_image] of [save_generated_output], before the
    display mapping: 7 by 10 cells of side 96. *)
Definition final_image (inp generated_outp : list (array2 A)) : option (array2 A) :=
  match final_image_list inp generated_outp with
  | None => None
  | Some l => tile_frame 96 7 10 l
  end.

End Arrays2.

(** What the tiling loop has written once it has gone through [images]:
    the cells up to [length images] hold the images, the others are zero. *)
Definition tiled {A : Type} (zero : A) (p rows cols : nat)
    (images : list (array2 A)) (canvas : array2 A) : Prop :=
  has_shape (rows * p) (cols * p) canvas /\
  forall y x, y < rows * p -> x < cols * p ->
    px zero canvas y x =
    let idx := y / p * cols + x / p in
    if idx <? length images
    then px zero (nth idx images []) (y mod p) (x mod p)
    else zero.

(** ** IEEE 754 samples *)

(** A sample of a floating-point array. *)
Definition float := spec_float.

(** A binary format: [prec] bits of mantissa, infinities at exponent [emax]. *)
Record format := { prec : Z; emax : Z }.

(** [np.float32] *)
Definition binary32 : format := {| prec := 24; emax := 128 |}.

(** [np.float64], and Python's [float]. *)
Definition binary64 : format := {| prec := 53; emax := 1024 |}.

Section FloatOps.
Variable fmt : format.

(** An integer as a value of the format (to nearest, ties to even). *)
Definition of_Z (z : Z) : float :=
  binary_normalize (prec fmt) (emax fmt) z 0 false.

Definition fadd : float -> float -> float := SFadd (prec fmt) (emax fmt).
Definition fsub : float -> float -> float := SFsub (prec fmt) (emax fmt).
Definition fmul : float -> float -> float := SFmul (prec fmt) (emax fmt).
Definition fdiv : float -> float -> float := SFdiv (prec fmt) (emax fmt).

(** Conversion of a value of another format: [astype], and the
    conversion NumPy inserts when dtypes are mixed. *)
Definition astype (x : float) : float := SFldexp (prec fmt) (emax fmt) x 0.

End FloatOps.

Definition is_nan (x : float) : bool :=
  match x with S754_nan => true | _ => false end.

Definition is_finite (x : float) : bool :=
  match x with S754_zero _ | S754_finite _ _ _ => true | _ => false end.

(** [a > b] *)
Definition fgt (a b : float) : bool := SFltb b a.

(** [a >= b] *)
Definition fge (a b : float) : bool := SFleb b a.

(** [np.fabs] *)
Definition fabs : float -> float := SFabs.

(** [np.maximum] on two samples: [(a >= b || isnan(a)) ? a : b]. *)
Definition np_maximum (a b : float) : float :=
  if fge a b || is_nan a then a else b.

(** [.max()] over the samples of an array, in storage order.  [None] is the
    ValueError of a reduction over an array without samples. *)
Definition amax (l : list float) : option float :=
  match l with
  | [] => None
  | x :: r => Some (fold_left np_maximum r x)
  end.

(** The integer part of a finite value, towards zero. *)
Definition trunc (x : float) : Z :=
  match x with
  | S754_finite s m e =>
      let a := match e with
               | Zneg k => Z.shiftr (Zpos m) (Zpos k)
               | _ => Z.shiftl (Zpos m) e
               end in
      if s then Z.opp a else a
  | _ => 0%Z
  end.

(** The least integer not below a finite value. *)
Definition ceil (x : float) : Z :=
  match x with
  | S754_finite s m e =>
      match e with
      | Zneg k =>
          if s then Z.opp (Z.shiftr (Zpos m) (Zpos k))
          else Z.opp (Z.shiftr (Zneg m) (Zpos k))
      | _ => if s then Z.opp (Z.shiftl (Zpos m) e) else Z.shiftl (Zpos m) e
      end
  | _ => 0%Z
  end.

(** [.astype('uint8')]: the C conversion of a float to an 8-bit unsigned
    integer drops the fraction; the sample is kept modulo 256, which is what
    the conversion gives for the values in range and what x86-64 builds of
    NumPy give for finite values out of it. *)
Definition astype_uint8 (x : float) : N := Z.to_N (trunc x mod 256).

(** A decimal literal [n/d] with [d] a power of ten, read to the nearest
    double. *)
Definition dec (n d : Z) : float := fdiv binary64 (of_Z binary64 n) (of_Z binary64 d).

(** ** Pixels and arrays of samples *)

(** A pixel of a three-channel image. *)
Record rgb (S : Type) := RGB { red : S; green : S; blue : S }.

Arguments RGB {S} red green blue.

Definition rgb_map {S S' : Type} (f : S -> S') (c : rgb S) : rgb S' :=
  RGB (f (red c)) (f (green c)) (f (blue c)).

(** An array of floating-point samples of any number of axes: its samples
    in storage order, and the element-wise application of an operation. *)
Class Ndarray (T : Type) := {
  samples : T -> list float;
  amap : (float -> float) -> T -> T;
  samples_amap : forall f t, samples (amap f t) = map f (samples t)
}.

#[export] Instance ndarray_sample : Ndarray float :=
  {| samples := fun x => [x];
     amap := fun f x => f x;
     samples_amap := fun f x => eq_refl |}.

#[export] Instance ndarray_rgb : Ndarray (rgb float) :=
  {| samples := fun c => [red c; green c; blue c];
     amap := fun f c => rgb_map f c;
     samples_amap := fun f c => eq_refl |}.

Lemma samples_amap_list {T : Type} `{Ndarray T} (f : float -> float) (l : list T) :
  flat_map samples (map (amap f) l) = map f (flat_map samples l).
Proof.
  induction l as [|t l IH]; [reflexivity|].
  simpl. now rewrite map_app, samples_amap, IH.
Qed.

#[export] Instance ndarray_list {T : Type} `{Ndarray T} : Ndarray (list T) :=
  {| samples := flat_map samples;
     amap := fun f => map (amap f);
     samples_amap := samples_amap_list |}.

(** ** The helpers of the script *)

(** [+0.0], the sample of [np.zeros]. *)
Definition fzero : float := S754_zero false.

(** [normalize_image(img, maximum)]:
<<
        img /= img.max()/maximum
        return img
>>
    in the dtype [fmt] of [img].  Division by zero is IEEE division: NumPy
    warns and goes on. *)
Definition normalize_image {T : Type} `{Ndarray T} (fmt : format)
    (img : T) (maximum : float) : option T :=
  match amax (samples img) with
  | None => None
  | Some m => Some (amap (fun x => fdiv fmt x (fdiv fmt m maximum)) img)
  end.

(** The conversion of a mode-F image to mode L in the imaging library
    ([convert('L')] after [Image.fromarray] of a floating-point array):
    the sample is stored as a float32, clipped to 0..255 and cut to an
    integer. *)
Definition convert_L (x : float) : N :=
  let v := astype binary32 x in
  if fge fzero v then 0%N
  else if fge v (of_Z binary32 255) then 255%N
  else Z.to_N (trunc v).

(** [save_image_black_and_white(img_array, path)]: the 8-bit grayscale
    image handed to the encoder. *)
Definition save_image_black_and_white (img_array : array2 float) : array2 N :=
  map (map convert_L) img_array.

(** [save_image(img_array, path)]: the 8-bit RGB image handed to the
    encoder, [img_array.astype('uint8')]. *)
Definition save_image (img_array : array2 (rgb float)) : array2 (rgb N) :=
  map (map (rgb_map astype_uint8)) img_array.

(** An 8-bit sample as a float32. *)
Definition of_byte (b : Byte.byte) : float :=
  of_Z binary32 (Z.of_N (Byte.to_N b)).

(** [get_image_array(path)], on the decoded RGB image of the file:
    [np.asarray(...).astype(np.float32)]. *)
Definition get_image_array (decoded : array2 (rgb Byte.byte)) : array2 (rgb float) :=
  map (map (rgb_map of_byte)) decoded.

(** Element by element over two lists of one length; [None] when the
    lengths differ. *)
Fixpoint zip_with {X Y Z : Type} (f : X -> Y -> option Z)
    (l1 : list X) (l2 : list Y) : option (list Z) :=
  match l1, l2 with
  | [], [] => Some []
  | x :: l1', y :: l2' =>
      match f x y, zip_with f l1' l2' with
      | Some z, Some r => Some (z :: r)
      | _, _ => None
      end
  | _, _ => None
  end.

(** A binary operation over two arrays of one shape.  [None] stands for the
    failure on arrays of different shapes (NumPy would still broadcast an
    axis of length one; the arrays of this script never differ in shape). *)
Definition elementwise {X Y Z : Type} (f : X -> Y -> Z)
    (a : array2 X) (b : array2 Y) : option (array2 Z) :=
  zip_with (zip_with (fun x y => Some (f x y))) a b.

(** [np.fabs(np.subtract(img2[:,:,k], img1[:,:,k]))] at one pixel. *)
Definition channel_error (fmt : format) (channel : rgb float -> float)
    (p1 p2 : rgb float) : float :=
  fabs (fsub fmt (channel p2) (channel p1)).

(** [np.maximum(np.maximum(red_error, green_error), blue_error)] at one
    pixel. *)
Definition max_error (fmt : format) (p1 p2 : rgb float) : float :=
  np_maximum
    (np_maximum (channel_error fmt (@red float) p1 p2)
                (channel_error fmt (@green float) p1 p2))
    (channel_error fmt (@blue float) p1 p2).

(** [get_max_difference(img1, img2)], for images of dtype [fmt]. *)
Definition get_max_difference (fmt : format) (img1 img2 : array2 (rgb float))
    : option (array2 float) :=
  elementwise (max_error fmt) img1 img2.

(** [tile_to_square(images)]: the frame is [np.zeros([96*7, 96*7])], a
    float64 array, so the samples written into it become float64. *)
Definition tile_to_square (images : list (array2 float)) : option (array2 float) :=
  tile_frame fzero 96 7 7 (amap (astype binary64) images).

(** [(final_image+1)*255/2] at one sample, in float64. *)
Definition display (x : float) : float :=
  fdiv binary64
    (fmul binary64 (fadd binary64 x (of_Z binary64 1)) (of_Z binary64 255))
    (of_Z binary64 2).

(** [save_generated_output(inp, generated_outp, path)]: the 8-bit image
    handed to the encoder.  [np.concatenate] with the float64
    [black_image] makes every image float64. *)
Definition save_generated_output (inp generated_outp : list (array2 (rgb float)))
    : option (array2 (rgb N)) :=
  match final_image (RGB fzero fzero fzero)
          (amap (astype binary64) inp) (amap (astype binary64) generated_outp) with
  | None => None
  | Some canvas => Some (save_image (amap display canvas))
  end.

(** [load_image_as_network_input(image_path)], on the decoded image
    resized to 96 by 96:
<<
        image = normalize_image(image, 2)
        return image-1
>> *)
Definition load_image_as_network_input (decoded : array2 (rgb Byte.byte))
    : option (array2 (rgb float)) :=
  match normalize_image binary32 (get_image_array decoded) (of_Z binary32 2) with
  | None => None
  | Some image => Some (amap (fun x => fsub binary32 x (of_Z binary32 1)) image)
  end.

(** ** The difference pass *)

(** Every element of a list through a function that may fail. *)
Fixpoint mapM {X Y : Type} (f : X -> option Y) (l : list X) : option (list Y) :=
  match l with
  | [] => Some []
  | x :: l' =>
      match f x, mapM f l' with
      | Some y, Some r => Some (y :: r)
      | _, _ => None
      end
  end.

(** The body of the loop of [compute_overall_difference] up to
    [differences_square], for one file:
<<
        gen_images = get_generated_images(img_path)
        neutral_generated_image = gen_images[24]
        differences = np.asarray([get_max_difference(im,neutral_generated_image)
                                  for im in gen_images])
        differences_square = tile_to_square(differences)
>> *)
Definition differences_square (decoded : array2 (rgb Byte.byte)) : option (array2 float) :=
  let gen_images := get_generated_images 96 (get_image_array decoded) in
  match nth_error gen_images 24 with
  | None => None
  | Some neutral_generated_image =>
      match mapM (fun im => get_max_difference binary32 im neutral_generated_image)
                 gen_images with
      | None => None
      | Some differences => tile_to_square differences
      end
  end.

(** The state of the loop: the sum canvas and the running maximum. *)
Record accumulator := { res : array2 float; allover_max : float }.

(** [res = np.zeros((672,672))], [allover_max = 0]. *)
Definition accumulator_init : accumulator :=
  {| res := zeros fzero 672 672; allover_max := fzero |}.

(** The rest of the loop body:
<<
        m = differences_square.max()
        if m > allover_max: allover_max = m
        res = res + differences_square
>> *)
Definition accumulate (acc : accumulator) (d : array2 float) : option accumulator :=
  match amax (samples d), elementwise (fadd binary64) (res acc) d with
  | Some m, Some r =>
      Some {| res := r;
              allover_max := if fgt m (allover_max acc) then m else allover_max acc |}
  | _, _ => None
  end.

(** The loop over a list of difference canvases. *)
Definition accumulate_all (ds : list (array2 float)) : option accumulator :=
  fold_left (fun acc d => match acc with
                          | None => None
                          | Some a => accumulate a d
                          end) ds (Some accumulator_init).

(** The loop of [compute_overall_difference] over the decoded files. *)
Definition accumulate_files (files : list (array2 (rgb Byte.byte))) : option accumulator :=
  fold_left (fun acc file => match acc with
                             | None => None
                             | Some a =>
                                 match differences_square file with
                                 | None => None
                                 | Some d => accumulate a d
                                 end
                             end) files (Some accumulator_init).

(** [differences = normalize_image(res, allover_max)] after the loop. *)
Definition overall_difference (files : list (array2 (rgb Byte.byte))) : option (array2 float) :=
  match accumulate_files files with
  | None => None
  | Some a => normalize_image binary64 (res a) (allover_max a)
  end.

(** [compute_overall_difference(path, save_name)], on the decoded files of
    the directory: the grayscale heat map handed to the encoder. *)
Definition compute_overall_difference (files : list (array2 (rgb Byte.byte)))
    : option (array2 N) :=
  option_map save_image_black_and_white (overall_difference files).

(** ** The label grid of the generation pass *)

(** [np.arange(start, stop, step)] on doubles: [ceil((stop - start)/step)]
    values; the first two are [start] and [start + step], the others
    [start + i*delta] with [delta] the difference of the first two. *)
Definition arange (start stop step : float) : list float :=
  let n := Z.to_nat (ceil (fdiv binary64 (fsub binary64 stop start) step)) in
  let delta := fsub binary64 (fadd binary64 start step) start in
  map (fun i =>
         match i with
         | 0 => start
         | 1 => fadd binary64 start step
         | _ => fadd binary64 start (fmul binary64 (of_Z binary64 (Z.of_nat i)) delta)
         end) (seq 0 n).

(** [np.arange(0.75, -0.751, -0.25)] *)
Definition levels : list float :=
  arange (dec 75 100) (SFopp (dec 751 1000)) (SFopp (dec 25 100)).

(** [valence = np.repeat(valence, 7).reshape((49, 1))], as the column of
    its 49 values. *)
Definition valence : list float := flat_map (fun v => repeat v 7) levels.

(** [arousal]: the row of levels repeated 7 times along the first axis,
    then flattened to a column. *)
Definition arousal : list float := concat (repeat levels 7).

(** ** The annotated layout, as the specification words it *)

(** What a cell of the annotated canvas holds. *)
Inductive cell : Type :=
| Spacer
| Input
| Generated (i : nat).

(** Three spacers, images 0-6, three spacers, images 7-13, three spacers,
    images 14-20, one spacer, the input, one spacer, images 21-27, three
    spacers, images 28-34, three spacers, images 35-41, three spacers,
    images 42-48. *)
Definition annotated_layout : list cell :=
  repeat Spacer 3 ++ map Generated (seq 0 7) ++
  repeat Spacer 3 ++ map Generated (seq 7 7) ++
  repeat Spacer 3 ++ map Generated (seq 14 7) ++
  [Spacer; Input; Spacer] ++ map Generated (seq 21 7) ++
  repeat Spacer 3 ++ map Generated (seq 28 7) ++
  repeat Spacer 3 ++ map Generated (seq 35 7) ++
  repeat Spacer 3 ++ map Generated (seq 42 7).

(** The image a cell of the layout stands for. *)
Definition cell_image {A : Type} (zero : A) (inp generated_outp : list (array2 A))
    (c : cell) : array2 A :=
  match c with
  | Spacer => zeros zero 96 96
  | Input => nth 0 inp []
  | Generated i => nth i generated_outp []
  end.

(** ** Concrete images *)

(** The 96 by 96 image with one sample everywhere. *)
Definition solid {A : Type} (v : A) : array2 A := repeat (repeat v 96) 96.

(** Six 2 by 2 images. *)
Definition six_images : list (array2 nat) :=
  [ [[1; 2]; [3; 4]]; [[5; 6]; [7; 8]]; [[9; 10]; [11; 12]];
    [[13; 14]; [15; 16]]; [[17; 18]; [19; 20]]; [[21; 22]; [23; 24]] ].

(** 49 solid images, the i-th with sample [i]. *)
Definition numbered_images : list (array2 nat) := map solid (seq 0 49).

(** 49 solid float32 images, the i-th with sample [i]. *)
Definition numbered_differences : list (array2 float) :=
  map (fun i => solid (of_Z binary32 (Z.of_nat i))) (seq 0 49).

(** A pixel without NaN and without infinity. *)
Definition finite_pixel (c : rgb float) : bool :=
  is_finite (red c) && is_finite (green c) && is_finite (blue c).

(** The black pixel [(0.0, 0.0, 0.0)]. *)
Definition black : rgb float := RGB fzero fzero fzero.

(** ** Integers as floating-point values *)

(** A mantissa shifted left by a non-negative number of bits. *)
Definition pshl (m : positive) (k : Z) : positive :=
  match k with Zpos d => Pos.iter xO m d | _ => m end.

(** The representation, in a format of precision [prec], of an integer
    below [2 ^ prec] in magnitude: the mantissa is the integer shifted to
    [prec] bits. *)
Definition canon (prec : Z) (z : Z) : float :=
  match z with
  | Z0 => S754_zero false
  | Zpos m => S754_finite false (pshl m (prec - Zpos (digits2_pos m)))
                (Zpos (digits2_pos m) - prec)
  | Zneg m => S754_finite true (pshl m (prec - Zpos (digits2_pos m)))
                (Zpos (digits2_pos m) - prec)
  end.

(** Structural equality of samples. *)
Definition sf_eqb (x y : float) : bool :=
  match x, y with
  | S754_zero s, S754_zero s' => Bool.eqb s s'
  | S754_infinity s, S754_infinity s' => Bool.eqb s s'
  | S754_nan, S754_nan => true
  | S754_finite s m e, S754_finite s' m' e' =>
      Bool.eqb s s' && Pos.eqb m m' && Z.eqb e e'
  | _, _ => false
  end.

(** A zero of either sign. *)
Definition is_zero (x : float) : bool :=
  match x with S754_zero _ => true | _ => false end.

(** ** The network input, sample by sample *)

(** What [load_image_as_network_input] makes of a sample [x] of an image
    whose maximum is [m]: [x / (m/2) - 1], in float32. *)
Definition network_input (m x : float) : float :=
  fsub binary32 (fdiv binary32 x (fdiv binary32 m (of_Z binary32 2)))
       (of_Z binary32 1).

(** The fixed mapping of the specification, [x/127.5 - 1], in float32. *)
Definition fixed_network_input (x : float) : float :=
  fsub binary32 (fdiv binary32 x (astype binary32 (dec 1275 10)))
       (of_Z binary32 1).

(** The 8-bit level [n] as a float32. *)
Definition level32 (n : nat) : float := of_Z binary32 (Z.of_nat n).

(** A sample in [-1, 1] that is below 1 unless it is 1. *)
Definition unit_range (g : float) : bool :=
  fge (of_Z binary32 1) g && fge g (of_Z binary32 (-1)) &&
  (sf_eqb g (of_Z binary32 1) || negb (fge g (of_Z binary32 1))).

(** The 8-bit samples of a decoded image, in storage order, as integers. *)
Definition levels_of (decoded : array2 (rgb Byte.byte)) : list Z :=
  flat_map (flat_map (fun c => [ Z.of_N (Byte.to_N (red c));
                                 Z.of_N (Byte.to_N (green c));
                                 Z.of_N (Byte.to_N (blue c)) ])) decoded.

(** The largest of a list of non-negative integers. *)
Definition Zmaximum (l : list Z) : Z := fold_right Z.max 0%Z l.

(** A sample between -1 and 1. *)
Definition in_unit_interval (x : float) : bool :=
  fge (of_Z binary32 1) x && fge x (of_Z binary32 (-1)).

(** The decoded image, 96 by 96, with every sample 100. *)
Definition gray_100 : array2 (rgb Byte.byte) :=
  solid (RGB Byte.x64 Byte.x64 Byte.x64).

(** The solid float32 image of gray level [n]. *)
Definition face (n : Z) : array2 (rgb float) :=
  solid (RGB (of_Z binary32 n) (of_Z binary32 n) (of_Z binary32 n)).

(** 49 solid float32 images, the i-th of gray level [i]. *)
Definition numbered_faces : list (array2 (rgb float)) :=
  map (fun i => face (Z.of_nat i)) (seq 0 49).

(** A decoded composite, 672 by 960, with every sample 0. *)
Definition black_composite : array2 (rgb Byte.byte) :=
  repeat (repeat (RGB Byte.x00 Byte.x00 Byte.x00) 960) 672.

(** ** Difference canvases as arrays of integers *)

(** Element by element over two lists, up to the shorter one. *)
Fixpoint map2 {X Y Z : Type} (h : X -> Y -> Z) (l1 : list X) (l2 : list Y) : list Z :=
  match l1, l2 with
  | x :: l1', y :: l2' => h x y :: map2 h l1' l2'
  | _, _ => []
  end.

(** The float64 canvas whose samples are the integers of [D]. *)
Definition integer_canvas (D : array2 Z) : array2 float :=
  map (map (of_Z binary64)) D.

(** Sum of two integer canvases. *)
Definition zip_add (R D : array2 Z) : array2 Z := map2 (map2 Z.add) R D.

(** The largest sample of an integer canvas. *)
Definition canvas_max (D : array2 Z) : Z := Zmaximum (concat D).

(** The sum of a list of integer canvases of 672 by 672 samples. *)
Definition sum_canvases (ns : list (array2 Z)) : array2 Z :=
  fold_left zip_add ns (zeros 0%Z 672 672).

(** The largest sample of a list of integer canvases. *)
Definition max_canvases (ns : list (array2 Z)) : Z :=
  fold_left (fun M D => Z.max M (canvas_max D)) ns 0%Z.

(** Every sample of the canvas is between [lo] and [hi]. *)
Definition samples_within (lo hi : Z) (D : array2 Z) : Prop :=
  Forall (Forall (fun z => (lo <= z <= hi)%Z)) D.

(** The value of an 8-bit sample. *)
Definition byte_level (b : Byte.byte) : Z := Z.of_N (Byte.to_N b).

(** The largest absolute channel difference of two 8-bit pixels. *)
Definition level_difference (c n : rgb Byte.byte) : Z :=
  Z.max (Z.max (Z.abs (byte_level (red n) - byte_level (red c)))
               (Z.abs (byte_level (green n) - byte_level (green c))))
        (Z.abs (byte_level (blue n) - byte_level (blue c))).

(** The difference canvas of a decoded composite, computed on the 8-bit
    samples: the 49 cells against cell 24, tiled 7 by 7. *)
Definition integer_differences (decoded : array2 (rgb Byte.byte)) : option (array2 Z) :=
  let cells := get_generated_images 96 decoded in
  let neutral := nth 24 cells [] in
  tile_frame 0%Z 96 7 7
    (map (fun c => map2 (map2 level_difference) c neutral) cells).

(** The integer difference canvas of a decoded composite, empty when the
    tiling fails. *)
Definition integer_canvas_of (decoded : array2 (rgb Byte.byte)) : array2 Z :=
  match integer_differences decoded with
  | Some D => D
  | None => []
  end.

(** The integer canvas of 672 by 672 samples, all [v]. *)
Definition flat_canvas (v : Z) : array2 Z := zeros v 672 672.

(** A decoded composite, 672 by 960, with every sample 10. *)
Definition gray_composite : array2 (rgb Byte.byte) :=
  repeat (repeat (RGB Byte.x0a Byte.x0a Byte.x0a) 960) 672.

(** The 8-bit black pixel. *)
Definition black8 : rgb Byte.byte := RGB Byte.x00 Byte.x00 Byte.x00.

(** A decoded composite, 672 by 960: the first row of pixels is white,
    every other sample is 10. *)
Definition marked_composite : array2 (rgb Byte.byte) :=
  repeat (RGB Byte.xff Byte.xff Byte.xff) 960 ::
  repeat (repeat (RGB Byte.x0a Byte.x0a Byte.x0a) 960) 671.

(** A decoded composite, 672 by 960: white in the three cell columns on
    the left, every other sample 10. *)
Definition left_marked_composite : array2 (rgb Byte.byte) :=
  repeat (repeat (RGB Byte.xff Byte.xff Byte.xff) 288 ++
          repeat (RGB Byte.x0a Byte.x0a Byte.x0a) 672) 672.

(** ** Files written and read back *)

(** An 8-bit sample as it is stored in a file. *)
Definition to_byte (n : N) : Byte.byte :=
  match Byte.of_N n with
  | Some b => b
  | None => Byte.x00
  end.

(** The RGB image decoded from a file that holds the 8-bit image [saved]
    without loss. *)
Definition stored (saved : array2 (rgb N)) : array2 (rgb Byte.byte) :=
  map (map (rgb_map to_byte)) saved.

(** A generated sample after the way through a composite file: widened to
    float64, [(x+1)*255/2], cut to 8 bits, stored, and read back as a
    float32. *)
Definition quantise (x : float) : float :=
  of_byte (to_byte (astype_uint8 (display (astype binary64 x)))).

(** ** The input photograph inside the composite *)

(** The 8-bit level at which the level [x] of a photograph whose largest
    sample is 255 is shown in the composite. *)
Definition shown_level (x : Z) : Z :=
  if (1 <=? x)%Z && (x <=? 63)%Z then (x - 1)%Z else x.

(** A decoded photograph, 96 by 96: a white first row above gray level 40. *)
Definition photo_40 : array2 (rgb Byte.byte) :=
  repeat (RGB Byte.xff Byte.xff Byte.xff) 96 ::
  repeat (repeat (RGB Byte.x28 Byte.x28 Byte.x28) 96) 95.

(** ** The generation pass over a directory *)

(** A directory: the names [os.listdir] gives, in its order, each with
    what the file holds. *)
Definition directory (C : Type) : Type := list (String.string * C).

(** [os.listdir(path)] *)
Definition listdir {C : Type} (d : directory C) : list String.string := map fst d.

(** [f in files_already] *)
Definition name_in (f : String.string) (names : list String.string) : bool :=
  existsb (String.eqb f) names.

(** [files = [f for f in os.listdir(path_to_dir) if not f in files_already]],
    each name with what the file holds. *)
Definition pending_files {C : Type} (path_to_dir : directory C)
    (files_already : list String.string) : directory C :=
  filter (fun e => negb (name_in (fst e) files_already)) path_to_dir.

(** [img.save(path)] when it succeeds: the file is created, or replaced
    when it exists. *)
Fixpoint write_file {C : Type} (name : String.string) (v : C) (d : directory C)
    : directory C :=
  match d with
  | [] => [(name, v)]
  | (n, c) :: d' =>
      if String.eqb n name then (n, v) :: d' else (n, c) :: write_file name v d'
  end.

(** What a file of the input directory is to the pass.
    [Three_channels decoded]: an image with three 8-bit samples per pixel,
    [decoded] being its array after [resize((96,96))].
    [Unusable]: anything else, that is a file [Image.open] does not read, or
    an image with another number of samples per pixel (grayscale, palette,
    with an alpha channel), whose 96 by 96 array
    [reshape((1,96,96,3))] refuses with a ValueError. *)
Inductive photograph : Type :=
| Three_channels (decoded : array2 (rgb Byte.byte))
| Unusable.

Definition usable (photo : photograph) : bool :=
  match photo with
  | Three_channels _ => true
  | Unusable => false
  end.

(** The photographs that are images have 96 by 96 pixels, as
    [resize((96,96))] leaves them. *)
Definition resized (photo : photograph) : Prop :=
  match photo with
  | Three_channels decoded => has_shape 96 96 decoded
  | Unusable => True
  end.

Section GenerationPass.

(** [sess.run(op_to_restore, feed_dict)]: the generator of the restored
    graph, from the arousal labels, the valence labels and the query images
    to the generated images. *)
Variable generator :
  list float -> list float -> list (array2 (rgb float)) -> list (array2 (rgb float)).

(** The names under which [img.save] writes an RGB image: the extension
    names a format of the imaging library, and the file can be written.
    Under any other name [img.save] raises, and no file is taken to be
    left behind. *)
Variable can_save : String.string -> bool.

(** The body of the loop over the files, up to the image handed to the
    encoder:
<<
        i = load_image_as_network_input(path_to_dir+file).reshape((1,96,96,3))
        query_images = np.tile(i, (49, 1, 1, 1))
        feed_dict = {arousal_tensor:arousal, valence_tensor:valence,
                     images_tensor:query_images}
        x = sess.run(op_to_restore, feed_dict)
        save_generated_output(i, x, path_to_out_dir+file)
>>
    [None] stands for an exception. *)
Definition generate (photo : photograph) : option (array2 (rgb N)) :=
  match photo with
  | Unusable => None
  | Three_channels decoded =>
      match load_image_as_network_input decoded with
      | None => None
      | Some i =>
          let query_images := repeat i 49 in
          let x := generator arousal valence query_images in
          save_generated_output [i] x
      end
  end.

(** The loop over [files]: an exception (in the conversion of the
    photograph, in the tiling, or in [img.save]) ends it, and the files
    written before stay.  The result is the output directory and whether
    the loop went through. *)
Fixpoint generate_all (files : directory photograph)
    (out : directory (array2 (rgb N))) : directory (array2 (rgb N)) * bool :=
  match files with
  | [] => (out, true)
  | (file, photo) :: rest =>
      match generate photo with
      | None => (out, false)
      | Some saved =>
          if can_save file
          then generate_all rest (write_file file saved out)
          else (out, false)
      end
  end.

(** [apply_network_to_images_of_dir(path_to_dir, path_to_out_dir)] *)
Definition apply_network_to_images_of_dir
    (path_to_dir : directory photograph)
    (path_to_out_dir : directory (array2 (rgb N)))
    : directory (array2 (rgb N)) * bool :=
  let files_already := listdir path_to_out_dir in
  generate_all (pending_files path_to_dir files_already) path_to_out_dir.

End GenerationPass.

(** A generator that gives the query images back. *)
Definition echo_generator (arousal_labels valence_labels : list float)
    (query_images : list (array2 (rgb float))) : list (array2 (rgb float)) :=
  query_images.

(** The names that end in [.png]. *)
Definition png_name (name : String.string) : bool :=
  let n := String.length name in
  String.eqb (String.substring (n - 4) 4 name) ".png"%string.

(** * Properties *)

(** ** Slices and blocks, sample by sample *)

Section SliceFacts.
Context {B : Type}.

Lemma length_slice (a b : nat) (l : list B) :
  length (slice a b l) = Nat.min (b - a) (length l - a).
Proof. unfold slice. now rewrite length_firstn, length_skipn. Qed.

Lemma nth_slice (a b : nat) (l : list B) (i : nat) (d : B) :
  i < b - a -> nth i (slice a b l) d = nth (a + i) l d.
Proof.
  intros Hi. unfold slice. rewrite nth_firstn, nth_skipn.
  destruct (Nat.ltb_spec i (b - a)); [reflexivity | lia].
Qed.

Lemma In_slice (a b : nat) (l : list B) (x : B) :
  In x (slice a b l) -> In x l.
Proof.
  unfold slice. intros H.
  rewrite <- (firstn_skipn a l). apply in_or_app. right.
  rewrite <- (firstn_skipn (b - a) (skipn a l)). apply in_or_app. now left.
Qed.

Lemma broadcast_same (n : nat) (l : list B) :
  length l = n -> broadcast n l = Some l.
Proof. intros H. unfold broadcast. now rewrite H, Nat.eqb_refl. Qed.

End SliceFacts.

Section ArrayFacts.
Context {A : Type}.
Variable zero : A.

Lemma has_shapeb_spec (h w : nat) (img : array2 A) :
  has_shapeb h w img = true <-> has_shape h w img.
Proof.
  unfold has_shapeb, has_shape.
  rewrite andb_true_iff, Nat.eqb_eq, forallb_forall, Forall_forall.
  split; intros [H1 H2]; split; auto; intros x Hx;
    specialize (H2 x Hx); now apply Nat.eqb_eq.
Qed.

Lemma has_shape_zeros (h w : nat) : has_shape h w (zeros zero h w).
Proof.
  unfold has_shape, zeros. split; [apply repeat_length|].
  apply Forall_forall. intros x Hx. apply repeat_spec in Hx. subst.
  apply repeat_length.
Qed.

Lemma has_shape_row (h w : nat) (img : array2 A) (y : nat) :
  has_shape h w img -> y < h -> length (nth y img []) = w.
Proof.
  intros [Hl Hr] Hy. rewrite Forall_nth in Hr. apply Hr. lia.
Qed.

Lemma px_zeros (h w y x : nat) : px zero (zeros zero h w) y x = zero.
Proof.
  unfold px, zeros.
  destruct (Nat.lt_ge_cases y h) as [Hy|Hy].
  - rewrite (nth_indep _ [] (repeat zero w)) by now rewrite repeat_length.
    rewrite nth_repeat. apply nth_repeat.
  - rewrite (nth_overflow (repeat _ _)) by now rewrite repeat_length.
    now destruct x.
Qed.

(** Two arrays of one shape with the same samples are the same array. *)
Lemma array2_ext (h w : nat) (a b : array2 A) :
  has_shape h w a -> has_shape h w b ->
  (forall y x, y < h -> x < w -> px zero a y x = px zero b y x) ->
  a = b.
Proof.
  intros Ha Hb Hpx.
  apply (nth_ext a b [] []); [destruct Ha, Hb; congruence|].
  intros y Hy. destruct Ha as [Hla Hra]. rewrite Hla in Hy.
  assert (Hwa : length (nth y a []) = w)
    by (apply (@has_shape_row h w); [split; assumption | assumption]).
  assert (Hwb : length (nth y b []) = w) by now apply (@has_shape_row h w).
  apply (nth_ext _ _ zero zero); [congruence|].
  intros x Hx. apply Hpx; lia.
Qed.

(** Shape of a crop that lies inside the array. *)
Lemma has_shape_crop (h w r0 r1 c0 c1 : nat) (img : array2 A) :
  has_shape h w img -> r1 <= h -> c1 <= w ->
  has_shape (r1 - r0) (c1 - c0) (crop r0 r1 c0 c1 img).
Proof.
  intros [Hl Hr] Hr1 Hc1. unfold has_shape, crop. split.
  - rewrite length_map, length_slice. lia.
  - apply Forall_forall. intros row Hin. apply in_map_iff in Hin.
    destruct Hin as [row' [Heq Hin]]. subst row. cbv beta. rewrite length_slice.
    assert (length row' = w).
    { apply In_slice in Hin. rewrite Forall_forall in Hr. now apply Hr. }
    lia.
Qed.

Lemma px_crop (r0 r1 c0 c1 : nat) (img : array2 A) (y x : nat) :
  y < r1 - r0 -> x < c1 - c0 -> y < length img - r0 ->
  px zero (crop r0 r1 c0 c1 img) y x = px zero img (r0 + y) (c0 + x).
Proof.
  intros Hy Hx Hy'. unfold px, crop.
  rewrite (nth_indep _ [] (slice c0 c1 [])) by (rewrite length_map, length_slice; lia).
  rewrite map_nth, nth_slice by assumption.
  now rewrite nth_slice.
Qed.

End ArrayFacts.

Section BlockFacts.
Context {A : Type}.
Variable zero : A.

Lemma nth_paste_row (c0 c1 : nat) (f i : list A) (x : nat) :
  c0 <= c1 -> c1 <= length f -> length i = c1 - c0 ->
  nth x (firstn c0 f ++ i ++ skipn c1 f) zero =
  if (c0 <=? x) && (x <? c1) then nth (x - c0) i zero else nth x f zero.
Proof.
  intros H01 H1 Hi.
  assert (Hf : length (firstn c0 f) = c0) by (rewrite length_firstn; lia).
  destruct (Nat.leb_spec c0 x) as [Hx|Hx]; simpl.
  - rewrite app_nth2 by lia. rewrite Hf.
    destruct (Nat.ltb_spec x c1) as [Hx1|Hx1].
    + now rewrite app_nth1 by lia.
    + rewrite app_nth2 by lia. rewrite nth_skipn. f_equal. lia.
  - rewrite app_nth1 by lia. rewrite nth_firstn.
    destruct (Nat.ltb_spec x c0); [reflexivity | lia].
Qed.

Lemma length_paste_row (c0 c1 : nat) (f i : list A) :
  c0 <= c1 -> c1 <= length f -> length i = c1 - c0 ->
  length (firstn c0 f ++ i ++ skipn c1 f) = length f.
Proof.
  intros. rewrite !length_app, length_firstn, length_skipn. lia.
Qed.

Lemma paste_rows_spec (c0 c1 w : nat) (frows : array2 A) :
  c0 <= c1 -> c1 <= w ->
  forall irows : array2 A,
  Forall (fun row => length row = w) frows ->
  length irows = length frows ->
  Forall (fun row => length row = c1 - c0) irows ->
  exists mid,
    paste_rows c0 c1 frows irows = Some mid /\
    length mid = length frows /\
    Forall (fun row => length row = w) mid /\
    forall y x, y < length frows ->
      nth x (nth y mid []) zero =
      if (c0 <=? x) && (x <? c1) then nth (x - c0) (nth y irows []) zero
      else nth x (nth y frows []) zero.
Proof.
  intros H01 H1. induction frows as [|f fs IH]; intros irows Hf Hlen Hi.
  - exists []. simpl. repeat split; auto. intros y x Hy. lia.
  - destruct irows as [|i irest]; [discriminate|].
    inversion Hf as [|? ? Hf1 Hf2]; subst.
    inversion Hi as [|? ? Hi1 Hi2]; subst.
    simpl in Hlen. injection Hlen as Hlen.
    destruct (IH irest Hf2 Hlen Hi2) as [rest [E [L [F P]]]].
    exists ((firstn c0 f ++ i ++ skipn c1 f) :: rest).
    simpl. rewrite E.
    rewrite broadcast_same by (rewrite length_slice; lia).
    repeat split.
    + simpl. now rewrite L.
    + constructor; [|assumption]. apply length_paste_row; lia.
    + intros y x Hy. destruct y as [|y].
      * apply nth_paste_row; lia.
      * apply P. simpl in Hy. lia.
Qed.

Lemma set_block_spec (h w r0 r1 c0 c1 : nat) (frame image : array2 A) :
  has_shape h w frame -> r0 <= r1 -> r1 <= h -> c0 <= c1 -> c1 <= w ->
  has_shape (r1 - r0) (c1 - c0) image ->
  exists fr,
    set_block r0 r1 c0 c1 frame image = Some fr /\
    has_shape h w fr /\
    forall y x, y < h ->
      px zero fr y x =
      if (r0 <=? y) && (y <? r1) && ((c0 <=? x) && (x <? c1))
      then px zero image (y - r0) (x - c0)
      else px zero frame y x.
Proof.
  intros [Hl Hr] Hr01 Hr1 Hc01 Hc1 [Hil Hir].
  assert (Hs : length (slice r0 r1 frame) = r1 - r0) by (rewrite length_slice; lia).
  assert (Hsr : Forall (fun row => length row = w) (slice r0 r1 frame)).
  { apply Forall_forall. intros row Hin. apply In_slice in Hin.
    rewrite Forall_forall in Hr. now apply Hr. }
  destruct (@paste_rows_spec c0 c1 w (slice r0 r1 frame) Hc01 Hc1 image Hsr)
    as [mid [E [L [F P]]]]; [congruence | assumption |].
  exists (firstn r0 frame ++ mid ++ skipn r1 frame).
  unfold set_block. rewrite broadcast_same by congruence. rewrite E.
  split; [reflexivity|]. split.
  - split.
    + rewrite !length_app, length_firstn, length_skipn. lia.
    + rewrite !Forall_app. repeat split; [| assumption |].
      * apply Forall_forall. intros row Hin.
        rewrite <- (firstn_skipn r0 frame) in Hr.
        rewrite Forall_app in Hr. destruct Hr as [Hr _].
        rewrite Forall_forall in Hr. now apply Hr.
      * apply Forall_forall. intros row Hin.
        rewrite <- (firstn_skipn r1 frame) in Hr.
        rewrite Forall_app in Hr. destruct Hr as [_ Hr].
        rewrite Forall_forall in Hr. now apply Hr.
  - intros y x Hy. unfold px.
    assert (Hfl : length (firstn r0 frame) = r0) by (rewrite length_firstn; lia).
    destruct (Nat.leb_spec r0 y) as [Hy0|Hy0]; simpl.
    + rewrite app_nth2 by lia. rewrite Hfl.
      destruct (Nat.ltb_spec y r1) as [Hy1|Hy1]; simpl.
      * rewrite app_nth1 by lia. rewrite P by lia.
        rewrite nth_slice by lia.
        replace (r0 + (y - r0)) with y by lia. reflexivity.
      * rewrite app_nth2 by lia. rewrite nth_skipn. do 2 f_equal. lia.
    + rewrite app_nth1 by lia. rewrite nth_firstn.
      destruct (Nat.ltb_spec y r0); [reflexivity | lia].
Qed.

End BlockFacts.

(** ** The tiling loop *)

Section CellArith.

Lemma in_cell (p y r : nat) :
  0 < p -> (r * p <= y /\ y < (r + 1) * p <-> y / p = r).
Proof.
  intros Hp. split.
  - intros [H1 H2]. symmetry. apply (Nat.div_unique y p r (y - r * p)); lia.
  - intros <-. pose proof (Nat.div_mod_eq y p) as E.
    pose proof (Nat.mod_upper_bound y p ltac:(lia)) as U. nia.
Qed.

Lemma in_cell_mod (p y : nat) : 0 < p -> y - y / p * p = y mod p.
Proof.
  intros Hp. pose proof (Nat.div_mod_eq y p) as E. nia.
Qed.

Lemma cell_index_eq (cols yq xq r c : nat) :
  xq < cols -> c < cols ->
  (yq * cols + xq = r * cols + c <-> yq = r /\ xq = c).
Proof.
  intros Hx Hc. split; [|intros [-> ->]; reflexivity].
  intros E. assert (yq = r) by nia. subst. lia.
Qed.

Lemma cell_in_block (p cols k y x : nat) :
  0 < p -> 0 < cols -> x / p < cols ->
  ((k / cols * p <=? y) && (y <? (k / cols + 1) * p) &&
   ((k mod cols * p <=? x) && (x <? (k mod cols + 1) * p)) = true
   <-> y / p * cols + x / p = k).
Proof.
  intros Hp Hc Hx.
  rewrite !andb_true_iff, !Nat.leb_le, !Nat.ltb_lt, !in_cell by assumption.
  pose proof (Nat.div_mod_eq k cols) as E.
  pose proof (Nat.mod_upper_bound k cols ltac:(lia)) as U.
  assert (Ek : k = k / cols * cols + k mod cols) by lia.
  split.
  - intros [H1 H2]. rewrite H1, H2. lia.
  - intros H. apply (cell_index_eq (cols := cols)); try assumption. lia.
Qed.

End CellArith.

Section TileFacts.
Context {A : Type}.
Variable zero : A.

Lemma combine_app {B C : Type} (l1 l2 : list B) (m1 m2 : list C) :
  length l1 = length m1 ->
  combine (l1 ++ l2) (m1 ++ m2) = combine l1 m1 ++ combine l2 m2.
Proof.
  revert m1. induction l1 as [|a l1 IH]; intros [|b m1] H; try discriminate.
  - reflexivity.
  - simpl. f_equal. apply IH. now injection H.
Qed.

Lemma enumerate_snoc {B : Type} (l : list B) (x : B) :
  enumerate (l ++ [x]) = enumerate l ++ [(length l, x)].
Proof.
  unfold enumerate. rewrite length_app. simpl length.
  rewrite seq_app. simpl. rewrite combine_app by apply length_seq. reflexivity.
Qed.

Lemma tile_frame_spec (p rows cols : nat) (images : list (array2 A)) :
  length images <= rows * cols ->
  Forall (has_shape p p) images ->
  exists canvas,
    tile_frame zero p rows cols images = Some canvas /\
    tiled zero p rows cols images canvas.
Proof.
  induction images as [|img images IH] using rev_ind; intros Hlen Hsh.
  - exists (zeros zero (rows * p) (cols * p)). split; [reflexivity|].
    split; [apply has_shape_zeros|].
    intros y x Hy Hx. simpl. apply px_zeros.
  - rewrite length_app in Hlen. simpl in Hlen.
    apply Forall_app in Hsh. destruct Hsh as [Hsh Himg].
    inversion Himg as [|? ? Himg' _]; subst.
    destruct (IH ltac:(lia) Hsh) as [fr [E [Sfr Pfr]]].
    set (k := length images) in *.
    assert (Hc : 0 < cols) by nia.
    pose proof (Nat.Div0.div_lt_upper_bound k cols rows ltac:(lia)) as Hr.
    pose proof (Nat.mod_upper_bound k cols ltac:(lia)) as Hcc.
    destruct (@set_block_spec A zero (rows * p) (cols * p)
                (k / cols * p) ((k / cols + 1) * p)
                (k mod cols * p) ((k mod cols + 1) * p) fr img Sfr)
      as [fr' [E' [Sfr' Pfr']]]; try nia.
    { replace ((k / cols + 1) * p - k / cols * p) with p by nia.
      replace ((k mod cols + 1) * p - k mod cols * p) with p by nia.
      assumption. }
    exists fr'. split.
    + unfold tile_frame in *. rewrite enumerate_snoc, fold_left_app, E.
      simpl. exact E'.
    + split; [assumption|].
      intros y x Hy Hx. cbv zeta.
      assert (Hp : 0 < p) by nia.
      assert (Hxq : x / p < cols)
        by (apply Nat.Div0.div_lt_upper_bound; nia).
      rewrite Pfr' by assumption.
      rewrite length_app. simpl length. fold k.
      destruct ((k / cols * p <=? y) && (y <? (k / cols + 1) * p) &&
                ((k mod cols * p <=? x) && (x <? (k mod cols + 1) * p)))
        eqn:Hb.
      * pose proof Hb as Hb'.
        apply cell_in_block in Hb; try assumption.
        rewrite Hb.
        destruct (Nat.ltb_spec k (k + 1)); [|lia].
        rewrite app_nth2 by (fold k; lia). fold k.
        rewrite Nat.sub_diag. simpl nth.
        rewrite !andb_true_iff, !Nat.leb_le, !Nat.ltb_lt in Hb'.
        destruct Hb' as [Hy' Hx'].
        apply in_cell in Hy', Hx'; try assumption.
        rewrite <- Hy' at 1. rewrite <- Hx' at 1.
        now rewrite !in_cell_mod by assumption.
      * assert (Hne : y / p * cols + x / p <> k).
        { intros Heq. apply cell_in_block in Heq; try assumption.
          congruence. }
        rewrite (Pfr y x Hy Hx). cbv zeta. fold k.
        destruct (Nat.ltb_spec (y / p * cols + x / p) k);
          destruct (Nat.ltb_spec (y / p * cols + x / p) (k + 1)); try lia.
        -- now rewrite app_nth1 by (fold k; lia).
        -- reflexivity.
Qed.

End TileFacts.

(** ** Cutting cells out of a tiled canvas *)

Section ExtractFacts.
Context {A : Type}.
Variable zero : A.

Lemma map_seq_shift {B : Type} (f : nat -> B) (a n : nat) :
  map f (seq a n) = map (fun c => f (a + c)) (seq 0 n).
Proof.
  revert f a. induction n as [|n IH]; intros f a; [reflexivity|].
  simpl. rewrite Nat.add_0_r. f_equal.
  rewrite (IH f (S a)). rewrite (IH (fun c => f (a + c)) 1).
  apply map_ext. intros c. f_equal. lia.
Qed.

Lemma flat_map_seq_grid {B : Type} (f : nat -> B) (rows cols : nat) :
  flat_map (fun r => map (fun c => f (r * cols + c)) (seq 0 cols)) (seq 0 rows) =
  map f (seq 0 (rows * cols)).
Proof.
  induction rows as [|rows IH]; [reflexivity|].
  rewrite seq_S, flat_map_app, IH. simpl flat_map. rewrite app_nil_r.
  replace (S rows * cols) with (rows * cols + cols) by lia.
  rewrite seq_app, map_app. f_equal. simpl.
  now rewrite (map_seq_shift f (rows * cols) cols).
Qed.

Lemma map_nth_seq {B : Type} (l : list B) (d : B) :
  map (fun i => nth i l d) (seq 0 (length l)) = l.
Proof.
  apply (nth_ext _ _ d d); [now rewrite length_map, length_seq|].
  intros n Hn. rewrite length_map, length_seq in Hn.
  rewrite (nth_indep _ d (nth (length l) l d)) by now rewrite length_map, length_seq.
  rewrite (map_nth (fun i => nth i l d) (seq 0 (length l)) (length l) n).
  now rewrite seq_nth.
Qed.

(** The cell at row [r], column [c] of a tiled canvas is the image the
    loop pasted there. *)
Lemma crop_tiled (p rows cols : nat) (images : list (array2 A))
    (canvas : array2 A) (r c : nat) :
  tiled zero p rows cols images canvas ->
  Forall (has_shape p p) images ->
  r < rows -> c < cols -> r * cols + c < length images ->
  crop (r * p) ((r + 1) * p) (p * c) (p * (c + 1)) canvas =
  nth (r * cols + c) images [].
Proof.
  intros [Sh Px] Himgs Hr Hc Hidx.
  assert (Himg : has_shape p p (nth (r * cols + c) images [])).
  { rewrite Forall_nth in Himgs. now apply Himgs. }
  apply (@array2_ext A zero p p); [| assumption |].
  - pose proof (@has_shape_crop A (rows * p) (cols * p) (r * p) ((r + 1) * p)
                  (p * c) (p * (c + 1)) canvas Sh ltac:(nia) ltac:(nia)) as Hcs.
    replace ((r + 1) * p - r * p) with p in Hcs by nia.
    replace (p * (c + 1) - p * c) with p in Hcs by nia.
    exact Hcs.
  - intros y x Hy Hx.
    destruct Sh as [Shl Shr].
    rewrite px_crop by nia.
    rewrite Px by nia. cbv zeta.
    assert (Hp : p <> 0) by lia.
    rewrite (Nat.div_add_l r p y Hp), (Nat.div_small y p Hy), Nat.add_0_r.
    rewrite (Nat.mul_comm p c).
    rewrite (Nat.div_add_l c p x Hp), (Nat.div_small x p Hx), Nat.add_0_r.
    destruct (Nat.ltb_spec (r * cols + c) (length images)); [|lia].
    rewrite (Nat.add_comm (r * p) y), (Nat.add_comm (c * p) x).
    rewrite !Nat.Div0.mod_add, !Nat.mod_small by assumption.
    reflexivity.
Qed.

(** Extraction of [cols] cell columns at offset [off] from a canvas
    tiled with [width] cell columns. *)
Lemma extract_cells_tiled (p rows cols off width : nat)
    (images : list (array2 A)) (canvas : array2 A) :
  tiled zero p rows width images canvas ->
  Forall (has_shape p p) images ->
  length images = rows * width ->
  cols + off <= width ->
  extract_cells p rows cols off canvas =
  flat_map (fun r => map (fun c => nth (r * width + (c + off)) images [])
                         (seq 0 cols)) (seq 0 rows).
Proof.
  intros Ht Himgs Hlen Hw. unfold extract_cells.
  rewrite !flat_map_concat_map. f_equal.
  apply map_ext_in. intros r Hr. apply in_seq in Hr.
  apply map_ext_in. intros c Hc. apply in_seq in Hc.
  apply (crop_tiled Ht Himgs); nia.
Qed.

(** Composition followed by extraction with the same geometry. *)
Lemma extract_tile_frame (p rows cols : nat) (images : list (array2 A)) :
  length images = rows * cols ->
  Forall (has_shape p p) images ->
  exists canvas,
    tile_frame zero p rows cols images = Some canvas /\
    has_shape (rows * p) (cols * p) canvas /\
    extract_cells p rows cols 0 canvas = images.
Proof.
  intros Hlen Himgs.
  destruct (@tile_frame_spec A zero p rows cols images ltac:(lia) Himgs)
    as [canvas [E T]].
  exists canvas. split; [assumption|]. split; [apply T|].
  rewrite (@extract_cells_tiled p rows cols 0 cols images canvas T Himgs Hlen)
    by lia.
  transitivity (map (fun i => nth i images []) (seq 0 (length images)));
    [|apply map_nth_seq].
  rewrite Hlen, <- flat_map_seq_grid.
  rewrite !flat_map_concat_map. f_equal.
  apply map_ext. intros r. apply map_ext. intros c.
  now rewrite Nat.add_0_r.
Qed.

End ExtractFacts.

(** ** The annotated canvas of the generation pass *)

Section LayoutFacts.
Context {A : Type}.
Variable zero : A.

Lemma Forall_slice {B : Type} (P : B -> Prop) (a b : nat) (l : list B) :
  Forall P l -> Forall P (slice a b l).
Proof.
  rewrite !Forall_forall. intros H x Hx. apply H. eapply In_slice; eassumption.
Qed.

Lemma Forall_skipn_sub {B : Type} (P : B -> Prop) (a : nat) (l : list B) :
  Forall P l -> Forall P (skipn a l).
Proof.
  intros H. rewrite <- (firstn_skipn a l) in H.
  now apply Forall_app in H.
Qed.

Lemma concatenate_ok (parts : list (list (array2 A))) :
  Forall (has_shape 96 96) (concat parts) ->
  concatenate parts = Some (concat parts).
Proof.
  intros H. unfold concatenate.
  replace (forallb (has_shapeb 96 96) (concat parts)) with true; [reflexivity|].
  symmetry. apply forallb_forall. intros x Hx.
  apply has_shapeb_spec. rewrite Forall_forall in H. now apply H.
Qed.

Lemma Forall_black_image3 : Forall (has_shape 96 96) (black_image3 zero).
Proof. repeat constructor; apply has_shape_zeros. Qed.

(** The list of cells when the pass is given one input image and 49
    generated images of 96 by 96 pixels. *)
Lemma final_image_list_layout (inp generated_outp : list (array2 A)) :
  length inp = 1 -> length generated_outp = 49 ->
  Forall (has_shape 96 96) inp -> Forall (has_shape 96 96) generated_outp ->
  exists l,
    final_image_list zero inp generated_outp = Some l /\
    Forall (has_shape 96 96) l /\
    l = map (cell_image zero inp generated_outp) annotated_layout.
Proof.
  intros Hi Hg Si Sg.
  eexists. split; [|split].
  - unfold final_image_list. apply concatenate_ok.
    pose proof Forall_black_image3 as Hb.
    assert (Hb1 : Forall (has_shape 96 96) (black_image zero))
      by (repeat constructor; apply has_shape_zeros).
    apply Forall_concat.
    repeat (constructor;
            [first [ exact Hb | exact Hb1 | exact Si
                   | apply Forall_slice; exact Sg
                   | apply Forall_skipn_sub; exact Sg ]|]).
    constructor.
  - pose proof Forall_black_image3 as Hb.
    assert (Hb1 : Forall (has_shape 96 96) (black_image zero))
      by (repeat constructor; apply has_shape_zeros).
    apply Forall_concat.
    repeat (constructor;
            [first [ exact Hb | exact Hb1 | exact Si
                   | apply Forall_slice; exact Sg
                   | apply Forall_skipn_sub; exact Sg ]|]).
    constructor.
  - destruct inp as [|i0 [|? ?]]; try discriminate.
    do 49 (destruct generated_outp as [|? generated_outp]; [discriminate|]).
    destruct generated_outp; [|discriminate].
    reflexivity.
Qed.

End LayoutFacts.

Section CanvasFacts.
Context {A : Type}.
Variable zero : A.

(** The canvas of the generation pass, cell by cell. *)
Lemma final_image_cells (inp generated_outp : list (array2 A)) :
  length inp = 1 -> length generated_outp = 49 ->
  Forall (has_shape 96 96) inp -> Forall (has_shape 96 96) generated_outp ->
  exists l canvas,
    final_image_list zero inp generated_outp = Some l /\
    l = map (cell_image zero inp generated_outp) annotated_layout /\
    Forall (has_shape 96 96) l /\
    final_image zero inp generated_outp = Some canvas /\
    tiled zero 96 7 10 l canvas.
Proof.
  intros Hi Hg Si Sg.
  destruct (final_image_list_layout zero Hi Hg Si Sg) as [l [E [Sl El]]].
  assert (Hl : length l = 70) by (rewrite El, length_map; reflexivity).
  destruct (@tile_frame_spec A zero 96 7 10 l ltac:(lia) Sl) as [canvas [Ec T]].
  exists l, canvas. unfold final_image. rewrite E. auto.
Qed.

(** The cells the difference pass cuts out of that canvas. *)
Lemma get_generated_images_final_image (inp generated_outp : list (array2 A)) :
  length inp = 1 -> length generated_outp = 49 ->
  Forall (has_shape 96 96) inp -> Forall (has_shape 96 96) generated_outp ->
  exists canvas,
    final_image zero inp generated_outp = Some canvas /\
    has_shape 672 960 canvas /\
    get_generated_images 96 canvas = generated_outp.
Proof.
  intros Hi Hg Si Sg.
  destruct (final_image_cells Hi Hg Si Sg) as [l [canvas [E [El [Sl [Ec T]]]]]].
  exists canvas. split; [assumption|]. split; [apply T|].
  assert (Hl : length l = 7 * 10) by (rewrite El, length_map; reflexivity).
  unfold get_generated_images.
  rewrite (@extract_cells_tiled A zero 96 7 7 3 10 l canvas T Sl Hl) by lia.
  rewrite El.
  transitivity (map (fun i => nth i generated_outp []) (seq 0 (length generated_outp)));
    [|apply map_nth_seq].
  rewrite Hg. reflexivity.
Qed.

End CanvasFacts.

Section ShapeFacts.
Context {A B : Type}.

Lemma has_shape_map (f : A -> B) (h w : nat) (img : array2 A) :
  has_shape h w img -> has_shape h w (map (map f) img).
Proof.
  intros [Hl Hr]. split; [now rewrite length_map|].
  apply Forall_map. eapply Forall_impl; [|exact Hr].
  intros row Hrow. now rewrite length_map.
Qed.

Lemma Forall_has_shape_map (f : A -> B) (h w : nat) (l : list (array2 A)) :
  Forall (has_shape h w) l -> Forall (has_shape h w) (map (map (map f)) l).
Proof.
  intros H. apply Forall_map. eapply Forall_impl; [|exact H].
  intros img. apply has_shape_map.
Qed.

Lemma Forall_has_shapeb (h w : nat) (l : list (array2 A)) :
  forallb (has_shapeb h w) l = true -> Forall (has_shape h w) l.
Proof.
  intros H. apply Forall_forall. intros img Hin.
  apply has_shapeb_spec. rewrite forallb_forall in H. now apply H.
Qed.

End ShapeFacts.

(** C1. Tiling round trip: a sequence of [rows * cols] square images of
    side [p], composed with [cols] columns and cut again with the same cell
    size, row and column counts and offset, is returned unchanged (so are 49
    difference images through [tile_to_square], as the float64 samples the
    frame holds); and the 7 by 7 grid cut at column offset 3 out of the
    canvas of the generation pass is the sequence of the 49 generated
    images, in order. *)
Theorem tiling_round_trip (A : Type) (zero : A) (p rows cols : nat)
    (images inp generated_outp : list (array2 A))
    (differences : list (array2 float)) :
  length images = rows * cols ->
  Forall (has_shape p p) images ->
  length differences = 49 ->
  Forall (has_shape 96 96) differences ->
  length inp = 1 -> length generated_outp = 49 ->
  Forall (has_shape 96 96) inp -> Forall (has_shape 96 96) generated_outp ->
  (exists canvas,
     tile_frame zero p rows cols images = Some canvas /\
     extract_cells p rows cols 0 canvas = images) /\
  (exists frame,
     tile_to_square differences = Some frame /\
     extract_cells 96 7 7 0 frame = amap (astype binary64) differences) /\
  (exists canvas,
     final_image zero inp generated_outp = Some canvas /\
     get_generated_images 96 canvas = generated_outp).
Proof.
  intros Hlen Himgs Hd Sd Hi Hg Si Sg. split; [|split].
  - destruct (@extract_tile_frame A zero p rows cols images Hlen Himgs)
      as [canvas [E [_ R]]].
    now exists canvas.
  - unfold tile_to_square.
    destruct (@extract_tile_frame float fzero 96 7 7
                (amap (astype binary64) differences))
      as [frame [E [_ R]]].
    + simpl. now rewrite length_map, Hd.
    + apply Forall_has_shape_map, Sd.
    + now exists frame.
  - destruct (get_generated_images_final_image zero Hi Hg Si Sg)
      as [canvas [E [_ R]]].
    now exists canvas.
Qed.

(** C5. The annotated canvas has 70 cells in 7 rows of 10, filled row by
    row with: three spacers, images 0-6, three spacers, images 7-13, three
    spacers, images 14-20, one spacer, the input image, one spacer, images
    21-27, three spacers, images 28-34, three spacers, images 35-41, three
    spacers, images 42-48. *)
Theorem annotated_canvas_layout (A : Type) (zero : A)
    (inp generated_outp : list (array2 A)) :
  length inp = 1 -> length generated_outp = 49 ->
  Forall (has_shape 96 96) inp -> Forall (has_shape 96 96) generated_outp ->
  exists l canvas,
    final_image_list zero inp generated_outp = Some l /\
    l = map (cell_image zero inp generated_outp) annotated_layout /\
    length l = 70 /\
    final_image zero inp generated_outp = Some canvas /\
    has_shape (7 * 96) (10 * 96) canvas /\
    forall index_row index_column, index_row < 7 -> index_column < 10 ->
      crop (index_row * 96) ((index_row + 1) * 96)
           (index_column * 96) ((index_column + 1) * 96) canvas =
      nth (index_row * 10 + index_column) l [].
Proof.
  intros Hi Hg Si Sg.
  destruct (final_image_cells zero Hi Hg Si Sg) as [l [canvas [E [El [Sl [Ec T]]]]]].
  assert (Hl : length l = 70) by (rewrite El, length_map; reflexivity).
  exists l, canvas. repeat split; try assumption; try apply T.
  intros r c Hr Hc.
  rewrite (Nat.mul_comm c 96), (Nat.mul_comm (c + 1) 96).
  apply (crop_tiled T Sl); lia.
Qed.

Ltac shapes := apply Forall_has_shapeb; vm_compute; reflexivity.

Lemma tiling_round_trip_witness :
  length six_images = 2 * 3 /\
  Forall (has_shape 2 2) six_images /\
  length numbered_differences = 49 /\
  Forall (has_shape 96 96) numbered_differences /\
  length [solid 7] = 1 /\ length numbered_images = 49 /\
  Forall (has_shape 96 96) [solid 7] /\
  Forall (has_shape 96 96) numbered_images /\
  (exists canvas,
     tile_frame 0 2 2 3 six_images = Some canvas /\
     extract_cells 2 2 3 0 canvas = six_images) /\
  (exists frame,
     tile_to_square numbered_differences = Some frame /\
     extract_cells 96 7 7 0 frame = amap (astype binary64) numbered_differences) /\
  (exists canvas,
     final_image 0 [solid 7] numbered_images = Some canvas /\
     get_generated_images 96 canvas = numbered_images).
Proof.
  assert (H1 : length six_images = 2 * 3) by reflexivity.
  assert (H2 : Forall (has_shape 2 2) six_images) by shapes.
  assert (H3 : length numbered_differences = 49) by reflexivity.
  assert (H4 : Forall (has_shape 96 96) numbered_differences) by shapes.
  assert (H5 : length [solid 7] = 1) by reflexivity.
  assert (H6 : length numbered_images = 49) by reflexivity.
  assert (H7 : Forall (has_shape 96 96) [solid 7]) by shapes.
  assert (H8 : Forall (has_shape 96 96) numbered_images) by shapes.
  repeat (split; [assumption|]).
  exact (tiling_round_trip 0 2 3 H1 H2 H3 H4 H5 H6 H7 H8).
Defined.

Lemma annotated_canvas_layout_witness :
  length [solid 7] = 1 /\ length numbered_images = 49 /\
  Forall (has_shape 96 96) [solid 7] /\
  Forall (has_shape 96 96) numbered_images /\
  exists l canvas,
    final_image_list 0 [solid 7] numbered_images = Some l /\
    l = map (cell_image 0 [solid 7] numbered_images) annotated_layout /\
    length l = 70 /\
    final_image 0 [solid 7] numbered_images = Some canvas /\
    has_shape (7 * 96) (10 * 96) canvas /\
    forall index_row index_column, index_row < 7 -> index_column < 10 ->
      crop (index_row * 96) ((index_row + 1) * 96)
           (index_column * 96) ((index_column + 1) * 96) canvas =
      nth (index_row * 10 + index_column) l [].
Proof.
  assert (H5 : length [solid 7] = 1) by reflexivity.
  assert (H6 : length numbered_images = 49) by reflexivity.
  assert (H7 : Forall (has_shape 96 96) [solid 7]) by shapes.
  assert (H8 : Forall (has_shape 96 96) numbered_images) by shapes.
  repeat (split; [assumption|]).
  exact (annotated_canvas_layout 0 H5 H6 H7 H8).
Defined.

(** ** The label grid *)

Lemma levels_values :
  levels = [ dec 75 100; dec 5 10; dec 25 100; fzero;
             SFopp (dec 25 100); SFopp (dec 5 10); SFopp (dec 75 100) ].
Proof. vm_compute. reflexivity. Qed.

Lemma label_grid_order (i : nat) :
  i < 49 ->
  nth_error valence i = nth_error levels (i / 7) /\
  nth_error arousal i = nth_error levels (i mod 7).
Proof.
  intros Hi.
  do 49 (destruct i as [|i]; [vm_compute; split; reflexivity|]).
  lia.
Qed.

Lemma neutral_cell {A : Type} (p : nat) (img : array2 A) :
  nth_error (get_generated_images p img) 24 =
  Some (crop (3 * p) ((3 + 1) * p) (p * (3 + 3)) (p * (3 + 4)) img).
Proof. reflexivity. Qed.

(** C4. In the grid of 49 labels, with both components over 0.75, 0.5,
    0.25, 0, -0.25, -0.5, -0.75, valence constant over runs of 7 and arousal
    cycling every 7, the pair at index 24 is (0, 0), and no other index has
    it; index 24 of the sequence cut out of a composite is the cell at row 3,
    column 3 of the 7 by 7 grid, it is the image generated for that pair, and
    the difference pass takes it as the reference. *)
Theorem neutral_is_index_24 (A : Type) (zero : A)
    (inp generated_outp : list (array2 A)) (decoded : array2 (rgb Byte.byte)) :
  length inp = 1 -> length generated_outp = 49 ->
  Forall (has_shape 96 96) inp -> Forall (has_shape 96 96) generated_outp ->
  levels = [ dec 75 100; dec 5 10; dec 25 100; fzero;
             SFopp (dec 25 100); SFopp (dec 5 10); SFopp (dec 75 100) ] /\
  length valence = 49 /\ length arousal = 49 /\
  (forall i, i < 49 ->
     nth_error valence i = nth_error levels (i / 7) /\
     nth_error arousal i = nth_error levels (i mod 7)) /\
  nth_error valence 24 = Some fzero /\
  nth_error arousal 24 = Some fzero /\
  filter (fun i => SFeqb (nth i valence S754_nan) fzero &&
                   SFeqb (nth i arousal S754_nan) fzero) (seq 0 49) = [24] /\
  24 = 3 * 7 + 3 /\
  (forall (p : nat) (img : array2 A),
     nth_error (get_generated_images p img) 24 =
     Some (crop (3 * p) ((3 + 1) * p) (p * (3 + 3)) (p * (3 + 4)) img)) /\
  (exists canvas,
     final_image zero inp generated_outp = Some canvas /\
     nth_error (get_generated_images 96 canvas) 24 = nth_error generated_outp 24) /\
  differences_square decoded =
    (let gen_images := get_generated_images 96 (get_image_array decoded) in
     let neutral := crop (3 * 96) ((3 + 1) * 96) (96 * (3 + 3)) (96 * (3 + 4))
                         (get_image_array decoded) in
     match mapM (fun im => get_max_difference binary32 im neutral) gen_images with
     | None => None
     | Some differences => tile_to_square differences
     end).
Proof.
  intros Hi Hg Si Sg.
  split; [exact levels_values|].
  split; [reflexivity|]. split; [reflexivity|].
  split; [exact label_grid_order|].
  split; [vm_compute; reflexivity|]. split; [vm_compute; reflexivity|].
  split; [vm_compute; reflexivity|]. split; [reflexivity|].
  split; [intros p img; apply neutral_cell|].
  split.
  - destruct (get_generated_images_final_image zero Hi Hg Si Sg)
      as [canvas [E [_ R]]].
    exists canvas. split; [assumption|]. now rewrite R.
  - unfold differences_square. cbv zeta.
    now rewrite neutral_cell.
Qed.

(** ** The saved composite *)

Lemma slice_map {X Y : Type} (f : X -> Y) (a b : nat) (l : list X) :
  slice a b (map f l) = map f (slice a b l).
Proof. unfold slice. now rewrite skipn_map, firstn_map. Qed.

Section MapFacts.
Context {A B : Type}.

Lemma crop_map (f : A -> B) (r0 r1 c0 c1 : nat) (img : array2 A) :
  crop r0 r1 c0 c1 (map (map f) img) = map (map f) (crop r0 r1 c0 c1 img).
Proof.
  unfold crop. rewrite slice_map, !map_map.
  apply map_ext. intros row. apply slice_map.
Qed.

Lemma map_zeros (f : A -> B) (z : A) (h w : nat) :
  map (map f) (zeros z h w) = zeros (f z) h w.
Proof. unfold zeros. now rewrite !map_repeat. Qed.

End MapFacts.

Lemma display_spacer :
  rgb_map astype_uint8 (rgb_map display (RGB fzero fzero fzero)) =
  RGB 127%N 127%N 127%N.
Proof. vm_compute. reflexivity. Qed.

(** C10. The display mapping [(x+1)*255/2] and the conversion to 8 bits go
    over the whole canvas of the generation pass, spacer cells included:
    every pixel of a spacer cell of the saved image is (127, 127, 127). *)
Theorem spacers_saved_mid_gray (inp generated_outp : list (array2 (rgb float))) :
  length inp = 1 -> length generated_outp = 49 ->
  Forall (has_shape 96 96) inp -> Forall (has_shape 96 96) generated_outp ->
  exists canvas saved,
    final_image (RGB fzero fzero fzero) (amap (astype binary64) inp)
      (amap (astype binary64) generated_outp) = Some canvas /\
    save_generated_output inp generated_outp = Some saved /\
    saved = map (map (rgb_map (fun x => astype_uint8 (display x)))) canvas /\
    has_shape 672 960 saved /\
    forall index, index < 70 ->
      nth index annotated_layout Input = Spacer ->
      let index_column := index mod 10 in
      let index_row := index / 10 in
      crop (index_row * 96) ((index_row + 1) * 96)
           (index_column * 96) ((index_column + 1) * 96) saved =
      solid (RGB 127%N 127%N 127%N).
Proof.
  intros Hi Hg Si Sg.
  set (z := RGB fzero fzero fzero).
  set (inp' := amap (astype binary64) inp).
  set (gen' := amap (astype binary64) generated_outp).
  assert (Hi' : length inp' = 1) by (unfold inp'; simpl; now rewrite length_map).
  assert (Hg' : length gen' = 49) by (unfold gen'; simpl; now rewrite length_map).
  assert (Si' : Forall (has_shape 96 96) inp')
    by (apply Forall_has_shape_map, Si).
  assert (Sg' : Forall (has_shape 96 96) gen')
    by (apply Forall_has_shape_map, Sg).
  destruct (final_image_cells z Hi' Hg' Si' Sg')
    as [l [canvas [E [El [Sl [Ec T]]]]]].
  exists canvas, (save_image (amap display canvas)).
  split; [exact Ec|].
  split; [unfold save_generated_output; fold z inp' gen'; now rewrite Ec|].
  assert (Es : save_image (amap display canvas) =
               map (map (rgb_map (fun x => astype_uint8 (display x)))) canvas).
  { unfold save_image. simpl. rewrite map_map. apply map_ext. intros row.
    rewrite map_map. apply map_ext. now intros [r g b]. }
  split; [exact Es|].
  split; [rewrite Es; apply has_shape_map, T|].
  intros index Hidx Hsp. cbv zeta.
  pose proof (Nat.mod_upper_bound index 10 ltac:(lia)) as Hc.
  pose proof (Nat.Div0.div_lt_upper_bound index 10 7 ltac:(lia)) as Hr.
  rewrite Es, crop_map.
  rewrite (Nat.mul_comm (index mod 10) 96), (Nat.mul_comm (index mod 10 + 1) 96).
  assert (Hl : length l = 70) by (rewrite El, length_map; reflexivity).
  rewrite (crop_tiled T Sl) by lia.
  replace (index / 10 * 10 + index mod 10) with index
    by (pose proof (Nat.div_mod_eq index 10); lia).
  rewrite El.
  rewrite (nth_indep _ [] (cell_image z inp' gen' Input))
    by (rewrite length_map; exact Hidx).
  rewrite map_nth, Hsp. simpl cell_image.
  rewrite map_zeros.
  unfold solid, zeros. rewrite <- display_spacer. reflexivity.
Qed.

(** ** Element-wise operations *)

Lemma zip_with_spec {X Y Z : Type} (f : X -> Y -> option Z)
    (dx : X) (dy : Y) (dz : Z) (l1 : list X) (l2 : list Y) :
  length l1 = length l2 ->
  (forall i, i < length l1 -> exists z, f (nth i l1 dx) (nth i l2 dy) = Some z) ->
  exists r,
    zip_with f l1 l2 = Some r /\ length r = length l1 /\
    forall i, i < length l1 -> f (nth i l1 dx) (nth i l2 dy) = Some (nth i r dz).
Proof.
  revert l2. induction l1 as [|x l1 IH]; intros [|y l2] Hlen Hf; try discriminate.
  - exists []. repeat split. intros i Hi. simpl in Hi. lia.
  - simpl in Hlen. injection Hlen as Hlen.
    destruct (Hf 0 ltac:(simpl; lia)) as [z Hz]. simpl in Hz.
    destruct (IH l2 Hlen) as [r [E [L P]]].
    { intros i Hi. apply (Hf (S i)). simpl. lia. }
    exists (z :: r). simpl. rewrite Hz, E. repeat split.
    + now rewrite L.
    + intros [|i] Hi; [assumption|]. apply P. lia.
Qed.

Section ZipFacts.
Context {X Y Z : Type}.

Lemma elementwise_spec (f : X -> Y -> Z) (dx : X) (dy : Y) (dz : Z)
    (h w : nat) (a : array2 X) (b : array2 Y) :
  has_shape h w a -> has_shape h w b ->
  exists d,
    elementwise f a b = Some d /\ has_shape h w d /\
    forall y x, y < h -> x < w ->
      px dz d y x = f (px dx a y x) (px dy b y x).
Proof.
  intros Ha Hb. pose proof Ha as [Hla Hra]. pose proof Hb as [Hlb Hrb].
  assert (Hrows : forall i, i < length a ->
            exists r, zip_with (fun x y => Some (f x y)) (nth i a []) (nth i b []) = Some r /\
                      length r = w /\
                      forall j, j < w -> nth j r dz = f (nth j (nth i a []) dx) (nth j (nth i b []) dy)).
  { intros i Hi.
    assert (Hwa : length (nth i a []) = w)
      by (eapply has_shape_row; [exact Ha | lia]).
    assert (Hwb : length (nth i b []) = w)
      by (eapply has_shape_row; [exact Hb | lia]).
    destruct (@zip_with_spec _ _ _ (fun x y => Some (f x y)) dx dy dz
                (nth i a []) (nth i b []))
      as [r [E [L P]]]; [congruence | intros; eexists; reflexivity |].
    exists r. split; [assumption|]. split; [congruence|].
    intros j Hj. specialize (P j ltac:(lia)). now injection P. }
  destruct (@zip_with_spec _ _ _ (zip_with (fun x y => Some (f x y))) [] [] [] a b)
    as [d [E [L P]]]; [congruence| |].
  { intros i Hi. destruct (Hrows i Hi) as [r [Er _]]. now exists r. }
  exists d. split; [exact E|]. split.
  - split; [congruence|]. apply Forall_nth. intros i d0 Hi.
    rewrite (nth_indep _ d0 []) by assumption.
    rewrite L in Hi. destruct (Hrows i Hi) as [r [Er [Lr _]]].
    specialize (P i Hi). congruence.
  - intros y x Hy Hx. unfold px.
    destruct (Hrows y ltac:(lia)) as [r [Er [Lr Pr]]].
    specialize (P y ltac:(lia)). rewrite Er in P. injection P as <-.
    now apply Pr.
Qed.

Lemma mapM_spec (f : X -> option Y) (l : list X) :
  (forall x, In x l -> exists y, f x = Some y) ->
  exists r,
    mapM f l = Some r /\ length r = length l /\
    forall i x, nth_error l i = Some x ->
      exists y, f x = Some y /\ nth_error r i = Some y.
Proof.
  induction l as [|a l IH]; intros Hf.
  - exists []. repeat split. intros [|i] x H; discriminate.
  - destruct (Hf a (or_introl eq_refl)) as [b Hb].
    destruct IH as [r [E [L P]]]; [intros x Hx; apply Hf; now right|].
    exists (b :: r). simpl. rewrite Hb, E. repeat split.
    + now rewrite L.
    + intros [|i] x H; simpl in H.
      * injection H as <-. now exists b.
      * now apply P.
Qed.

End ZipFacts.

(** ** Differences against the reference image *)

Lemma fsub_self (fmt : format) (x : float) :
  is_finite x = true -> fsub fmt x x = fzero.
Proof.
  destruct x as [s|s| |s m e]; try discriminate; intros _.
  - now destruct s.
  - unfold fsub, SFsub. rewrite Z.min_id.
    unfold shl_align. rewrite Z.sub_diag. simpl fst.
    rewrite ?Z.sub_diag. reflexivity.
Qed.

Lemma max_error_self (fmt : format) (c : rgb float) :
  finite_pixel c = true -> max_error fmt c c = fzero.
Proof.
  unfold finite_pixel. rewrite !andb_true_iff. intros [[Hr Hg] Hb].
  unfold max_error, channel_error.
  now rewrite !fsub_self by assumption.
Qed.

Lemma of_byte_finite (b : Byte.byte) : is_finite (of_byte b) = true.
Proof. destruct b; reflexivity. Qed.

Lemma get_image_array_finite (decoded : array2 (rgb Byte.byte)) :
  Forall (Forall (fun c => finite_pixel c = true)) (get_image_array decoded).
Proof.
  unfold get_image_array. apply Forall_map, Forall_forall. intros row _.
  apply Forall_map, Forall_forall. intros [r g b] _.
  unfold finite_pixel. simpl. now rewrite !of_byte_finite.
Qed.

Lemma px_finite (h w : nat) (img : array2 (rgb float)) (y x : nat) :
  has_shape h w img ->
  Forall (Forall (fun c => finite_pixel c = true)) img ->
  y < h -> x < w -> finite_pixel (px black img y x) = true.
Proof.
  intros Hs Hf Hy Hx. unfold px.
  pose proof (has_shape_row Hs Hy) as Hw. destruct Hs as [Hl _].
  rewrite Forall_nth in Hf. specialize (Hf y [] ltac:(lia)).
  rewrite Forall_nth in Hf. apply Hf. lia.
Qed.

Lemma Forall_crop {A : Type} (P : A -> Prop) (r0 r1 c0 c1 : nat) (img : array2 A) :
  Forall (Forall P) img -> Forall (Forall P) (crop r0 r1 c0 c1 img).
Proof.
  intros H. unfold crop. apply Forall_map, Forall_slice.
  eapply Forall_impl; [|exact H]. intros row. apply Forall_slice.
Qed.

(** The cells cut out of an array that holds the whole grid. *)
Lemma extract_cells_shape {A : Type} (p rows cols off h w : nat) (img : array2 A) :
  has_shape h w img -> rows * p <= h -> (cols + off) * p <= w ->
  length (extract_cells p rows cols off img) = rows * cols /\
  Forall (has_shape p p) (extract_cells p rows cols off img).
Proof.
  intros Hs Hh Hw. split.
  - unfold extract_cells. rewrite flat_map_concat_map.
    induction rows as [|rows IH]; [reflexivity|].
    rewrite seq_S, map_app, concat_app, length_app, IH by lia.
    simpl. rewrite length_app, length_map, length_seq. simpl. lia.
  - unfold extract_cells. apply Forall_flat_map, Forall_forall.
    intros r Hr. apply in_seq in Hr.
    apply Forall_map, Forall_forall. intros c Hc. apply in_seq in Hc.
    pose proof (@has_shape_crop A h w (r * p) ((r + 1) * p)
                  (p * (c + off)) (p * (c + off + 1)) img Hs
                  ltac:(nia) ltac:(nia)) as Hcs.
    replace ((r + 1) * p - r * p) with p in Hcs by nia.
    replace (p * (c + off + 1) - p * (c + off)) with p in Hcs by nia.
    exact Hcs.
Qed.

Lemma constant_array {A : Type} (d v : A) (h w : nat) (a : array2 A) :
  has_shape h w a ->
  (forall y x, y < h -> x < w -> px d a y x = v) ->
  a = zeros v h w.
Proof.
  intros Ha Hv. apply (@array2_ext A d h w); [assumption | apply has_shape_zeros |].
  intros y x Hy Hx. rewrite Hv by assumption.
  unfold px, zeros.
  rewrite (nth_indep _ [] (repeat v w)) by now rewrite repeat_length.
  rewrite nth_repeat.
  rewrite (nth_indep _ d v) by now rewrite repeat_length.
  now rewrite nth_repeat.
Qed.

Lemma get_max_difference_self (fmt : format) (h w : nat) (img : array2 (rgb float)) :
  has_shape h w img ->
  Forall (Forall (fun c => finite_pixel c = true)) img ->
  get_max_difference fmt img img = Some (zeros fzero h w).
Proof.
  intros Hs Hf. unfold get_max_difference.
  destruct (elementwise_spec (max_error fmt) black black fzero Hs Hs)
    as [d [E [Sd P]]].
  rewrite E. f_equal. apply (@constant_array _ fzero); [assumption|].
  intros y x Hy Hx. rewrite P by assumption.
  apply max_error_self. now apply (px_finite Hs Hf).
Qed.

Lemma differences_spec (fmt : format) (h w : nat)
    (images : list (array2 (rgb float))) (neutral : array2 (rgb float)) :
  Forall (has_shape h w) images -> has_shape h w neutral ->
  exists differences,
    mapM (fun im => get_max_difference fmt im neutral) images = Some differences /\
    length differences = length images /\
    Forall (has_shape h w) differences /\
    forall i im, nth_error images i = Some im ->
      exists d,
        nth_error differences i = Some d /\
        get_max_difference fmt im neutral = Some d /\
        has_shape h w d /\
        forall y x, y < h -> x < w ->
          px fzero d y x = max_error fmt (px black im y x) (px black neutral y x).
Proof.
  intros Hs Hn.
  destruct (@mapM_spec _ _ (fun im => get_max_difference fmt im neutral) images)
    as [r [E [L P]]].
  { intros im Hin. rewrite Forall_forall in Hs.
    destruct (elementwise_spec (max_error fmt) black black fzero (Hs im Hin) Hn)
      as [d [Ed _]].
    now exists d. }
  assert (Q : forall i im, nth_error images i = Some im ->
      exists d,
        nth_error r i = Some d /\
        get_max_difference fmt im neutral = Some d /\
        has_shape h w d /\
        forall y x, y < h -> x < w ->
          px fzero d y x = max_error fmt (px black im y x) (px black neutral y x)).
  { intros i im Him. destruct (P i im Him) as [d [Ed Hd]].
    exists d. split; [assumption|]. split; [assumption|].
    assert (Hin : In im images) by (eapply nth_error_In; eassumption).
    rewrite Forall_forall in Hs.
    destruct (elementwise_spec (max_error fmt) black black fzero (Hs im Hin) Hn)
      as [d' [Ed' [Sd' Pd']]].
    unfold get_max_difference in Ed. rewrite Ed' in Ed. injection Ed as <-.
    now split. }
  exists r. split; [assumption|]. split; [assumption|]. split; [|exact Q].
  apply Forall_forall. intros d Hd.
  apply In_nth_error in Hd. destruct Hd as [i Hi].
  assert (Hlt : i < length images).
  { rewrite <- L. apply nth_error_Some. congruence. }
  destruct (nth_error images i) as [im|] eqn:Him;
    [|apply nth_error_None in Him; lia].
  destruct (Q i im Him) as [d' [Hd' [_ [Sd' _]]]]. congruence.
Qed.

(** ** Exact arithmetic on integers *)

Local Open Scope Z_scope.

Lemma digits2_pos_size (p : positive) : digits2_pos p = Pos.size p.
Proof. induction p; simpl; congruence. Qed.

Lemma Zdigits_log2 (p : positive) : Zpos (digits2_pos p) = Z.log2 (Zpos p) + 1.
Proof. rewrite digits2_pos_size. destruct p; simpl; lia. Qed.

Lemma digits_le_iff (p : positive) (n : Z) :
  0 <= n -> (Zpos (digits2_pos p) <= n <-> Zpos p < 2 ^ n).
Proof.
  intros Hn. rewrite Zdigits_log2.
  rewrite (Z.log2_lt_pow2 (Zpos p) n) by lia. lia.
Qed.

Lemma Zpos_iter_xO (m d : positive) : Zpos (Pos.iter xO m d) = Zpos m * 2 ^ Zpos d.
Proof.
  induction d as [|d IH] using Pos.peano_ind.
  - simpl. lia.
  - rewrite Pos.iter_succ, Pos2Z.inj_xO, IH, Pos2Z.inj_succ, Z.pow_succ_r by lia. lia.
Qed.

Lemma Zpos_pshl (m : positive) (k : Z) : 0 <= k -> Zpos (pshl m k) = Zpos m * 2 ^ k.
Proof.
  intros Hk. destruct k as [|d|d]; simpl pshl; [simpl; lia | apply Zpos_iter_xO | lia].
Qed.

Lemma digits_iter_xO (m d : positive) :
  Zpos (digits2_pos (Pos.iter xO m d)) = Zpos (digits2_pos m) + Zpos d.
Proof.
  induction d as [|d IH] using Pos.peano_ind.
  - simpl. lia.
  - rewrite Pos.iter_succ. simpl digits2_pos. rewrite Pos2Z.inj_succ, IH. lia.
Qed.

Lemma digits_pshl (m : positive) (k : Z) :
  0 <= k -> Zpos (digits2_pos (pshl m k)) = Zpos (digits2_pos m) + k.
Proof.
  intros Hk. destruct k as [|d|d]; simpl pshl;
    [lia | apply digits_iter_xO | lia].
Qed.

Lemma pshl_pshl (m : positive) (a b : Z) :
  0 <= a -> 0 <= b -> pshl (pshl m a) b = pshl m (a + b).
Proof.
  intros Ha Hb. apply Pos2Z.inj. rewrite !Zpos_pshl by lia.
  rewrite Z.pow_add_r by lia. lia.
Qed.

Lemma iter_pos_nat {A : Type} (f : A -> A) (p : positive) (x : A) :
  iter_pos f p x = Nat.iter (Pos.to_nat p) f x.
Proof.
  revert x. induction p as [p IH|p IH|]; intros x.
  - cbn [iter_pos]. rewrite !IH, Pos2Nat.inj_xI.
    rewrite Nat.iter_succ_r.
    replace (2 * Pos.to_nat p)%nat with (Pos.to_nat p + Pos.to_nat p)%nat by lia.
    now rewrite Nat.iter_add.
  - cbn [iter_pos]. rewrite !IH, Pos2Nat.inj_xO.
    replace (2 * Pos.to_nat p)%nat with (Pos.to_nat p + Pos.to_nat p)%nat by lia.
    now rewrite Nat.iter_add.
  - reflexivity.
Qed.

Lemma shr_exact (q d : positive) :
  iter_pos shr_1 d (Build_shr_record (Zpos (Pos.iter xO q d)) false false) =
  Build_shr_record (Zpos q) false false.
Proof.
  rewrite iter_pos_nat, Pos2Nat.inj_iter.
  generalize (Pos.to_nat d). intros n. induction n as [|n IH]; [reflexivity|].
  rewrite Nat.iter_succ_r. simpl nat_rect. simpl shr_1. exact IH.
Qed.

Section IntExact.
Variables prec emax : Z.
Hypothesis Hprec : 0 < prec.
Hypothesis Hemax : prec < emax.

Lemma fexp_normal (d : Z) :
  3 - emax <= d -> fexp prec emax d = d - prec.
Proof. intros H. unfold fexp, emin. lia. Qed.

Lemma binary_round_aux_canonical (s : bool) (mz : positive) (ez : Z) :
  Zpos (digits2_pos mz) = prec -> 3 - emax - prec <= ez -> ez <= emax - prec ->
  binary_round_aux prec emax s (Zpos mz) ez loc_Exact = S754_finite s mz ez.
Proof.
  intros Hd Hlo Hhi. unfold binary_round_aux, shr_fexp.
  cbn [Zdigits2]. rewrite Hd.
  rewrite (@fexp_normal (prec + ez)) by lia.
  replace (prec + ez - prec - ez) with 0 by lia.
  cbn [shr shr_record_of_loc round_nearest_even shr_m shr_r shr_s
       loc_of_shr_record Zdigits2].
  rewrite Hd.
  rewrite (@fexp_normal (prec + ez)) by lia.
  replace (prec + ez - prec - ez) with 0 by lia.
  cbn [shr shr_m].
  now replace (ez <=? emax - prec) with true by (symmetry; apply Z.leb_le; lia).
Qed.

Lemma binary_round_aux_shift (s : bool) (q n : positive) (ez : Z) :
  Zpos (digits2_pos q) = prec ->
  3 - emax - prec <= ez + Zpos n -> ez + Zpos n <= emax - prec ->
  binary_round_aux prec emax s (Zpos (Pos.iter xO q n)) ez loc_Exact =
  S754_finite s q (ez + Zpos n).
Proof.
  intros Hd Hlo Hhi. unfold binary_round_aux, shr_fexp.
  cbn [Zdigits2]. rewrite digits_iter_xO, Hd.
  rewrite (@fexp_normal (prec + Zpos n + ez)) by lia.
  replace (prec + Zpos n + ez - prec - ez) with (Zpos n) by lia.
  cbn [shr shr_record_of_loc]. rewrite shr_exact.
  cbn [round_nearest_even shr_m shr_r shr_s loc_of_shr_record Zdigits2
       shr_record_of_loc].
  rewrite Hd.
  rewrite (@fexp_normal (prec + (ez + Zpos n))) by lia.
  replace (prec + (ez + Zpos n) - prec - (ez + Zpos n)) with 0 by lia.
  cbn [shr shr_m].
  now replace (ez + Zpos n <=? emax - prec) with true by (symmetry; apply Z.leb_le; lia).
Qed.

(** A mantissa of at most [prec] bits, shifted left by [k] bits at exponent
    [-k], rounds to the canonical form of the integer. *)
Lemma binary_round_int (s : bool) (m : positive) (k : Z) :
  0 <= k -> Zpos (digits2_pos m) <= prec ->
  binary_round prec emax s (pshl m k) (- k) =
  S754_finite s (pshl m (prec - Zpos (digits2_pos m))) (Zpos (digits2_pos m) - prec).
Proof.
  intros Hk Hd. unfold binary_round.
  rewrite digits_pshl by assumption.
  pose proof (Pos2Z.is_pos (digits2_pos m)) as Hpos.
  rewrite (@fexp_normal (Zpos (digits2_pos m) + k + - k)) by lia.
  replace (Zpos (digits2_pos m) + k + - k - prec) with (Zpos (digits2_pos m) - prec) by lia.
  set (dm := Zpos (digits2_pos m)) in *.
  unfold shl_align.
  destruct (dm - prec - - k) as [|n|d] eqn:En.
  - (* no shift at all: already canonical *)
    assert (Hk0 : k = prec - dm) by lia.
    replace (- k) with (dm - prec) by lia. rewrite Hk0.
    apply binary_round_aux_canonical; [|lia|lia].
    rewrite digits_pshl by lia. fold dm. lia.
  - (* the mantissa is longer than the precision: exact right shift *)
    assert (Hkn : k = (prec - dm) + Zpos n) by lia.
    rewrite Hkn. rewrite <- pshl_pshl by lia. simpl (pshl _ (Zpos n)).
    rewrite binary_round_aux_shift.
    + f_equal. lia.
    + rewrite digits_pshl by lia. fold dm. lia.
    + lia.
    + lia.
  - (* the mantissa is shorter: left shift first *)
    assert (Hd' : Zpos d = (prec - dm) - k) by lia.
    change (Pos.iter xO (pshl m k) d) with (pshl (pshl m k) (Zpos d)).
    rewrite pshl_pshl by lia.
    replace (k + Zpos d) with (prec - dm) by lia.
    apply binary_round_aux_canonical; [|lia|lia].
    rewrite digits_pshl by lia. fold dm. lia.
Qed.


Lemma normalize_scaled (z K : Z) :
  0 <= K -> Z.abs z < 2 ^ prec ->
  binary_normalize prec emax (z * 2 ^ K) (- K) false = canon prec z.
Proof.
  intros HK Hz. destruct z as [|p|p].
  - reflexivity.
  - rewrite <- Zpos_pshl by assumption. cbn [binary_normalize canon].
    apply binary_round_int; [assumption|].
    apply digits_le_iff; [lia|]. exact Hz.
  - replace (Zneg p * 2 ^ K) with (- (Zpos p * 2 ^ K)) by lia.
    rewrite <- Zpos_pshl by assumption. cbn [Z.opp binary_normalize canon].
    apply binary_round_int; [assumption|].
    apply digits_le_iff; [lia|]. exact Hz.
Qed.

Lemma binary_normalize_canon (z : Z) :
  Z.abs z < 2 ^ prec -> binary_normalize prec emax z 0 false = canon prec z.
Proof.
  intros Hz. rewrite <- (@normalize_scaled z 0) by (assumption || lia).
  simpl. now rewrite Z.mul_1_r.
Qed.

Lemma shl_align_fst (m : positive) (e ez : Z) :
  ez <= e -> fst (shl_align m e ez) = pshl m (e - ez).
Proof.
  intros H. unfold shl_align.
  destruct (ez - e) as [|d|d] eqn:E; simpl fst.
  - now replace (e - ez) with 0 by lia.
  - lia.
  - now replace (e - ez) with (Zpos d) by lia.
Qed.

Lemma canon_mantissa (s : bool) (m : positive) (K : Z) :
  Zpos (digits2_pos m) <= prec ->
  Zpos (digits2_pos m) - prec >= - K ->
  cond_Zopp s
    (Zpos (fst (shl_align (pshl m (prec - Zpos (digits2_pos m)))
                          (Zpos (digits2_pos m) - prec) (- K)))) =
  cond_Zopp s (Zpos m) * 2 ^ K.
Proof.
  intros Hd HK. rewrite shl_align_fst by lia.
  rewrite (@pshl_pshl m (prec - Zpos (digits2_pos m))
             (Zpos (digits2_pos m) - prec - - K)) by lia.
  rewrite Zpos_pshl by lia.
  replace (prec - Zpos (digits2_pos m) + (Zpos (digits2_pos m) - prec - - K)) with K by lia.
  destruct s; unfold cond_Zopp; [now rewrite Z.mul_opp_l | reflexivity].
Qed.

Lemma SFadd_canon (x y : Z) :
  Z.abs x < 2 ^ prec -> Z.abs y < 2 ^ prec -> Z.abs (x + y) < 2 ^ prec ->
  SFadd prec emax (canon prec x) (canon prec y) = canon prec (x + y).
Proof.
  intros Hx Hy Hxy.
  assert (Hdig : forall p, Z.abs (Zpos p) < 2 ^ prec -> Zpos (digits2_pos p) <= prec).
  { intros p Hp. apply digits_le_iff; [lia | exact Hp]. }
  destruct x as [|p|p], y as [|q|q]; try reflexivity;
    try (now rewrite Z.add_0_r).
  all: cbn [canon SFadd];
    set (dp := Zpos (digits2_pos p)); set (dq := Zpos (digits2_pos q));
    pose proof (Hdig p Hx) as Hp; pose proof (Hdig q Hy) as Hq;
    fold dp in Hp; fold dq in Hq;
    set (K := - Z.min (dp - prec) (dq - prec));
    replace (Z.min (dp - prec) (dq - prec)) with (- K) by (unfold K; lia);
    unfold dp, dq;
    rewrite !canon_mantissa by (fold dp dq; unfold K; lia);
    rewrite <- Z.mul_add_distr_r;
    apply normalize_scaled; [unfold K; lia | exact Hxy].
Qed.

Lemma SFsub_canon (x y : Z) :
  Z.abs x < 2 ^ prec -> Z.abs y < 2 ^ prec -> Z.abs (x - y) < 2 ^ prec ->
  SFsub prec emax (canon prec x) (canon prec y) = canon prec (x - y).
Proof.
  intros Hx Hy Hxy.
  assert (Hdig : forall p, Z.abs (Zpos p) < 2 ^ prec -> Zpos (digits2_pos p) <= prec).
  { intros p Hp. apply digits_le_iff; [lia | exact Hp]. }
  destruct x as [|p|p], y as [|q|q]; try reflexivity.
  all: cbn [canon SFsub];
    set (dp := Zpos (digits2_pos p)); set (dq := Zpos (digits2_pos q));
    pose proof (Hdig p Hx) as Hp; pose proof (Hdig q Hy) as Hq;
    fold dp in Hp; fold dq in Hq;
    set (K := - Z.min (dp - prec) (dq - prec));
    replace (Z.min (dp - prec) (dq - prec)) with (- K) by (unfold K; lia);
    unfold dp, dq;
    rewrite !canon_mantissa by (fold dp dq; unfold K; lia);
    rewrite <- Z.mul_sub_distr_r;
    apply normalize_scaled; [unfold K; lia | exact Hxy].
Qed.

End IntExact.

Local Close Scope Z_scope.

(** ** Integers of a format: order, integer part, conversion *)

Local Open Scope Z_scope.

Lemma sf_eqb_eq (x y : float) : sf_eqb x y = true -> x = y.
Proof.
  destruct x as [s|s| |s m e], y as [s'|s'| |s' m' e']; simpl; try discriminate.
  - intros H. apply Bool.eqb_prop in H. now subst.
  - intros H. apply Bool.eqb_prop in H. now subst.
  - reflexivity.
  - rewrite !andb_true_iff. intros [[H1 H2] H3].
    apply Bool.eqb_prop in H1. apply Pos.eqb_eq in H2. apply Z.eqb_eq in H3.
    now subst.
Qed.

Lemma digits_mono (p q : positive) :
  Zpos p <= Zpos q -> Zpos (digits2_pos p) <= Zpos (digits2_pos q).
Proof.
  intros H. rewrite !Zdigits_log2.
  pose proof (Z.log2_le_mono (Zpos p) (Zpos q) H). lia.
Qed.

Section IntOrder.
Variables prec emax : Z.
Hypothesis Hprec : 0 < prec.
Hypothesis Hemax : prec < emax.

Lemma of_Z_canon (z : Z) :
  Z.abs z < 2 ^ prec -> binary_normalize prec emax z 0 false = canon prec z.
Proof. now apply binary_normalize_canon. Qed.

Lemma SFcompare_canon (x y : Z) :
  0 <= x < 2 ^ prec -> 0 <= y < 2 ^ prec ->
  SFcompare (canon prec x) (canon prec y) = Some (x ?= y).
Proof.
  intros Hx Hy.
  destruct x as [|p|p], y as [|q|q]; try reflexivity; try lia.
  cbn [canon SFcompare].
  assert (Hp : Zpos (digits2_pos p) <= prec) by (apply digits_le_iff; lia).
  assert (Hq : Zpos (digits2_pos q) <= prec) by (apply digits_le_iff; lia).
  f_equal.
  destruct (Z.compare_spec (Zpos (digits2_pos p) - prec) (Zpos (digits2_pos q) - prec))
    as [E|E|E].
  - assert (E' : Zpos (digits2_pos p) = Zpos (digits2_pos q)) by lia.
    rewrite E'.
    change (Pos.compare_cont Eq ?a ?b) with (Zpos a ?= Zpos b).
    rewrite !Zpos_pshl by lia.
    symmetry. apply Zmult_compare_compat_r.
    apply Z.lt_gt, Z.pow_pos_nonneg; lia.
  - symmetry. apply Z.compare_lt_iff.
    destruct (Z.lt_ge_cases (Zpos p) (Zpos q)) as [H|H]; [assumption|].
    apply digits_mono in H. lia.
  - symmetry. apply Z.compare_gt_iff.
    destruct (Z.lt_ge_cases (Zpos q) (Zpos p)) as [H|H]; [assumption|].
    apply digits_mono in H. lia.
Qed.

Lemma fge_canon (x y : Z) :
  0 <= x < 2 ^ prec -> 0 <= y < 2 ^ prec ->
  fge (canon prec x) (canon prec y) = (y <=? x).
Proof.
  intros Hx Hy. unfold fge, SFleb. rewrite SFcompare_canon by assumption.
  unfold Z.leb. now destruct (y ?= x).
Qed.

Lemma fgt_canon (x y : Z) :
  0 <= x < 2 ^ prec -> 0 <= y < 2 ^ prec ->
  fgt (canon prec x) (canon prec y) = (y <? x).
Proof.
  intros Hx Hy. unfold fgt, SFltb. rewrite SFcompare_canon by assumption.
  unfold Z.ltb. now destruct (y ?= x).
Qed.

Lemma is_nan_canon (x : Z) : is_nan (canon prec x) = false.
Proof. now destruct x. Qed.

Lemma np_maximum_canon (x y : Z) :
  0 <= x < 2 ^ prec -> 0 <= y < 2 ^ prec ->
  np_maximum (canon prec x) (canon prec y) = canon prec (Z.max x y).
Proof.
  intros Hx Hy. unfold np_maximum.
  rewrite fge_canon, is_nan_canon, orb_false_r by assumption.
  destruct (Z.leb_spec y x).
  - now rewrite Z.max_l by lia.
  - now rewrite Z.max_r by lia.
Qed.

Lemma fabs_canon (x : Z) : fabs (canon prec x) = canon prec (Z.abs x).
Proof. now destruct x. Qed.

Lemma trunc_canon (x : Z) :
  Z.abs x < 2 ^ prec -> trunc (canon prec x) = x.
Proof.
  intros Hx. destruct x as [|p|p]; [reflexivity| |].
  all: assert (Hp : Zpos (digits2_pos p) <= prec) by (apply digits_le_iff; lia).
  all: cbn [canon trunc].
  all: destruct (Zpos (digits2_pos p) - prec) as [|k|k] eqn:E; try lia.
  all: try (replace (prec - Zpos (digits2_pos p)) with 0 by lia; reflexivity).
  all: rewrite Z.shiftr_div_pow2, Zpos_pshl by lia.
  all: replace (prec - Zpos (digits2_pos p)) with (Zpos k) by lia.
  all: rewrite Z.div_mul by (apply Z.pow_nonzero; lia).
  all: reflexivity.
Qed.

End IntOrder.

(** Conversion of an integer of a narrower format to a wider one. *)
Lemma astype_canon (prec emax prec' : Z) (x : Z) :
  0 < prec -> prec < emax -> 0 < prec' -> prec' <= prec ->
  Z.abs x < 2 ^ prec' ->
  SFldexp prec emax (canon prec' x) 0 = canon prec x.
Proof.
  intros Hprec Hemax Hprec' Hle Hx.
  destruct x as [|p|p]; [reflexivity| |].
  all: assert (Hp : Zpos (digits2_pos p) <= prec') by (apply digits_le_iff; lia).
  all: cbn [canon SFldexp].
  all: replace (Zpos (digits2_pos p) - prec' + 0)
         with (- (prec' - Zpos (digits2_pos p))) by lia.
  all: apply binary_round_int; lia.
Qed.

Local Close Scope Z_scope.

(** ** Scaling *)

Lemma flat_map_singleton {X : Type} (l : list X) : flat_map (fun x => [x]) l = l.
Proof. induction l as [|x l IH]; [reflexivity|]. simpl. now rewrite IH. Qed.

Lemma samples_array2 (a : array2 float) : samples a = concat a.
Proof.
  simpl. rewrite flat_map_concat_map. f_equal.
  induction a as [|row a IH]; [reflexivity|].
  simpl. now rewrite flat_map_singleton, IH.
Qed.

Lemma concat_repeat {X : Type} (v : X) (h w : nat) :
  concat (repeat (repeat v w) h) = repeat v (h * w).
Proof.
  induction h as [|h IH]; [reflexivity|].
  simpl. now rewrite IH, repeat_app.
Qed.

Lemma fold_np_maximum_repeat (v : float) (n : nat) :
  np_maximum v v = v -> fold_left np_maximum (repeat v n) v = v.
Proof.
  intros Hv. induction n as [|n IH]; [reflexivity|].
  simpl. now rewrite Hv.
Qed.

Lemma amax_repeat (v : float) (n : nat) :
  0 < n -> np_maximum v v = v -> amax (repeat v n) = Some v.
Proof.
  intros Hn Hv. destruct n as [|n]; [lia|].
  simpl. now rewrite fold_np_maximum_repeat.
Qed.

Lemma amax_zeros (v : float) (h w : nat) :
  0 < h -> 0 < w -> np_maximum v v = v ->
  amax (samples (zeros v h w)) = Some v.
Proof.
  intros Hh Hw Hv. rewrite samples_array2. unfold zeros.
  rewrite concat_repeat. apply amax_repeat; [nia | assumption].
Qed.

Lemma amap_array2 (f : float -> float) (a : array2 float) :
  amap f a = map (map f) a.
Proof. reflexivity. Qed.

Lemma fdiv_zero_max (fmt : format) (x m maximum : float) :
  is_zero x = true -> is_zero m = true ->
  fdiv fmt x (fdiv fmt m maximum) = S754_nan.
Proof.
  destruct x as [sx|sx| |sx mx ex]; try discriminate.
  destruct m as [sm|sm| |sm mm em]; try discriminate.
  intros _ _. now destruct maximum as [s|s| |s m e].
Qed.

Lemma normalize_image_fails {T : Type} `{Ndarray T} (fmt : format)
    (img : T) (maximum : float) :
  normalize_image fmt img maximum = None <-> samples img = [].
Proof.
  unfold normalize_image, amax.
  destruct (samples img) as [|x r]; split; intros E; try reflexivity; discriminate.
Qed.

(** The pass over a directory without files. *)
Lemma overall_difference_nil :
  overall_difference [] = Some (zeros S754_nan 672 672).
Proof.
  unfold overall_difference, accumulate_files. cbn [fold_left].
  unfold normalize_image, accumulator_init. cbn [res allover_max].
  rewrite amax_zeros by (reflexivity || lia).
  now rewrite amap_array2, map_zeros.
Qed.

(** C7, as the code has it:  Scaling an array whose maximum is exactly zero
    raises no error: the divisor [img.max()/maximum] is a zero or NaN, the
    division is the IEEE one, and every sample that was zero becomes NaN.
    The operation fails on an array without samples only; the difference
    pass over a directory without files ends with an all-NaN canvas. *)
Theorem zero_maximum_scales_to_nan (T : Type) (arr : Ndarray T) (fmt : format)
    (img : T) (maximum m : float) :
  amax (samples img) = Some m -> is_zero m = true ->
  (exists scaled,
     normalize_image fmt img maximum = Some scaled /\
     samples scaled = map (fun x => fdiv fmt x (fdiv fmt m maximum)) (samples img)) /\
  (forall x, is_zero x = true -> fdiv fmt x (fdiv fmt m maximum) = S754_nan) /\
  (forall (img' : T) (maximum' : float),
     normalize_image fmt img' maximum' = None <-> samples img' = []) /\
  overall_difference [] = Some (zeros S754_nan 672 672).
Proof.
  intros Hm Hz. split; [|split; [|split]].
  - unfold normalize_image. rewrite Hm. eexists. split; [reflexivity|].
    apply samples_amap.
  - intros x Hx. now apply fdiv_zero_max.
  - intros img' maximum'. apply normalize_image_fails.
  - exact overall_difference_nil.
Qed.

Lemma zero_maximum_scales_to_nan_witness :
  amax (samples (zeros fzero 672 672)) = Some fzero /\ is_zero fzero = true /\
  (exists scaled,
     normalize_image binary64 (zeros fzero 672 672) fzero = Some scaled /\
     samples scaled =
       map (fun x => fdiv binary64 x (fdiv binary64 fzero fzero))
           (samples (zeros fzero 672 672))).
Proof.
  assert (H1 : amax (samples (zeros fzero 672 672)) = Some fzero)
    by (apply amax_zeros; (reflexivity || lia)).
  assert (H2 : is_zero fzero = true) by reflexivity.
  split; [exact H1|]. split; [exact H2|].
  exact (proj1 (zero_maximum_scales_to_nan _ binary64 (zeros fzero 672 672)
                  fzero H1 H2)).
Defined.

(** C7, as stated, fails: the all-zero sum canvas of the difference pass,
    scaled against the maximum 0, is returned (as NaN everywhere), no error
    is raised. *)
Lemma zero_maximum_no_error :
  amax (samples (zeros fzero 672 672)) = Some fzero /\
  normalize_image binary64 (zeros fzero 672 672) fzero =
    Some (zeros S754_nan 672 672) /\
  normalize_image binary64 (zeros fzero 672 672) fzero <> None.
Proof.
  assert (H1 : amax (samples (zeros fzero 672 672)) = Some fzero)
    by (apply amax_zeros; (reflexivity || lia)).
  assert (H2 : normalize_image binary64 (zeros fzero 672 672) fzero =
               Some (zeros S754_nan 672 672)).
  { unfold normalize_image. rewrite H1. now rewrite amap_array2, map_zeros. }
  split; [exact H1|]. split; [exact H2|]. rewrite H2. discriminate.
Qed.

(** ** The network input *)

(** The network input of every level [x] up to every maximum [m] from 1 to
    255 is in the unit range, and is 1 at the maximum: a finite check. *)
Lemma network_input_check :
  forallb (fun m =>
    forallb (fun x =>
      let g := network_input (level32 m) (level32 x) in
      unit_range g && (negb (x =? m) || sf_eqb g (of_Z binary32 1)))
      (seq 0 (S m)))
    (seq 1 255) = true.
Proof. vm_compute. reflexivity. Qed.

Local Open Scope Z_scope.

Lemma fold_left_Zmax (r : list Z) (x : Z) :
  fold_left Z.max r x = fold_right Z.max x r.
Proof.
  apply fold_symmetric; intros; lia.
Qed.

Lemma fold_right_Zmax_init (r : list Z) (x : Z) :
  0 <= x -> fold_right Z.max x r = Z.max x (fold_right Z.max 0 r).
Proof. intros Hx. induction r as [|b r IH]; simpl; lia. Qed.

Lemma Zmaximum_ge (l : list Z) (z : Z) : In z l -> z <= Zmaximum l.
Proof.
  unfold Zmaximum. induction l as [|a l IH]; intros H; [contradiction|].
  simpl. destruct H as [->|H]; [lia|]. specialize (IH H). lia.
Qed.

Lemma Zmaximum_nonneg (l : list Z) : 0 <= Zmaximum l.
Proof. unfold Zmaximum. induction l; simpl; lia. Qed.

Lemma Zmaximum_In (l : list Z) :
  l <> [] -> Forall (fun z => 0 <= z) l -> In (Zmaximum l) l.
Proof.
  unfold Zmaximum. induction l as [|a l IH]; intros Hne Hl; [congruence|].
  inversion Hl as [|? ? Ha Hl']; subst. simpl.
  destruct l as [|b l].
  - left. simpl. lia.
  - destruct (Z.max_spec a (fold_right Z.max 0 (b :: l))) as [[_ E]|[_ E]];
      rewrite E; [right; apply IH; [discriminate | assumption] | now left].
Qed.

Lemma Zmaximum_bound (l : list Z) (b : Z) :
  0 <= b -> Forall (fun z => 0 <= z <= b) l -> 0 <= Zmaximum l <= b.
Proof.
  intros Hb H. unfold Zmaximum. induction H as [|z l Hz _ IH]; simpl; lia.
Qed.

Section AmaxCanon.
Variables prec emax : Z.
Hypothesis Hprec : 0 < prec.
Hypothesis Hemax : prec < emax.

Lemma fold_np_maximum_canon (r : list Z) (x : Z) :
  0 <= x < 2 ^ prec -> Forall (fun z => 0 <= z < 2 ^ prec) r ->
  fold_left np_maximum (map (canon prec) r) (canon prec x) =
  canon prec (fold_left Z.max r x).
Proof.
  revert x. induction r as [|a r IH]; intros x Hx Hr; [reflexivity|].
  inversion Hr as [|? ? Ha Hr']; subst. simpl.
  rewrite np_maximum_canon by assumption.
  apply IH; [lia | assumption].
Qed.

Lemma amax_canon (l : list Z) :
  l <> [] -> Forall (fun z => 0 <= z < 2 ^ prec) l ->
  amax (map (canon prec) l) = Some (canon prec (Zmaximum l)).
Proof.
  intros Hne Hl. destruct l as [|x r]; [congruence|].
  inversion Hl as [|? ? Hx Hr]; subst.
  simpl amax. rewrite fold_np_maximum_canon by assumption.
  do 2 f_equal. rewrite fold_left_Zmax. unfold Zmaximum. simpl.
  apply fold_right_Zmax_init. lia.
Qed.

End AmaxCanon.

Local Close Scope Z_scope.

Local Open Scope Z_scope.

Lemma byte_level_bounded (b : Byte.byte) : 0 <= Z.of_N (Byte.to_N b) <= 255.
Proof. pose proof (Byte.to_N_bounded b). lia. Qed.

Lemma of_Z_binary32 (z : Z) : Z.abs z < 2 ^ 24 -> of_Z binary32 z = canon 24 z.
Proof. intros H. unfold of_Z. cbn [prec emax binary32 binary64]. apply of_Z_canon; [lia | lia | exact H]. Qed.

Lemma of_Z_binary64 (z : Z) : Z.abs z < 2 ^ 53 -> of_Z binary64 z = canon 53 z.
Proof. intros H. unfold of_Z. cbn [prec emax binary32 binary64]. apply of_Z_canon; [lia | lia | exact H]. Qed.

Lemma of_byte_canon (b : Byte.byte) : of_byte b = canon 24 (Z.of_N (Byte.to_N b)).
Proof.
  unfold of_byte. apply of_Z_binary32.
  pose proof (byte_level_bounded b). change (2 ^ 24) with 16777216. lia.
Qed.

Lemma samples_rgb_map {S : Type} (f : S -> float) (g : S -> Z) (a : array2 (rgb S)) :
  (forall b, f b = canon 24 (g b)) ->
  samples (map (map (rgb_map f)) a) =
  map (canon 24)
      (flat_map (flat_map (fun c => [g (red c); g (green c); g (blue c)])) a).
Proof.
  intros Hf. cbn [samples ndarray_list].
  induction a as [|row a IH]; [reflexivity|].
  cbn [map flat_map]. rewrite map_app, IH. f_equal.
  clear IH. induction row as [|c row IH]; [reflexivity|].
  cbn [map flat_map]. rewrite IH.
  destruct c as [r gr b]. cbn [rgb_map red green blue samples ndarray_rgb app map].
  now rewrite !Hf.
Qed.

Lemma samples_get_image_array (decoded : array2 (rgb Byte.byte)) :
  samples (get_image_array decoded) = map (canon 24) (levels_of decoded).
Proof.
  unfold get_image_array, levels_of.
  apply (samples_rgb_map of_byte (fun b => Z.of_N (Byte.to_N b))).
  exact of_byte_canon.
Qed.

Lemma levels_of_bounded (decoded : array2 (rgb Byte.byte)) :
  Forall (fun z => 0 <= z <= 255) (levels_of decoded).
Proof.
  unfold levels_of. apply Forall_flat_map, Forall_forall. intros row _.
  apply Forall_flat_map, Forall_forall. intros c _.
  repeat constructor; apply byte_level_bounded.
Qed.

Lemma level32_canon (n : nat) :
  (n <= 255)%nat -> level32 n = canon 24 (Z.of_nat n).
Proof.
  intros H. unfold level32. apply of_Z_binary32.
  change (2 ^ 24) with 16777216. lia.
Qed.

Lemma network_input_levels (M X : Z) :
  1 <= M <= 255 -> 0 <= X <= M ->
  unit_range (network_input (canon 24 M) (canon 24 X)) = true /\
  (X = M -> network_input (canon 24 M) (canon 24 X) = of_Z binary32 1).
Proof.
  intros HM HX.
  pose proof network_input_check as C.
  rewrite forallb_forall in C.
  specialize (C (Z.to_nat M) ltac:(apply in_seq; lia)).
  rewrite forallb_forall in C.
  specialize (C (Z.to_nat X) ltac:(apply in_seq; lia)).
  cbv zeta in C.
  rewrite !level32_canon, !Z2Nat.id in C by lia.
  apply andb_true_iff in C. destruct C as [C1 C2].
  split; [exact C1|].
  intros E. apply orb_true_iff in C2. destruct C2 as [C2|C2].
  - apply negb_true_iff, Nat.eqb_neq in C2. subst X. contradiction.
  - now apply sf_eqb_eq.
Qed.

Local Close Scope Z_scope.

Lemma unit_range_not_nan (g : float) : unit_range g = true -> is_nan g = false.
Proof.
  unfold unit_range. rewrite !andb_true_iff. intros [[H _] _].
  now destruct g.
Qed.

Lemma fold_np_maximum_unit (r : list float) (acc : float) :
  unit_range acc = true -> Forall (fun g => unit_range g = true) r ->
  acc = of_Z binary32 1 \/ In (of_Z binary32 1) r ->
  fold_left np_maximum r acc = of_Z binary32 1.
Proof.
  revert acc. induction r as [|b r IH]; intros acc Ha Hr Hone.
  - destruct Hone as [H|[]]. exact H.
  - inversion Hr as [|? ? Hb Hr']; subst. simpl.
    assert (Hm : np_maximum acc b = acc \/ np_maximum acc b = b)
      by (unfold np_maximum; destruct (fge acc b || is_nan acc); auto).
    apply IH; [destruct Hm as [-> | ->]; assumption | assumption |].
    destruct Hone as [-> | [Hb1 | Hin]]; [left | subst b | now right].
    + unfold np_maximum.
      unfold unit_range in Hb. rewrite !andb_true_iff in Hb.
      destruct Hb as [[Hb _] _]. now rewrite Hb.
    + left. unfold np_maximum.
      pose proof (unit_range_not_nan _ Ha) as Hn. rewrite Hn, orb_false_r.
      unfold unit_range in Ha. rewrite !andb_true_iff, orb_true_iff in Ha.
      destruct Ha as [_ [He | Hlt]].
      * apply sf_eqb_eq in He. rewrite He.
        now destruct (fge (of_Z binary32 1) (of_Z binary32 1)).
      * apply negb_true_iff in Hlt. now rewrite Hlt.
Qed.

Lemma amax_unit_range (l : list float) :
  Forall (fun g => unit_range g = true) l -> In (of_Z binary32 1) l ->
  amax l = Some (of_Z binary32 1).
Proof.
  intros Hl Hin. destruct l as [|x r]; [contradiction|].
  inversion Hl as [|? ? Hx Hr]; subst. simpl. f_equal.
  apply fold_np_maximum_unit; [assumption | assumption |].
  destruct Hin as [E | H]; [now left | now right].
Qed.

Lemma amap_amap_image (f g : float -> float) (a : array2 (rgb float)) :
  amap g (amap f a) = amap (fun x => g (f x)) a.
Proof.
  simpl. rewrite map_map. apply map_ext. intros row.
  rewrite map_map. apply map_ext. now intros [r gr b].
Qed.

Lemma load_image_as_network_input_eq (decoded : array2 (rgb Byte.byte)) (m : float) :
  amax (samples (get_image_array decoded)) = Some m ->
  load_image_as_network_input decoded =
    Some (amap (network_input m) (get_image_array decoded)).
Proof.
  intros Hm. unfold load_image_as_network_input, normalize_image.
  rewrite Hm. now rewrite amap_amap_image.
Qed.

Local Open Scope Z_scope.

Lemma decoded_maximum (decoded : array2 (rgb Byte.byte)) (m : float) :
  amax (samples (get_image_array decoded)) = Some m ->
  levels_of decoded <> [] /\
  m = canon 24 (Zmaximum (levels_of decoded)) /\
  0 <= Zmaximum (levels_of decoded) <= 255 /\
  In (Zmaximum (levels_of decoded)) (levels_of decoded).
Proof.
  intros Hm. rewrite samples_get_image_array in Hm.
  pose proof (levels_of_bounded decoded) as Hb.
  assert (Hne : levels_of decoded <> []).
  { intros E. rewrite E in Hm. discriminate. }
  assert (Hb' : Forall (fun z => 0 <= z < 2 ^ 24) (levels_of decoded)).
  { eapply Forall_impl; [|exact Hb]. intros z Hz. cbv beta in Hz.
    change (2 ^ 24) with 16777216. lia. }
  rewrite (@amax_canon 24) in Hm by (assumption || lia).
  injection Hm as <-.
  split; [assumption|]. split; [reflexivity|].
  split; [apply Zmaximum_bound; [lia | assumption]|].
  apply Zmaximum_In; [assumption|].
  eapply Forall_impl; [|exact Hb]. intros z Hz. cbv beta in Hz. lia.
Qed.

Lemma network_input_samples (decoded : array2 (rgb Byte.byte)) (m : float) :
  amax (samples (get_image_array decoded)) = Some m -> fgt m fzero = true ->
  Forall (fun g => unit_range g = true)
    (samples (amap (network_input m) (get_image_array decoded))) /\
  In (of_Z binary32 1)
    (samples (amap (network_input m) (get_image_array decoded))).
Proof.
  intros Hm Hpos.
  destruct (decoded_maximum decoded Hm) as [Hne [-> [HM Hin]]].
  set (M := Zmaximum (levels_of decoded)) in *.
  assert (HM1 : 1 <= M).
  { change fzero with (canon 24 0) in Hpos.
    rewrite (@fgt_canon 24) in Hpos by (change (2 ^ 24) with 16777216; lia).
    apply Z.ltb_lt in Hpos. lia. }
  rewrite samples_amap, samples_get_image_array. split.
  - apply Forall_map, Forall_map, Forall_forall. intros z Hz.
    apply network_input_levels; [lia|].
    pose proof (Zmaximum_ge _ _ Hz). fold M in H.
    pose proof (levels_of_bounded decoded) as Hb.
    rewrite Forall_forall in Hb. specialize (Hb z Hz). lia.
  - apply in_map_iff. exists (canon 24 M). split.
    + apply network_input_levels; lia.
    + now apply in_map.
Qed.

Local Close Scope Z_scope.

Lemma unit_range_interval (g : float) :
  unit_range g = true -> in_unit_interval g = true.
Proof.
  unfold unit_range, in_unit_interval. rewrite !andb_true_iff. tauto.
Qed.

(** C9. For a decoded image whose maximum sample is positive, the array
    returned by the loader has maximum exactly 1 and all its samples between
    -1 and 1, whatever the brightness of the image: every sample is divided
    by half the maximum of the image itself, then 1 is subtracted. *)
Theorem network_input_own_maximum (decoded : array2 (rgb Byte.byte)) (m : float) :
  amax (samples (get_image_array decoded)) = Some m -> fgt m fzero = true ->
  exists image,
    load_image_as_network_input decoded = Some image /\
    image = amap (fun x => fsub binary32
                             (fdiv binary32 x (fdiv binary32 m (of_Z binary32 2)))
                             (of_Z binary32 1))
                 (get_image_array decoded) /\
    amax (samples image) = Some (of_Z binary32 1) /\
    Forall (fun x => in_unit_interval x = true) (samples image).
Proof.
  intros Hm Hpos.
  exists (amap (network_input m) (get_image_array decoded)).
  destruct (network_input_samples decoded Hm Hpos) as [Hr Hone].
  split; [now apply load_image_as_network_input_eq|].
  split; [reflexivity|].
  split; [now apply amax_unit_range|].
  eapply Forall_impl; [|exact Hr]. apply unit_range_interval.
Qed.

Lemma half_of_255 :
  fdiv binary32 (of_Z binary32 255) (of_Z binary32 2) = astype binary32 (dec 1275 10).
Proof. vm_compute. reflexivity. Qed.

Lemma fixed_differs_check :
  forallb (fun k => negb (sf_eqb (network_input (level32 k) (level32 k))
                                 (fixed_network_input (level32 k))))
          (seq 0 255) = true.
Proof. vm_compute. reflexivity. Qed.

Lemma map_eq_In {X Y : Type} (f g : X -> Y) (l : list X) (x : X) :
  map f l = map g l -> In x l -> f x = g x.
Proof.
  induction l as [|a l IH]; intros E Hin; [contradiction|].
  cbn [map] in E. injection E as E1 E2.
  destruct Hin as [<- | Hin]; [exact E1 | now apply IH].
Qed.

(** On an image whose largest sample is below 255 the conversion differs
    from [x/127.5 - 1] at the largest sample. *)
Lemma fixed_formula_maximum (decoded : array2 (rgb Byte.byte)) (m : float) :
  amax (samples (get_image_array decoded)) = Some m ->
  load_image_as_network_input decoded =
    Some (amap fixed_network_input (get_image_array decoded)) ->
  m = of_Z binary32 255.
Proof.
  intros Hm Hfix.
  rewrite (load_image_as_network_input_eq decoded Hm) in Hfix.
  apply (f_equal (fun o => match o with
                           | Some image => samples image
                           | None => []
                           end)) in Hfix.
  cbv beta iota in Hfix.
  pose proof (samples_amap (network_input m) (get_image_array decoded)) as A1.
  pose proof (samples_amap fixed_network_input (get_image_array decoded)) as A2.
  rewrite A1, A2 in Hfix. clear A1 A2.
  destruct (decoded_maximum decoded Hm) as [_ [Em [HM Hin]]].
  set (M := Zmaximum (levels_of decoded)) in *.
  assert (Hs : In (canon 24 M) (samples (get_image_array decoded))).
  { rewrite samples_get_image_array. now apply in_map. }
  pose proof (map_eq_In _ _ _ _ Hfix Hs) as E.
  destruct (Z.eq_dec M 255) as [E255 | Hne].
  - rewrite Em, E255. reflexivity.
  - exfalso. pose proof fixed_differs_check as C.
    rewrite forallb_forall in C.
    specialize (C (Z.to_nat M) ltac:(apply in_seq; lia)).
    rewrite level32_canon, Z2Nat.id in C by lia.
    rewrite Em in E. rewrite E in C. apply negb_true_iff in C.
    assert (R : forall x, sf_eqb x x = true).
    { intros [s|s| |s p e]; cbn [sf_eqb];
        rewrite ?Bool.eqb_reflx, ?Pos.eqb_refl, ?Z.eqb_refl; reflexivity. }
    now rewrite R in C.
Qed.

(** C2, as the code has it: the conversion maps a sample [x] to
    [x / (m/2) - 1], with [m] the largest sample of the image itself; this
    is [x/127.5 - 1] exactly when that largest sample is 255; and the
    returned samples are between -1 and 1 when [m] is positive. *)
Theorem network_input_formula (decoded : array2 (rgb Byte.byte)) (m : float) :
  amax (samples (get_image_array decoded)) = Some m ->
  load_image_as_network_input decoded =
    Some (amap (fun x => fsub binary32
                           (fdiv binary32 x (fdiv binary32 m (of_Z binary32 2)))
                           (of_Z binary32 1))
               (get_image_array decoded)) /\
  (m = of_Z binary32 255 <->
   load_image_as_network_input decoded =
     Some (amap fixed_network_input (get_image_array decoded))) /\
  (fgt m fzero = true ->
   exists image,
     load_image_as_network_input decoded = Some image /\
     Forall (fun x => in_unit_interval x = true) (samples image)).
Proof.
  intros Hm.
  pose proof (load_image_as_network_input_eq decoded Hm) as E.
  split; [exact E|]. split; [split|].
  - intros ->. rewrite E. unfold network_input, fixed_network_input.
    now rewrite half_of_255.
  - now apply fixed_formula_maximum.
  - intros Hpos. eexists. split; [exact E|].
    destruct (network_input_samples decoded Hm Hpos) as [Hr _].
    eapply Forall_impl; [|exact Hr]. apply unit_range_interval.
Qed.

(** ** The loader on a uniformly gray image *)

Lemma amap_image (f : float -> float) (a : array2 (rgb float)) :
  amap f a = map (map (rgb_map f)) a.
Proof. reflexivity. Qed.

Lemma cons_head_eq {X : Type} (x y : X) (l l' : list X) :
  x :: l = y :: l' -> x = y.
Proof. intros H. now injection H. Qed.

Lemma some_eq {X : Type} (x y : X) : Some x = Some y -> x = y.
Proof. intros H. now injection H. Qed.

Lemma amap_solid_inj (f g : float -> float) (c : rgb Byte.byte) :
  amap f (get_image_array (solid c)) = amap g (get_image_array (solid c)) ->
  f (of_byte (red c)) = g (of_byte (red c)).
Proof.
  intros H. rewrite !amap_image in H. unfold get_image_array, solid in H.
  change (repeat (repeat c 96) 96)
    with ((c :: repeat c 95) :: repeat (repeat c 96) 95) in H.
  rewrite !map_cons in H. apply cons_head_eq, cons_head_eq in H.
  destruct c as [r g0 b]. unfold rgb_map in H. cbn [red green blue] in H.
  now injection H.
Qed.

Lemma gray_100_maximum :
  amax (samples (get_image_array gray_100)) = Some (of_Z binary32 100).
Proof.
  rewrite samples_get_image_array, (@amax_canon 24).
  - replace (Zmaximum (levels_of gray_100)) with 100%Z by (vm_compute; reflexivity).
    reflexivity.
  - lia.
  - intros E. apply (f_equal (@length Z)) in E. vm_compute in E. discriminate.
  - eapply Forall_impl; [|apply levels_of_bounded].
    intros z Hz. cbv beta in Hz. change (2 ^ 24)%Z with 16777216%Z. lia.
Qed.

Lemma gray_100_positive : fgt (of_Z binary32 100) fzero = true.
Proof. reflexivity. Qed.

(** C2, as stated, fails: on the image whose samples are all 100 the loader
    returns 1 for every sample, where [x/127.5 - 1] is about -0.2157. *)
Lemma fixed_formula_fails :
  load_image_as_network_input gray_100 <>
    Some (amap fixed_network_input (get_image_array gray_100)) /\
  network_input (of_Z binary32 100) (of_Z binary32 100) = of_Z binary32 1 /\
  fixed_network_input (of_Z binary32 100) = S754_finite true 14474460 (-26).
Proof.
  split; [|split; vm_compute; reflexivity].
  intros H.
  rewrite (load_image_as_network_input_eq gray_100 gray_100_maximum) in H.
  apply some_eq, amap_solid_inj in H.
  vm_compute in H. discriminate.
Qed.

Lemma network_input_formula_witness :
  amax (samples (get_image_array gray_100)) = Some (of_Z binary32 100) /\
  load_image_as_network_input gray_100 =
    Some (amap (fun x => fsub binary32
                           (fdiv binary32 x
                              (fdiv binary32 (of_Z binary32 100) (of_Z binary32 2)))
                           (of_Z binary32 1))
               (get_image_array gray_100)).
Proof.
  split; [exact gray_100_maximum|].
  exact (proj1 (network_input_formula gray_100 gray_100_maximum)).
Defined.

Lemma network_input_own_maximum_witness :
  amax (samples (get_image_array gray_100)) = Some (of_Z binary32 100) /\
  fgt (of_Z binary32 100) fzero = true /\
  exists image,
    load_image_as_network_input gray_100 = Some image /\
    image = amap (fun x => fsub binary32
                             (fdiv binary32 x
                                (fdiv binary32 (of_Z binary32 100) (of_Z binary32 2)))
                             (of_Z binary32 1))
                 (get_image_array gray_100) /\
    amax (samples image) = Some (of_Z binary32 1) /\
    Forall (fun x => in_unit_interval x = true) (samples image).
Proof.
  split; [exact gray_100_maximum|]. split; [exact gray_100_positive|].
  exact (network_input_own_maximum gray_100 gray_100_maximum gray_100_positive).
Defined.

(** ** Instances on concrete images *)

Lemma Forall_solid {A : Type} (P : A -> Prop) (v : A) :
  P v -> Forall (Forall P) (solid v).
Proof.
  intros Hv. unfold solid.
  apply Forall_forall. intros row Hrow. apply repeat_spec in Hrow. subst row.
  apply Forall_forall. intros c Hc. apply repeat_spec in Hc. now subst c.
Qed.

Lemma has_shape_black_composite : has_shape 672 960 black_composite.
Proof. apply has_shapeb_spec. vm_compute. reflexivity. Qed.

Lemma neutral_is_index_24_witness :
  length [solid 7] = 1 /\ length numbered_images = 49 /\
  Forall (has_shape 96 96) [solid 7] /\
  Forall (has_shape 96 96) numbered_images /\
  nth_error valence 24 = Some fzero /\
  nth_error arousal 24 = Some fzero /\
  exists canvas,
    final_image 0 [solid 7] numbered_images = Some canvas /\
    nth_error (get_generated_images 96 canvas) 24 = nth_error numbered_images 24.
Proof.
  assert (H5 : length [solid 7] = 1) by reflexivity.
  assert (H6 : length numbered_images = 49) by reflexivity.
  assert (H7 : Forall (has_shape 96 96) [solid 7]) by shapes.
  assert (H8 : Forall (has_shape 96 96) numbered_images) by shapes.
  repeat (split; [assumption|]).
  pose proof (neutral_is_index_24 0 black_composite H5 H6 H7 H8) as W.
  destruct W as [_ [_ [_ [_ [W1 [W2 [_ [_ [_ [W3 _]]]]]]]]]].
  split; [exact W1|]. split; [exact W2|]. exact W3.
Defined.

Lemma spacers_saved_mid_gray_witness :
  length [face 7] = 1 /\ length numbered_faces = 49 /\
  Forall (has_shape 96 96) [face 7] /\
  Forall (has_shape 96 96) numbered_faces /\
  exists canvas saved,
    final_image (RGB fzero fzero fzero) (amap (astype binary64) [face 7])
      (amap (astype binary64) numbered_faces) = Some canvas /\
    save_generated_output [face 7] numbered_faces = Some saved /\
    saved = map (map (rgb_map (fun x => astype_uint8 (display x)))) canvas /\
    has_shape 672 960 saved /\
    forall index, index < 70 ->
      nth index annotated_layout Input = Spacer ->
      let index_column := index mod 10 in
      let index_row := index / 10 in
      crop (index_row * 96) ((index_row + 1) * 96)
           (index_column * 96) ((index_column + 1) * 96) saved =
      solid (RGB 127%N 127%N 127%N).
Proof.
  assert (H5 : length [face 7] = 1) by reflexivity.
  assert (H6 : length numbered_faces = 49) by reflexivity.
  assert (H7 : Forall (has_shape 96 96) [face 7]) by shapes.
  assert (H8 : Forall (has_shape 96 96) numbered_faces) by shapes.
  repeat (split; [assumption|]).
  exact (spacers_saved_mid_gray H5 H6 H7 H8).
Defined.

(** ** Accumulation of integer-valued canvases *)

Lemma zip_with_map2 {X Y Z X' Y' Z' : Type} (f : X' -> Y' -> option Z')
    (g1 : X -> X') (g2 : Y -> Y') (g3 : Z -> Z') (h : X -> Y -> Z)
    (l1 : list X) (l2 : list Y) :
  length l1 = length l2 ->
  (forall x y, In x l1 -> In y l2 -> f (g1 x) (g2 y) = Some (g3 (h x y))) ->
  zip_with f (map g1 l1) (map g2 l2) = Some (map g3 (map2 h l1 l2)).
Proof.
  revert l2. induction l1 as [|x l1 IH]; intros [|y l2] Hlen Hf; try discriminate.
  - reflexivity.
  - simpl. rewrite Hf by (now left).
    rewrite IH; [reflexivity | now injection Hlen |].
    intros x' y' Hx Hy. apply Hf; now right.
Qed.

Lemma length_map2 {X Y Z : Type} (h : X -> Y -> Z) (l1 : list X) (l2 : list Y) :
  length l1 = length l2 -> length (map2 h l1 l2) = length l1.
Proof.
  revert l2. induction l1 as [|x l1 IH]; intros [|y l2] Hlen; try discriminate.
  - reflexivity.
  - simpl. f_equal. apply IH. now injection Hlen.
Qed.

Lemma Forall_map2 {X Y Z : Type} (h : X -> Y -> Z) (P : X -> Prop) (Q : Y -> Prop)
    (S : Z -> Prop) (l1 : list X) (l2 : list Y) :
  (forall x y, P x -> Q y -> S (h x y)) ->
  Forall P l1 -> Forall Q l2 -> Forall S (map2 h l1 l2).
Proof.
  intros Hh H1. revert l2. induction H1 as [|x l1 Hx _ IH]; intros l2 H2.
  - constructor.
  - destruct H2 as [|y l2 Hy H2]; simpl; constructor; auto.
Qed.

Lemma map2_swap {X Y : Type} (h : X -> Y -> X) (a : list X) (x y : list Y) :
  (forall u v w, h (h u v) w = h (h u w) v) ->
  map2 h (map2 h a x) y = map2 h (map2 h a y) x.
Proof.
  intros Hh. revert x y. induction a as [|u a IH]; intros [|v x] [|w y];
    try reflexivity.
  simpl. now rewrite Hh, IH.
Qed.

Lemma zip_add_swap (R D1 D2 : array2 Z) :
  zip_add (zip_add R D1) D2 = zip_add (zip_add R D2) D1.
Proof.
  unfold zip_add. apply map2_swap. intros u v w.
  apply map2_swap. intros; lia.
Qed.

Lemma fold_left_permutation {X Y : Type} (f : X -> Y -> X) (l l' : list Y) :
  (forall a x y, f (f a x) y = f (f a y) x) ->
  Permutation l l' -> forall a, fold_left f l a = fold_left f l' a.
Proof.
  intros Hf HP. induction HP as [|x l l' _ IH|x y l|l l' l'' _ IH1 _ IH2]; intros a.
  - reflexivity.
  - simpl. apply IH.
  - simpl. now rewrite Hf.
  - now rewrite IH1.
Qed.

Lemma sum_canvases_permutation (ns ns' : list (array2 Z)) :
  Permutation ns ns' -> sum_canvases ns = sum_canvases ns'.
Proof.
  intros HP. unfold sum_canvases.
  apply fold_left_permutation; [|assumption].
  intros a x y. apply zip_add_swap.
Qed.

Lemma max_canvases_permutation (ns ns' : list (array2 Z)) :
  Permutation ns ns' -> max_canvases ns = max_canvases ns'.
Proof.
  intros HP. unfold max_canvases.
  apply fold_left_permutation; [|assumption].
  intros a x y. lia.
Qed.

Lemma has_shape_zip_add (h w : nat) (R D : array2 Z) :
  has_shape h w R -> has_shape h w D -> has_shape h w (zip_add R D).
Proof.
  intros [HlR HrR] [HlD HrD]. unfold zip_add. split.
  - rewrite length_map2; congruence.
  - eapply Forall_map2; [|exact HrR|exact HrD].
    intros r d Hr Hd. cbv beta in *. rewrite length_map2; congruence.
Qed.

Lemma samples_within_zip_add (b1 b2 : Z) (R D : array2 Z) :
  samples_within 0 b1 R -> samples_within 0 b2 D ->
  samples_within 0 (b1 + b2) (zip_add R D).
Proof.
  intros HR HD. unfold samples_within, zip_add.
  eapply Forall_map2; [|exact HR|exact HD].
  intros r d Hr Hd. eapply Forall_map2; [|exact Hr|exact Hd].
  intros x y Hx Hy. cbv beta in *. lia.
Qed.

Local Open Scope Z_scope.

Lemma fadd_binary64_canon (x y : Z) :
  0 <= x -> 0 <= y -> x + y < 2 ^ 53 ->
  fadd binary64 (canon 53 x) (canon 53 y) = canon 53 (x + y).
Proof.
  intros Hx Hy Hxy. unfold fadd. cbn [prec emax binary64].
  apply SFadd_canon; lia.
Qed.

Lemma integer_canvas_canon (b : Z) (D : array2 Z) :
  samples_within 0 b D -> b < 2 ^ 53 ->
  integer_canvas D = map (map (canon 53)) D.
Proof.
  intros HD Hb. unfold integer_canvas.
  apply map_ext_Forall. eapply Forall_impl; [|exact HD].
  intros row Hrow. apply map_ext_Forall. eapply Forall_impl; [|exact Hrow].
  intros z Hz. cbv beta in Hz. apply of_Z_binary64. lia.
Qed.

Lemma elementwise_fadd_canon (h w : nat) (b1 b2 : Z) (R D : array2 Z) :
  has_shape h w R -> has_shape h w D ->
  samples_within 0 b1 R -> samples_within 0 b2 D -> b1 + b2 < 2 ^ 53 ->
  elementwise (fadd binary64) (map (map (canon 53)) R) (map (map (canon 53)) D) =
  Some (map (map (canon 53)) (zip_add R D)).
Proof.
  intros [HlR HrR] [HlD HrD] HR HD Hb. unfold elementwise, zip_add.
  apply zip_with_map2; [congruence|].
  intros r d Hr Hd.
  unfold samples_within in HR, HD. rewrite Forall_forall in HR, HD, HrR, HrD.
  specialize (HR r Hr). specialize (HD d Hd).
  apply zip_with_map2; [rewrite (HrR r Hr), (HrD d Hd); reflexivity|].
  intros x y Hx Hy. rewrite Forall_forall in HR, HD.
  specialize (HR x Hx). specialize (HD y Hy). cbv beta in HR, HD.
  f_equal. apply fadd_binary64_canon; lia.
Qed.

Lemma amax_canvas (h w : nat) (b : Z) (D : array2 Z) :
  has_shape h w D -> (0 < h)%nat -> (0 < w)%nat ->
  samples_within 0 b D -> b < 2 ^ 53 ->
  amax (samples (map (map (canon 53)) D)) = Some (canon 53 (canvas_max D)) /\
  0 <= canvas_max D <= b.
Proof.
  intros [Hl Hr] Hh Hw HD Hb.
  assert (Hc : Forall (fun z => 0 <= z <= b) (concat D)) by now apply Forall_concat.
  assert (Hb0 : 0 <= b).
  { destruct D as [|[|x r] D']; simpl in Hl; [lia| |].
    - apply Forall_inv in Hr. simpl in Hr. lia.
    - apply Forall_inv in Hc. lia. }
  split; [|now apply Zmaximum_bound].
  rewrite samples_array2, <- concat_map. unfold canvas_max.
  apply (@amax_canon 53); try lia.
  - destruct D as [|[|x r] D']; simpl in Hl; [lia| |discriminate].
    apply Forall_inv in Hr. simpl in Hr. lia.
  - eapply Forall_impl; [|exact Hc]. intros z Hz. cbv beta in Hz. lia.
Qed.

Lemma accumulate_canon (b : Z) (R D : array2 Z) (M : Z) :
  has_shape 672 672 R -> has_shape 672 672 D ->
  samples_within 0 b R -> samples_within 0 255 D ->
  b + 255 < 2 ^ 53 -> 0 <= M <= 255 ->
  accumulate {| res := map (map (canon 53)) R; allover_max := canon 53 M |}
             (map (map (canon 53)) D) =
  Some {| res := map (map (canon 53)) (zip_add R D);
          allover_max := canon 53 (Z.max M (canvas_max D)) |}.
Proof.
  intros SR SD HR HD Hb HM. unfold accumulate. cbn [res allover_max].
  destruct (@amax_canvas 672 672 255 D SD ltac:(lia) ltac:(lia) HD ltac:(lia))
    as [Em Hm].
  unfold array2 in *.
  rewrite Em, (elementwise_fadd_canon SR SD HR HD Hb).
  do 2 f_equal.
  rewrite (@fgt_canon 53) by (change (2 ^ 53) with 9007199254740992; lia).
  destruct (Z.ltb_spec M (canvas_max D)).
  - now rewrite Z.max_r by lia.
  - now rewrite Z.max_l by lia.
Qed.

Lemma accumulate_fold (ns : list (array2 Z)) :
  Forall (has_shape 672 672) ns -> Forall (samples_within 0 255) ns ->
  forall (b : Z) (R : array2 Z) (M : Z),
  has_shape 672 672 R -> samples_within 0 b R -> 0 <= b ->
  b + 255 * Z.of_nat (length ns) < 2 ^ 53 -> 0 <= M <= 255 ->
  fold_left (fun acc d => match acc with
                          | None => None
                          | Some a => accumulate a d
                          end)
            (map (fun D => map (map (canon 53)) D) ns)
            (Some {| res := map (map (canon 53)) R; allover_max := canon 53 M |}) =
  Some {| res := map (map (canon 53)) (fold_left zip_add ns R);
          allover_max :=
            canon 53 (fold_left (fun M D => Z.max M (canvas_max D)) ns M) |}.
Proof.
  intros Hs. induction Hs as [|D ns SD _ IH]; intros Hw b R M SR HR Hb0 Hb HM.
  - reflexivity.
  - inversion Hw as [|? ? HD Hw']; subst.
    cbn [map fold_left length] in *.
    rewrite (@accumulate_canon b R D M) by (assumption || lia).
    destruct (@amax_canvas 672 672 255 D SD ltac:(lia) ltac:(lia) HD ltac:(lia))
      as [_ Hm].
    apply (IH Hw' (b + 255)).
    + now apply has_shape_zip_add.
    + now apply samples_within_zip_add.
    + lia.
    + lia.
    + lia.
Qed.

Lemma accumulator_init_canon :
  accumulator_init =
  {| res := map (map (canon 53)) (zeros 0 672 672); allover_max := canon 53 0 |}.
Proof. unfold accumulator_init. now rewrite map_zeros. Qed.

Lemma Forall_zeros {A : Type} (P : A -> Prop) (v : A) (h w : nat) :
  P v -> Forall (Forall P) (zeros v h w).
Proof.
  intros Hv. unfold zeros.
  apply Forall_forall. intros row Hrow. apply repeat_spec in Hrow. subst row.
  apply Forall_forall. intros c Hc. apply repeat_spec in Hc. now subst c.
Qed.

Lemma integer_canvases_canon (ns : list (array2 Z)) :
  Forall (samples_within 0 255) ns ->
  map integer_canvas ns = map (fun D => map (map (canon 53)) D) ns.
Proof.
  intros H. apply map_ext_Forall. eapply Forall_impl; [|exact H].
  intros D HD. apply (integer_canvas_canon HD). reflexivity.
Qed.

(** The loop over integer-valued canvases, in closed form. *)
Lemma accumulate_all_integer (ns : list (array2 Z)) :
  Forall (has_shape 672 672) ns -> Forall (samples_within 0 255) ns ->
  255 * Z.of_nat (length ns) < 2 ^ 53 ->
  accumulate_all (map integer_canvas ns) =
  Some {| res := map (map (canon 53)) (sum_canvases ns);
          allover_max := canon 53 (max_canvases ns) |}.
Proof.
  intros Hs Hw Hn. unfold accumulate_all.
  rewrite integer_canvases_canon, accumulator_init_canon by assumption.
  apply (@accumulate_fold ns Hs Hw 0).
  - apply has_shape_zeros.
  - apply Forall_zeros. lia.
  - lia.
  - lia.
  - lia.
Qed.

Local Close Scope Z_scope.

(** ** The difference canvas of a file, on its 8-bit samples *)

Lemma px_map {A B : Type} (f : A -> B) (d : A) (a : array2 A) (y x : nat) :
  px (f d) (map (map f) a) y x = f (px d a y x).
Proof.
  unfold px.
  change (@nil B) with (map f []). now rewrite !map_nth.
Qed.

Lemma extract_cells_map {A B : Type} (f : A -> B) (p rows cols off : nat)
    (img : array2 A) :
  extract_cells p rows cols off (map (map f) img) =
  map (fun c => map (map f) c) (extract_cells p rows cols off img).
Proof.
  unfold extract_cells. rewrite !flat_map_concat_map, concat_map, map_map.
  f_equal. apply map_ext. intros r. rewrite map_map.
  apply map_ext. intros c. apply crop_map.
Qed.

Lemma mapM_map {X Y W : Type} (f : Y -> option W) (g : X -> Y) (k : X -> W)
    (l : list X) :
  (forall x, In x l -> f (g x) = Some (k x)) ->
  mapM f (map g l) = Some (map k l).
Proof.
  induction l as [|x l IH]; intros H; [reflexivity|].
  simpl. rewrite H by (now left). rewrite IH; [reflexivity|].
  intros x' Hx'. apply H. now right.
Qed.

(** The tiling loop commutes with a conversion of the samples. *)
Lemma tile_frame_map {A B : Type} (f : A -> B) (z : A) (p rows cols : nat)
    (images : list (array2 A)) :
  length images <= rows * cols -> Forall (has_shape p p) images ->
  exists canvas,
    tile_frame z p rows cols images = Some canvas /\
    tiled z p rows cols images canvas /\
    tile_frame (f z) p rows cols (map (fun c => map (map f) c) images) =
      Some (map (map f) canvas).
Proof.
  intros Hlen Hs.
  destruct (@tile_frame_spec A z p rows cols images Hlen Hs) as [canvas [E T]].
  exists canvas. split; [assumption|]. split; [assumption|].
  destruct (@tile_frame_spec B (f z) p rows cols
              (map (fun c => map (map f) c) images)) as [canvas' [E' T']].
  { now rewrite length_map. }
  { now apply Forall_has_shape_map. }
  rewrite E'. f_equal.
  destruct T as [Sh Px], T' as [Sh' Px'].
  apply (@array2_ext B (f z) (rows * p) (cols * p));
    [assumption | now apply has_shape_map |].
  intros y x Hy Hx. rewrite (Px' y x Hy Hx), px_map, (Px y x Hy Hx). cbv zeta.
  rewrite length_map. unfold array2 in *.
  destruct (y / p * cols + x / p <? length images) eqn:Hidx; [|reflexivity].
  change (@nil (list B)) with (map (map f) (@nil (list A))).
  rewrite (map_nth (fun c => map (map f) c)). apply px_map.
Qed.

Lemma Forall_px {A : Type} (P : A -> Prop) (d : A) (h w : nat) (a : array2 A) :
  has_shape h w a ->
  (forall y x, y < h -> x < w -> P (px d a y x)) ->
  Forall (Forall P) a.
Proof.
  intros Hs Hp. pose proof Hs as [Hl Hr].
  apply Forall_nth. intros y d0 Hy.
  rewrite (nth_indep _ d0 []) by assumption.
  apply Forall_nth. intros x d1 Hx.
  rewrite (nth_indep _ d1 d) by assumption.
  assert (Hw : length (nth y a []) = w)
    by (eapply has_shape_row; [exact Hs | lia]).
  apply Hp; lia.
Qed.

Lemma px_Forall {A : Type} (P : A -> Prop) (d : A) (h w : nat) (a : array2 A)
    (y x : nat) :
  has_shape h w a -> Forall (Forall P) a -> y < h -> x < w -> P (px d a y x).
Proof.
  intros Hs Hf Hy Hx. unfold px.
  pose proof (has_shape_row Hs Hy) as Hw. destruct Hs as [Hl _].
  rewrite Forall_nth in Hf. specialize (Hf y [] ltac:(lia)).
  rewrite Forall_nth in Hf. apply Hf. lia.
Qed.

Local Open Scope Z_scope.

Lemma byte_level_range (b : Byte.byte) : 0 <= byte_level b <= 255.
Proof. apply byte_level_bounded. Qed.

Lemma level_difference_range (c n : rgb Byte.byte) :
  0 <= level_difference c n <= 255.
Proof.
  unfold level_difference.
  pose proof (byte_level_range (red c)). pose proof (byte_level_range (red n)).
  pose proof (byte_level_range (green c)). pose proof (byte_level_range (green n)).
  pose proof (byte_level_range (blue c)). pose proof (byte_level_range (blue n)).
  lia.
Qed.

Lemma channel_error_bytes (a b : Byte.byte) :
  fabs (fsub binary32 (of_byte a) (of_byte b)) =
  canon 24 (Z.abs (byte_level a - byte_level b)).
Proof.
  rewrite !of_byte_canon. fold (byte_level a) (byte_level b).
  pose proof (byte_level_range a). pose proof (byte_level_range b).
  unfold fsub. cbn [prec emax binary32].
  rewrite (@SFsub_canon 24 128) by (change (2 ^ 24) with 16777216; lia).
  apply fabs_canon.
Qed.

Lemma max_error_bytes (c n : rgb Byte.byte) :
  max_error binary32 (rgb_map of_byte c) (rgb_map of_byte n) =
  canon 24 (level_difference c n).
Proof.
  unfold max_error, channel_error, level_difference.
  cbn [rgb_map red green blue].
  rewrite !channel_error_bytes.
  pose proof (byte_level_range (red c)). pose proof (byte_level_range (red n)).
  pose proof (byte_level_range (green c)). pose proof (byte_level_range (green n)).
  pose proof (byte_level_range (blue c)). pose proof (byte_level_range (blue n)).
  rewrite !(@np_maximum_canon 24) by (change (2 ^ 24) with 16777216; lia).
  reflexivity.
Qed.

Local Close Scope Z_scope.

Lemma get_max_difference_bytes (h w : nat) (c n : array2 (rgb Byte.byte)) :
  has_shape h w c -> has_shape h w n ->
  get_max_difference binary32 (get_image_array c) (get_image_array n) =
  Some (map (map (canon 24)) (map2 (map2 level_difference) c n)).
Proof.
  intros [Hlc Hrc] [Hln Hrn].
  unfold get_max_difference, elementwise, get_image_array.
  apply zip_with_map2; [congruence|].
  intros rc rn Hc Hn. rewrite Forall_forall in Hrc, Hrn.
  apply zip_with_map2; [rewrite (Hrc rc Hc), (Hrn rn Hn); reflexivity|].
  intros pc pn _ _. f_equal. apply max_error_bytes.
Qed.

Lemma has_shape_map2 {X Y Z : Type} (f : X -> Y -> Z) (h w : nat)
    (a : array2 X) (b : array2 Y) :
  has_shape h w a -> has_shape h w b -> has_shape h w (map2 (map2 f) a b).
Proof.
  intros [Hla Hra] [Hlb Hrb]. split.
  - rewrite length_map2; congruence.
  - eapply Forall_map2; [|exact Hra|exact Hrb].
    intros r d Hr Hd. cbv beta in *. rewrite length_map2; congruence.
Qed.

Lemma Forall_map2_all {X Y Z : Type} (f : X -> Y -> Z) (S : Z -> Prop)
    (l1 : list X) (l2 : list Y) :
  (forall x y, S (f x y)) -> Forall S (map2 f l1 l2).
Proof.
  intros Hf. revert l2. induction l1 as [|x l1 IH]; intros [|y l2];
    simpl; constructor; auto.
Qed.

Lemma level_differences_within (c n : array2 (rgb Byte.byte)) :
  samples_within 0 255 (map2 (map2 level_difference) c n).
Proof.
  unfold samples_within. apply Forall_map2_all. intros rc rn.
  apply Forall_map2_all. intros pc pn. apply level_difference_range.
Qed.

Lemma astype_levels (Zc : array2 Z) :
  samples_within 0 255 Zc ->
  map (map (astype binary64)) (map (map (canon 24)) Zc) = map (map (canon 53)) Zc.
Proof.
  intros H. rewrite map_map. apply map_ext_Forall.
  eapply Forall_impl; [|exact H]. intros row Hrow.
  rewrite map_map. apply map_ext_Forall.
  eapply Forall_impl; [|exact Hrow]. intros z Hz. cbv beta in Hz.
  unfold astype. cbn [prec emax binary64].
  apply astype_canon; lia.
Qed.

Lemma get_generated_images_decoded (p : nat) (decoded : array2 (rgb Byte.byte)) :
  get_generated_images p (get_image_array decoded) =
  map get_image_array (get_generated_images p decoded).
Proof.
  unfold get_generated_images.
  exact (extract_cells_map (rgb_map of_byte) p 7 7 3 decoded).
Qed.

(** The difference canvas of a decoded composite is the float64 image of
    the canvas computed on the 8-bit samples. *)
Lemma differences_square_integer (decoded : array2 (rgb Byte.byte)) :
  has_shape 672 960 decoded ->
  exists D,
    integer_differences decoded = Some D /\
    has_shape 672 672 D /\ samples_within 0 255 D /\
    differences_square decoded = Some (integer_canvas D).
Proof.
  intros Hd. unfold integer_differences, differences_square. cbv zeta.
  set (cells := get_generated_images 96 decoded).
  destruct (@extract_cells_shape _ 96 7 7 3 672 960 decoded Hd)
    as [Lc Sc]; [lia | lia |].
  fold (get_generated_images 96 decoded) in Lc, Sc. fold cells in Lc, Sc.
  set (n := nth 24 cells []).
  assert (Hn : nth_error cells 24 = Some n)
    by (apply nth_error_nth'; rewrite Lc; simpl; lia).
  assert (Sn : has_shape 96 96 n).
  { rewrite Forall_forall in Sc. apply Sc. eapply nth_error_In; eassumption. }
  set (Dcells := map (fun c => map2 (map2 level_difference) c n) cells).
  assert (SD : Forall (has_shape 96 96) Dcells).
  { apply Forall_map. eapply Forall_impl; [|exact Sc].
    intros c Hc. now apply has_shape_map2. }
  assert (WD : Forall (samples_within 0 255) Dcells).
  { apply Forall_map, Forall_forall. intros c _. apply level_differences_within. }
  destruct (@tile_frame_map Z float (canon 53) 0%Z 96 7 7 Dcells)
    as [D [ED [TD EF]]];
    [unfold Dcells; rewrite length_map; unfold array2 in *; rewrite Lc; simpl; lia
    | exact SD |].
  exists D. split; [exact ED|].
  assert (WDc : samples_within 0 255 D).
  { destruct TD as [ShD PxD].
    apply (@Forall_px Z _ 0%Z (7 * 96) (7 * 96)); [exact ShD|].
    intros y x Hy Hx. rewrite (PxD y x Hy Hx). cbv zeta beta.
    unfold array2 in *.
    destruct (Nat.ltb_spec (y / 96 * 7 + x / 96) (length Dcells)) as [Hidx|Hidx];
      [|lia].
    apply (@px_Forall Z (fun z => (0 <= z <= 255)%Z) 0%Z 96 96).
    - rewrite Forall_nth in SD. now apply SD.
    - rewrite Forall_nth in WD. now apply WD.
    - apply Nat.mod_upper_bound. lia.
    - apply Nat.mod_upper_bound. lia. }
  split; [apply TD|]. split; [exact WDc|].
  rewrite get_generated_images_decoded. fold cells.
  rewrite (map_nth_error get_image_array 24 cells Hn).
  rewrite (mapM_map _ get_image_array
             (fun c => map (map (canon 24)) (map2 (map2 level_difference) c n))).
  - unfold tile_to_square.
    replace (amap (astype binary64)
               (map (fun c => map (map (canon 24)) (map2 (map2 level_difference) c n))
                    cells))
      with (map (fun c => map (map (canon 53)) c) Dcells).
    + change fzero with (canon 53 0). rewrite EF.
      now rewrite (integer_canvas_canon WDc ltac:(reflexivity)).
    + unfold Dcells. cbn [amap ndarray_list]. rewrite !map_map.
      apply map_ext. intros c. symmetry.
      apply (astype_levels (level_differences_within c n)).
  - intros c Hc. rewrite Forall_forall in Sc.
    apply (get_max_difference_bytes (Sc c Hc) Sn).
Qed.

(** ** Order of accumulation *)

Local Open Scope Z_scope.

Lemma sum_within (ns : list (array2 Z)) :
  Forall (samples_within 0 255) ns ->
  forall (b : Z) (R : array2 Z), samples_within 0 b R ->
  samples_within 0 (b + 255 * Z.of_nat (length ns)) (fold_left zip_add ns R).
Proof.
  intros Hw. induction Hw as [|D ns HD _ IH]; intros b R HR.
  - cbn [fold_left length].
    replace (b + 255 * Z.of_nat 0) with b by lia. assumption.
  - cbn [fold_left length].
    replace (b + 255 * Z.of_nat (S (length ns)))
      with ((b + 255) + 255 * Z.of_nat (length ns)) by lia.
    apply IH. now apply samples_within_zip_add.
Qed.

Lemma max_canvases_range (ns : list (array2 Z)) :
  Forall (has_shape 672 672) ns -> Forall (samples_within 0 255) ns ->
  0 <= max_canvases ns <= 255.
Proof.
  intros Hs Hw. unfold max_canvases.
  assert (G : forall M, 0 <= M <= 255 ->
            0 <= fold_left (fun M D => Z.max M (canvas_max D)) ns M <= 255).
  { induction Hs as [|D ns SD _ IH]; intros M HM; [exact HM|].
    inversion Hw as [|? ? HD Hw']; subst. cbn [fold_left].
    destruct (@amax_canvas 672 672 255 D SD ltac:(lia) ltac:(lia) HD ltac:(lia))
      as [_ Hm].
    apply IH; [assumption | lia]. }
  apply G. lia.
Qed.

(** The accumulator after a list of integer-valued canvases: the sum of
    the canvases and their largest sample, as float64 values. *)
Lemma accumulate_all_closed_form (ns : list (array2 Z)) :
  Forall (has_shape 672 672) ns -> Forall (samples_within 0 255) ns ->
  255 * Z.of_nat (length ns) < 2 ^ 53 ->
  accumulate_all (map integer_canvas ns) =
  Some {| res := integer_canvas (sum_canvases ns);
          allover_max := of_Z binary64 (max_canvases ns) |}.
Proof.
  intros Hs Hw Hn. rewrite accumulate_all_integer by assumption.
  pose proof (max_canvases_range Hs Hw) as HM.
  assert (HS : samples_within 0 (0 + 255 * Z.of_nat (length ns)) (sum_canvases ns)).
  { apply sum_within; [assumption|]. apply Forall_zeros. lia. }
  rewrite (integer_canvas_canon HS) by lia.
  rewrite of_Z_binary64 by lia. reflexivity.
Qed.

Local Close Scope Z_scope.

Lemma accumulate_files_canvases (files : list (array2 (rgb Byte.byte))) :
  Forall (has_shape 672 960) files ->
  Forall (has_shape 672 672) (map integer_canvas_of files) /\
  Forall (samples_within 0 255) (map integer_canvas_of files) /\
  accumulate_files files =
    accumulate_all (map integer_canvas (map integer_canvas_of files)).
Proof.
  intros Hs. unfold accumulate_files, accumulate_all.
  generalize (Some accumulator_init). 
  induction Hs as [|file files Hf _ IH]; intros acc.
  - repeat split; constructor.
  - destruct (differences_square_integer Hf) as [D [ED [SD [WD EF]]]].
    assert (EI : integer_canvas_of file = D) by (unfold integer_canvas_of; now rewrite ED).
    destruct (IH (match acc with
                  | None => None
                  | Some a => accumulate a (integer_canvas D)
                  end)) as [S1 [S2 S3]].
    cbn [map fold_left]. rewrite EI, EF.
    split; [constructor; assumption|]. split; [constructor; assumption|].
    rewrite <- S3. destruct acc; reflexivity.
Qed.

(** C6. Accumulation does not depend on the order: for canvases whose
    samples are the integers 0..255 (as every per-file difference canvas is)
    and fewer than 2^53/255 of them, any permutation gives the same sum
    canvas and the same maximum, namely the element-wise sum and the largest
    sample; and the pass over the decoded files of a directory gives the
    same accumulator, the same scaled canvas and the same heat map for any
    order of the files. *)
Theorem accumulation_order_independent (ns ns' : list (array2 Z))
    (files files' : list (array2 (rgb Byte.byte))) :
  Permutation ns ns' ->
  Forall (has_shape 672 672) ns -> Forall (samples_within 0 255) ns ->
  (255 * Z.of_nat (length ns) < 2 ^ 53)%Z ->
  Permutation files files' ->
  Forall (has_shape 672 960) files ->
  (255 * Z.of_nat (length files) < 2 ^ 53)%Z ->
  (accumulate_all (map integer_canvas ns) = accumulate_all (map integer_canvas ns') /\
   accumulate_all (map integer_canvas ns) =
     Some {| res := integer_canvas (sum_canvases ns);
             allover_max := of_Z binary64 (max_canvases ns) |}) /\
  (accumulate_files files = accumulate_files files' /\
   overall_difference files = overall_difference files' /\
   compute_overall_difference files = compute_overall_difference files').
Proof.
  intros HP Hs Hw Hn HPf Hsf Hnf.
  assert (Canvases : forall ms ms' : list (array2 Z),
            Permutation ms ms' ->
            Forall (has_shape 672 672) ms -> Forall (samples_within 0 255) ms ->
            (255 * Z.of_nat (length ms) < 2 ^ 53)%Z ->
            accumulate_all (map integer_canvas ms) =
            accumulate_all (map integer_canvas ms')).
  { intros ms ms' P S W L.
    rewrite (accumulate_all_closed_form S W L).
    rewrite (@accumulate_all_closed_form ms').
    - now rewrite (sum_canvases_permutation P), (max_canvases_permutation P).
    - eapply Permutation_Forall; eassumption.
    - eapply Permutation_Forall; eassumption.
    - now rewrite <- (Permutation_length P). }
  split; [split; [now apply Canvases | now apply accumulate_all_closed_form]|].
  assert (Hsf' : Forall (has_shape 672 960) files')
    by (eapply Permutation_Forall; eassumption).
  destruct (accumulate_files_canvases Hsf) as [S1 [W1 E1]].
  destruct (accumulate_files_canvases Hsf') as [_ [_ E2]].
  assert (E : accumulate_files files = accumulate_files files').
  { rewrite E1, E2. apply Canvases; try assumption.
    - now apply Permutation_map.
    - now rewrite length_map. }
  split; [exact E|].
  unfold compute_overall_difference, overall_difference. now rewrite E.
Qed.

Lemma has_shape_gray_composite : has_shape 672 960 gray_composite.
Proof. apply has_shapeb_spec. vm_compute. reflexivity. Qed.

Lemma accumulation_order_independent_witness :
  Permutation [flat_canvas 0; flat_canvas 5] [flat_canvas 5; flat_canvas 0] /\
  Forall (has_shape 672 672) [flat_canvas 0; flat_canvas 5] /\
  Forall (samples_within 0 255) [flat_canvas 0; flat_canvas 5] /\
  (255 * Z.of_nat (length [flat_canvas 0; flat_canvas 5]) < 2 ^ 53)%Z /\
  Permutation [black_composite; gray_composite] [gray_composite; black_composite] /\
  Forall (has_shape 672 960) [black_composite; gray_composite] /\
  (255 * Z.of_nat (length [black_composite; gray_composite]) < 2 ^ 53)%Z /\
  accumulate_all (map integer_canvas [flat_canvas 0; flat_canvas 5]) =
    accumulate_all (map integer_canvas [flat_canvas 5; flat_canvas 0]) /\
  accumulate_files [black_composite; gray_composite] =
    accumulate_files [gray_composite; black_composite].
Proof.
  assert (H1 : Permutation [flat_canvas 0; flat_canvas 5]
                           [flat_canvas 5; flat_canvas 0]) by apply perm_swap.
  assert (H2 : Forall (has_shape 672 672) [flat_canvas 0; flat_canvas 5]).
  { apply Forall_cons; [apply has_shape_zeros|].
    apply Forall_cons; [apply has_shape_zeros | apply Forall_nil]. }
  assert (H3 : Forall (samples_within 0 255) [flat_canvas 0; flat_canvas 5]).
  { apply Forall_cons; [apply Forall_zeros; lia|].
    apply Forall_cons; [apply Forall_zeros; lia | apply Forall_nil]. }
  assert (H4 : (255 * Z.of_nat (length [flat_canvas 0; flat_canvas 5]) < 2 ^ 53)%Z).
  { cbn [length]. lia. }
  assert (H5 : Permutation [black_composite; gray_composite]
                           [gray_composite; black_composite]) by apply perm_swap.
  assert (H6 : Forall (has_shape 672 960) [black_composite; gray_composite]).
  { apply Forall_cons; [apply has_shape_black_composite|].
    apply Forall_cons; [apply has_shape_gray_composite | apply Forall_nil]. }
  assert (H7 : (255 * Z.of_nat (length [black_composite; gray_composite]) < 2 ^ 53)%Z).
  { cbn [length]. lia. }
  split; [exact H1|]. split; [exact H2|]. split; [exact H3|].
  split; [exact H4|]. split; [exact H5|]. split; [exact H6|].
  split; [exact H7|].
  pose proof (accumulation_order_independent H1 H2 H3 H4 H5 H6 H7) as W.
  split; [exact (proj1 (proj1 W)) | exact (proj1 (proj2 W))].
Defined.

(** ** The difference canvas, sample by sample *)

Lemma nth_grid {B : Type} (f : nat -> nat -> B) (rows cols r c : nat) (d : B) :
  r < rows -> c < cols ->
  nth (r * cols + c)
      (flat_map (fun r => map (f r) (seq 0 cols)) (seq 0 rows)) d = f r c.
Proof.
  intros Hr Hc.
  assert (E : flat_map (fun r => map (f r) (seq 0 cols)) (seq 0 rows) =
              map (fun i => f (i / cols) (i mod cols)) (seq 0 (rows * cols))).
  { rewrite <- flat_map_seq_grid. apply flat_map_ext. intros r'.
    apply map_ext_in. intros c' Hc'. apply in_seq in Hc'.
    rewrite Nat.div_add_l, Nat.div_small, Nat.add_0_r by lia.
    rewrite Nat.add_comm, Nat.Div0.mod_add, Nat.mod_small by lia. reflexivity. }
  rewrite E.
  assert (Hi : r * cols + c < rows * cols) by nia.
  rewrite (nth_indep _ d (f (0 / cols) (0 mod cols)))
    by now rewrite length_map, length_seq.
  rewrite (map_nth (fun i => f (i / cols) (i mod cols)) (seq 0 (rows * cols)) 0).
  rewrite seq_nth by assumption. cbn [Nat.add].
  rewrite Nat.div_add_l, Nat.div_small, Nat.add_0_r by lia.
  rewrite Nat.add_comm, Nat.Div0.mod_add, Nat.mod_small by lia. reflexivity.
Qed.

Lemma nth_extract_cells {A : Type} (p rows cols off r c : nat) (img : array2 A) :
  r < rows -> c < cols ->
  nth (r * cols + c) (extract_cells p rows cols off img) [] =
  crop (r * p) ((r + 1) * p) (p * (c + off)) (p * (c + off + 1)) img.
Proof.
  intros Hr Hc. unfold extract_cells.
  exact (nth_grid (fun r c => crop (r * p) ((r + 1) * p) (p * (c + off))
                                   (p * (c + off + 1)) img) [] Hr Hc).
Qed.

Lemma nth_map2 {X Y Z : Type} (h : X -> Y -> Z) (l1 : list X) (l2 : list Y)
    (i : nat) (dx : X) (dy : Y) (dz : Z) :
  i < length l1 -> i < length l2 ->
  nth i (map2 h l1 l2) dz = h (nth i l1 dx) (nth i l2 dy).
Proof.
  revert l2 i. induction l1 as [|x l1 IH]; intros [|y l2] i H1 H2;
    simpl in *; try lia.
  destruct i as [|i]; [reflexivity|]. apply IH; lia.
Qed.

Lemma px_map2 {X Y Z : Type} (f : X -> Y -> Z) (dx : X) (dy : Y) (dz : Z)
    (h w : nat) (a : array2 X) (b : array2 Y) (y x : nat) :
  has_shape h w a -> has_shape h w b -> y < h -> x < w ->
  px dz (map2 (map2 f) a b) y x = f (px dx a y x) (px dy b y x).
Proof.
  intros [La Ra] [Lb Rb] Hy Hx. unfold px.
  rewrite (nth_indep _ [] (map2 f [] []))
    by (rewrite length_map2; lia).
  rewrite (nth_map2 (map2 f) a b [] []) by lia.
  rewrite Forall_nth in Ra, Rb.
  apply nth_map2.
  - rewrite (Ra y []) by lia. exact Hx.
  - rewrite (Rb y []) by lia. exact Hx.
Qed.

Lemma cell_position (y : nat) : y / 96 * 96 + y mod 96 = y.
Proof. pose proof (Nat.div_mod_eq y 96). lia. Qed.

(** The difference canvas computed on the 8-bit samples, sample by sample:
    the sample at [(y, x)] compares the pixel of the composite at row [y],
    column [x + 288] with the pixel at the same place of the neutral cell
    (cell row 3, cell column 6 of the composite). *)
Lemma integer_differences_px (decoded : array2 (rgb Byte.byte)) (D : array2 Z)
    (y x : nat) :
  has_shape 672 960 decoded ->
  integer_differences decoded = Some D ->
  y < 672 -> x < 672 ->
  px 0%Z D y x =
  level_difference (px black8 decoded y (x + 288))
                   (px black8 decoded (288 + y mod 96) (576 + x mod 96)).
Proof.
  intros Hd ED Hy Hx. unfold integer_differences in ED. cbv zeta in ED.
  set (cells := get_generated_images 96 decoded) in *.
  destruct (@extract_cells_shape _ 96 7 7 3 672 960 decoded Hd)
    as [Lc Sc]; [lia | lia |].
  fold (get_generated_images 96 decoded) in Lc, Sc. fold cells in Lc, Sc.
  set (n := nth 24 cells []) in *.
  assert (Sn : has_shape 96 96 n).
  { rewrite Forall_nth in Sc. apply Sc. unfold array2 in *. rewrite Lc. simpl. lia. }
  set (Dcells := map (fun c => map2 (map2 level_difference) c n) cells) in *.
  assert (SD : Forall (has_shape 96 96) Dcells).
  { apply Forall_map. eapply Forall_impl; [|exact Sc].
    intros c Hc. now apply has_shape_map2. }
  assert (LD : length Dcells = 49).
  { unfold Dcells. rewrite length_map. unfold array2 in *. rewrite Lc. reflexivity. }
  destruct (@tile_frame_spec Z 0%Z 96 7 7 Dcells) as [D' [ED' [_ PxD]]];
    [unfold array2 in *; rewrite LD; simpl; lia | exact SD |].
  rewrite ED in ED'. apply some_eq in ED'. subst D'.
  rewrite (PxD y x) by (simpl; lia). cbv zeta.
  assert (Hr : y / 96 < 7) by (apply Nat.Div0.div_lt_upper_bound; lia).
  assert (Hc : x / 96 < 7) by (apply Nat.Div0.div_lt_upper_bound; lia).
  assert (Hym : y mod 96 < 96) by (apply Nat.mod_upper_bound; lia).
  assert (Hxm : x mod 96 < 96) by (apply Nat.mod_upper_bound; lia).
  unfold array2 in *.
  destruct (Nat.ltb_spec (y / 96 * 7 + x / 96) (length Dcells)) as [Hi|Hi]; [|lia].
  unfold Dcells.
  rewrite (nth_indep _ [] ((fun c => map2 (map2 level_difference) c n) []))
    by (rewrite length_map; unfold array2 in *; rewrite Lc; lia).
  rewrite (map_nth (fun c => map2 (map2 level_difference) c n) cells []).
  assert (Sk : has_shape 96 96 (nth (y / 96 * 7 + x / 96) cells [])).
  { rewrite Forall_nth in Sc. apply Sc. unfold array2 in *. rewrite Lc. lia. }
  rewrite (@px_map2 _ _ _ level_difference black8 black8 0%Z 96 96 _ _ _ _ Sk Sn Hym Hxm).
  destruct Hd as [Ld Rd].
  f_equal.
  - pose proof (nth_extract_cells 96 3 decoded Hr Hc) as E.
    unfold cells, get_generated_images. unfold array2 in *. rewrite E.
    rewrite px_crop by lia. f_equal.
    + pose proof (cell_position y). lia.
    + pose proof (cell_position x). lia.
  - pose proof (@nth_extract_cells _ 96 7 7 3 3 3 decoded) as E.
    unfold n, cells, get_generated_images. unfold array2 in *.
    change (3 * 7 + 3) with 24 in E. rewrite E by lia.
    rewrite px_crop by lia. f_equal.
Qed.

(** The per-file difference canvas of a composite of 672 by 960 pixels
    always exists, has 672 by 672 samples, and its sample at [(y, x)] is
    the largest absolute channel difference between the pixel at row [y],
    column [x + 288] of the file and the pixel at the same offset inside the
    neutral cell, whose corner is at row 288, column 576; the value is an
    integer between 0 and 255, held exactly as a float64. *)
Theorem difference_canvas_pointwise (decoded : array2 (rgb Byte.byte)) :
  has_shape 672 960 decoded ->
  exists canvas,
    differences_square decoded = Some canvas /\
    has_shape 672 672 canvas /\
    forall y x, y < 672 -> x < 672 ->
      px fzero canvas y x =
      of_Z binary64
        (level_difference (px black8 decoded y (x + 288))
                          (px black8 decoded (288 + y mod 96) (576 + x mod 96))) /\
      (0 <= level_difference (px black8 decoded y (x + 288))
                             (px black8 decoded (288 + y mod 96) (576 + x mod 96))
         <= 255)%Z.
Proof.
  intros Hd.
  destruct (differences_square_integer Hd) as [D [ED [SD [WD EF]]]].
  exists (integer_canvas D). split; [exact EF|].
  split; [now apply has_shape_map|].
  intros y x Hy Hx. split; [|apply level_difference_range].
  unfold integer_canvas.
  change fzero with (of_Z binary64 0).
  rewrite px_map. f_equal.
  now apply integer_differences_px.
Qed.

Lemma difference_canvas_pointwise_witness :
  has_shape 672 960 gray_composite /\
  exists canvas,
    differences_square gray_composite = Some canvas /\
    has_shape 672 672 canvas.
Proof.
  split; [exact has_shape_gray_composite|].
  destruct (difference_canvas_pointwise has_shape_gray_composite)
    as [canvas [E [S _]]].
  exists canvas. split; assumption.
Defined.

(** ** Symmetry of the pixel difference *)

Lemma binary_round_aux_abs (prec emax : Z) (s : bool) (m e : Z) (l : location) :
  SFabs (binary_round_aux prec emax s m e l) =
  SFabs (binary_round_aux prec emax (negb s) m e l).
Proof.
  unfold binary_round_aux.
  destruct (shr_fexp prec emax m e l) as [mrs e'].
  destruct (shr_fexp prec emax _ e' loc_Exact) as [mrs' e''].
  destruct (shr_m mrs'); [reflexivity | | reflexivity].
  destruct (Z.leb e'' (emax - prec)); reflexivity.
Qed.

Lemma binary_normalize_abs (prec emax : Z) (z e : Z) :
  SFabs (binary_normalize prec emax (- z) e false) =
  SFabs (binary_normalize prec emax z e false).
Proof.
  destruct z as [|m|m]; [reflexivity | |]; cbn [Z.opp binary_normalize];
    unfold binary_round;
    destruct (shl_align m e _) as [mz ez].
  - apply (binary_round_aux_abs prec emax true).
  - apply (binary_round_aux_abs prec emax false).
Qed.

Lemma fabs_fsub_comm (fmt : format) (a b : float) :
  fabs (fsub fmt a b) = fabs (fsub fmt b a).
Proof.
  unfold fabs, fsub.
  destruct a as [sa|sa| |sa ma ea], b as [sb|sb| |sb mb eb];
    try reflexivity;
    try (destruct sa, sb; reflexivity).
  unfold SFsub. rewrite (Z.min_comm eb ea).
  rewrite <- binary_normalize_abs. f_equal. f_equal. lia.
Qed.

Lemma max_error_comm (fmt : format) (p1 p2 : rgb float) :
  max_error fmt p1 p2 = max_error fmt p2 p1.
Proof.
  unfold max_error, channel_error.
  now rewrite (fabs_fsub_comm fmt (red p2)), (fabs_fsub_comm fmt (green p2)),
    (fabs_fsub_comm fmt (blue p2)).
Qed.

Lemma zip_with_comm {X Z : Type} (f : X -> X -> option Z) (l1 l2 : list X) :
  (forall x y, f x y = f y x) -> zip_with f l1 l2 = zip_with f l2 l1.
Proof.
  intros Hf. revert l2. induction l1 as [|x l1 IH]; intros [|y l2];
    try reflexivity.
  cbn [zip_with]. now rewrite Hf, IH.
Qed.

(** [get_max_difference] does not depend on the order of its arguments:
    the absolute value removes the sign of each channel difference, for
    every sample (NaN, infinities and zeros of either sign included); two
    arrays that do not combine are rejected in either order. *)
Theorem get_max_difference_symmetric (fmt : format) (img1 img2 : array2 (rgb float)) :
  get_max_difference fmt img1 img2 = get_max_difference fmt img2 img1.
Proof.
  unfold get_max_difference, elementwise.
  apply zip_with_comm. intros r1 r2.
  apply zip_with_comm. intros p1 p2.
  now rewrite max_error_comm.
Qed.

(** ** Equal pixels and zero differences *)

Lemma canon_zero_iff (prec z : Z) : canon prec z = fzero <-> z = 0%Z.
Proof.
  split; [|intros ->; reflexivity].
  destruct z; [reflexivity | discriminate | discriminate].
Qed.

Lemma byte_level_inj (a b : Byte.byte) : byte_level a = byte_level b -> a = b.
Proof.
  unfold byte_level. intros H. apply N2Z.inj in H.
  assert (E : Byte.of_N (Byte.to_N a) = Byte.of_N (Byte.to_N b)) by now rewrite H.
  rewrite !Byte.of_to_N in E. now apply some_eq in E.
Qed.

Lemma level_difference_zero_iff (c n : rgb Byte.byte) :
  level_difference c n = 0%Z <-> c = n.
Proof.
  unfold level_difference. split.
  - intros H. destruct c as [r g b], n as [r' g' b']. cbn [red green blue] in H.
    assert (byte_level r = byte_level r') by lia.
    assert (byte_level g = byte_level g') by lia.
    assert (byte_level b = byte_level b') by lia.
    f_equal; now apply byte_level_inj.
  - intros ->. lia.
Qed.

(** On two decoded 8-bit images of one shape [get_max_difference] is zero
    exactly at the pixels where the two images are equal in all three
    channels. *)
Theorem difference_zero_iff_equal (h w : nat) (c n : array2 (rgb Byte.byte)) :
  has_shape h w c -> has_shape h w n ->
  exists d,
    get_max_difference binary32 (get_image_array c) (get_image_array n) = Some d /\
    has_shape h w d /\
    forall y x, y < h -> x < w ->
      (px fzero d y x = fzero <-> px black8 c y x = px black8 n y x).
Proof.
  intros Hc Hn.
  exists (map (map (canon 24)) (map2 (map2 level_difference) c n)).
  split; [exact (get_max_difference_bytes Hc Hn)|].
  split; [apply has_shape_map; exact (has_shape_map2 _ Hc Hn)|].
  intros y x Hy Hx.
  change fzero with (canon 24 0). rewrite px_map.
  rewrite (@px_map2 _ _ _ level_difference black8 black8 0%Z h w c n y x Hc Hn Hy Hx).
  change (canon 24 0) with fzero. rewrite canon_zero_iff.
  apply level_difference_zero_iff.
Qed.

Lemma difference_zero_iff_equal_witness :
  has_shape 96 96 gray_100 /\ has_shape 96 96 (solid black8) /\
  exists d,
    get_max_difference binary32 (get_image_array gray_100)
                       (get_image_array (solid black8)) = Some d /\
    (px fzero d 0 0 = fzero <-> px black8 gray_100 0 0 = px black8 (solid black8) 0 0).
Proof.
  assert (H1 : has_shape 96 96 gray_100)
    by (apply has_shapeb_spec; vm_compute; reflexivity).
  assert (H2 : has_shape 96 96 (solid black8))
    by (apply has_shapeb_spec; vm_compute; reflexivity).
  split; [exact H1|]. split; [exact H2|].
  destruct (difference_zero_iff_equal H1 H2) as [d [E [_ P]]].
  exists d. split; [exact E|]. apply P; lia.
Defined.

(** ** More images than cells *)

Section Overflow.
Context {A : Type}.
Variable zero : A.

Lemma enumerate_app {B : Type} (l1 l2 : list B) :
  enumerate (l1 ++ l2) =
  enumerate l1 ++ combine (seq (length l1) (length l2)) l2.
Proof.
  unfold enumerate. rewrite length_app, seq_app. cbn [Nat.add].
  apply combine_app. now rewrite length_seq.
Qed.

Lemma paste_cell_failed (p cols : nat) (l : list (nat * array2 A)) :
  fold_left (paste_cell p cols) l None = None.
Proof. induction l as [|ii l IH]; [reflexivity | exact IH]. Qed.

(** A block that starts below the last row of the frame is empty, and an
    image of two rows or more does not broadcast to it. *)
Lemma set_block_past_end (r0 r1 c0 c1 : nat) (frame image : array2 A) :
  length frame <= r0 -> 1 < length image ->
  set_block r0 r1 c0 c1 frame image = None.
Proof.
  intros Hf Hi. unfold set_block, slice.
  rewrite (skipn_all2 frame Hf), firstn_nil. cbn [length].
  unfold broadcast.
  destruct image as [|a [|b image]]; cbn [length] in *; try lia.
  reflexivity.
Qed.

Lemma tile_frame_overflow (p rows cols : nat) (images : list (array2 A)) :
  1 < p -> 0 < cols ->
  Forall (has_shape p p) images ->
  rows * cols < length images ->
  tile_frame zero p rows cols images = None.
Proof.
  intros Hp Hc Hs Hl.
  rewrite <- (firstn_skipn (rows * cols) images) in Hs |- *.
  apply Forall_app in Hs. destruct Hs as [Hs1 Hs2].
  assert (L1 : length (firstn (rows * cols) images) = rows * cols)
    by (rewrite length_firstn; lia).
  assert (L2 : length (skipn (rows * cols) images) = length images - rows * cols)
    by apply length_skipn.
  destruct (skipn (rows * cols) images) as [|x rest] eqn:Es;
    [cbn [length] in L2; lia|].
  destruct (@tile_frame_spec A zero p rows cols (firstn (rows * cols) images))
    as [canvas [E [[Lc _] _]]]; [lia | exact Hs1 |].
  unfold tile_frame in *. rewrite enumerate_app, fold_left_app, E, L1.
  cbn [length seq combine fold_left paste_cell fst snd].
  rewrite Nat.div_mul by lia.
  inversion Hs2 as [|? ? [Lx _] _]; subst.
  rewrite set_block_past_end by lia.
  apply paste_cell_failed.
Qed.

End Overflow.

Lemma Forall_repeat {X : Type} (P : X -> Prop) (x : X) (n : nat) :
  P x -> Forall P (repeat x n).
Proof.
  intros H. apply Forall_forall. intros y Hy.
  apply repeat_spec in Hy. now subst.
Qed.

(** [tile_to_square] holds at most 49 images of 96 by 96 samples: up to
    49 images it returns a frame of 672 by 672 samples in which the cells
    after the last image are zero; the fiftieth image is assigned to an empty
    slice, to which it does not broadcast, and the call fails. *)
Theorem tile_to_square_capacity (images : list (array2 float)) :
  Forall (has_shape 96 96) images ->
  (length images <= 49 ->
   exists frame,
     tile_to_square images = Some frame /\ has_shape 672 672 frame /\
     forall y x, y < 672 -> x < 672 ->
       length images <= y / 96 * 7 + x / 96 -> px fzero frame y x = fzero) /\
  (49 < length images -> tile_to_square images = None).
Proof.
  intros Hs. unfold tile_to_square. cbn [amap ndarray_list ndarray_sample].
  pose proof (Forall_has_shape_map (astype binary64) Hs) as Hs'.
  unfold array2 in *.
  split; intros Hl.
  - destruct (@tile_frame_spec float fzero 96 7 7
                (map (map (map (astype binary64))) images))
      as [frame [E [Sf Pf]]];
      [rewrite length_map; simpl; lia | exact Hs' |].
    exists frame. split; [exact E|]. split; [exact Sf|].
    intros y x Hy Hx Hfree. rewrite (Pf y x) by (simpl; lia). cbv zeta.
    rewrite length_map.
    destruct (Nat.ltb_spec (y / 96 * 7 + x / 96) (length images)); [lia|reflexivity].
  - apply tile_frame_overflow; [lia | lia | exact Hs' |].
    rewrite length_map. simpl. lia.
Qed.

Lemma tile_to_square_capacity_witness :
  Forall (has_shape 96 96) (repeat (solid fzero) 50) /\
  tile_to_square (repeat (solid fzero) 50) = None.
Proof.
  assert (H : Forall (has_shape 96 96) (repeat (solid fzero) 50)).
  { apply Forall_repeat. exact (has_shape_zeros fzero 96 96). }
  split; [exact H|].
  apply (proj2 (tile_to_square_capacity H)).
  rewrite repeat_length. lia.
Defined.

(** ** The number of cells of the annotated canvas *)

Lemma final_image_list_length {A : Type} (zero : A) (inp gen l : list (array2 A)) :
  final_image_list zero inp gen = Some l ->
  length l = 20 + length inp + length gen.
Proof.
  unfold final_image_list, concatenate.
  destruct (forallb _ _); [|discriminate].
  intros E. apply some_eq in E. subst l.
  cbn [concat]. rewrite !length_app, !length_slice, length_skipn.
  cbn [length black_image3 black_image app]. lia.
Qed.

Lemma final_image_list_ok {A : Type} (zero : A) (inp gen : list (array2 A)) :
  Forall (has_shape 96 96) inp -> Forall (has_shape 96 96) gen ->
  exists l, final_image_list zero inp gen = Some l /\ Forall (has_shape 96 96) l.
Proof.
  intros Hi Hg.
  assert (H : Forall (has_shape 96 96)
                (concat [ black_image3 zero; slice 0 7 gen;
                          black_image3 zero; slice 7 14 gen;
                          black_image3 zero; slice 14 21 gen;
                          black_image zero; inp; black_image zero; slice 21 28 gen;
                          black_image3 zero; slice 28 35 gen;
                          black_image3 zero; slice 35 42 gen;
                          black_image3 zero; skipn 42 gen ])).
  { cbn [concat]. pose proof (Forall_black_image3 zero) as H3.
    assert (H1 : Forall (has_shape 96 96) (black_image zero))
      by (constructor; [apply has_shape_zeros | constructor]).
    repeat (apply Forall_app; split);
      try exact H3; try exact H1; try exact Hi;
      try (apply Forall_slice; exact Hg);
      try (apply Forall_skipn_sub; exact Hg).
    constructor. }
  eexists. split; [apply concatenate_ok; exact H | exact H].
Qed.

(** [save_generated_output] places 20 spacers, the images of [inp] and the
    generated images on a canvas of 70 cells.  With images of 96 by 96
    pixels it succeeds, and hands a 672 by 960 image to the encoder, when
    the two stacks hold at most 50 images together; with more it fails on
    the assignment of the 71st cell. *)
Theorem save_generated_output_capacity (inp generated_outp : list (array2 (rgb float))) :
  Forall (has_shape 96 96) inp -> Forall (has_shape 96 96) generated_outp ->
  (length inp + length generated_outp <= 50 ->
   exists saved,
     save_generated_output inp generated_outp = Some saved /\
     has_shape 672 960 saved) /\
  (50 < length inp + length generated_outp ->
   save_generated_output inp generated_outp = None).
Proof.
  intros Hi Hg. unfold save_generated_output, final_image.
  set (z := RGB fzero fzero fzero).
  set (inp' := amap (astype binary64) inp).
  set (gen' := amap (astype binary64) generated_outp).
  assert (Hi' : Forall (has_shape 96 96) inp')
    by (apply Forall_has_shape_map, Hi).
  assert (Hg' : Forall (has_shape 96 96) gen')
    by (apply Forall_has_shape_map, Hg).
  assert (Li : length inp' = length inp)
    by (unfold inp'; simpl; now rewrite length_map).
  assert (Lg : length gen' = length generated_outp)
    by (unfold gen'; simpl; now rewrite length_map).
  destruct (final_image_list_ok z Hi' Hg') as [l [E Sl]].
  pose proof (final_image_list_length _ _ _ E) as Ll.
  rewrite Li, Lg in Ll. rewrite E.
  split; intros Hl.
  - destruct (@tile_frame_spec _ z 96 7 10 l)
      as [canvas [Ec [Sc _]]]; [simpl; lia | exact Sl |].
    rewrite Ec. eexists. split; [reflexivity|].
    unfold save_image. apply has_shape_map. rewrite amap_image.
    apply has_shape_map. exact Sc.
  - rewrite tile_frame_overflow; [reflexivity | lia | lia | exact Sl |].
    simpl. lia.
Qed.

Lemma save_generated_output_capacity_witness :
  Forall (has_shape 96 96) [face 100] /\
  Forall (has_shape 96 96) (repeat (face 0) 50) /\
  save_generated_output [face 100] (repeat (face 0) 50) = None.
Proof.
  assert (H1 : Forall (has_shape 96 96) [face 100]).
  { apply Forall_cons; [|apply Forall_nil].
    apply has_shapeb_spec. vm_compute. reflexivity. }
  assert (H2 : Forall (has_shape 96 96) (repeat (face 0) 50)).
  { apply Forall_repeat. apply has_shapeb_spec. vm_compute. reflexivity. }
  split; [exact H1|]. split; [exact H2|].
  apply (proj2 (save_generated_output_capacity H1 H2)).
  rewrite repeat_length. cbn [length]. lia.
Defined.

(** ** The heat map of a single file *)

Lemma self_ratio_check :
  forallb (fun k => sf_eqb (fdiv binary64 (canon 53 (Z.of_nat k)) (canon 53 (Z.of_nat k)))
                           (canon 53 1)) (seq 1 255) = true.
Proof. vm_compute. reflexivity. Qed.

Lemma unit_ratio_check :
  forallb (fun k => sf_eqb (fdiv binary64 (canon 53 (Z.of_nat k)) (canon 53 1))
                           (canon 53 (Z.of_nat k)) &&
                    N.eqb (convert_L (canon 53 (Z.of_nat k))) (N.of_nat k))
          (seq 0 256) = true.
Proof. vm_compute. reflexivity. Qed.

Local Open Scope Z_scope.

Lemma self_ratio (M : Z) :
  1 <= M <= 255 -> fdiv binary64 (canon 53 M) (canon 53 M) = canon 53 1.
Proof.
  intros HM. pose proof self_ratio_check as C. rewrite forallb_forall in C.
  specialize (C (Z.to_nat M)). rewrite Z2Nat.id in C by lia.
  apply sf_eqb_eq, C, in_seq. lia.
Qed.

Lemma unit_ratio (z : Z) :
  0 <= z <= 255 ->
  fdiv binary64 (canon 53 z) (canon 53 1) = canon 53 z /\
  convert_L (canon 53 z) = Z.to_N z.
Proof.
  intros Hz. pose proof unit_ratio_check as C. rewrite forallb_forall in C.
  specialize (C (Z.to_nat z)). rewrite Z2Nat.id in C by lia.
  destruct (proj1 (andb_true_iff _ _) (C ltac:(apply in_seq; lia))) as [C1 C2].
  split; [now apply sf_eqb_eq|].
  apply N.eqb_eq in C2. rewrite C2. lia.
Qed.

Lemma zip_add_zeros (h w : nat) (D : array2 Z) :
  has_shape h w D -> zip_add (zeros 0 h w) D = D.
Proof.
  intros HD. apply (@array2_ext Z 0 h w); [|exact HD|].
  - apply has_shape_zip_add; [apply has_shape_zeros | exact HD].
  - intros y x Hy Hx. unfold zip_add.
    rewrite (@px_map2 _ _ _ Z.add 0 0 0 h w _ _ y x (has_shape_zeros 0 h w) HD Hy Hx).
    now rewrite px_zeros.
Qed.

Lemma In_samples_within (lo hi : Z) (D : array2 Z) (z : Z) :
  samples_within lo hi D -> In z (concat D) -> lo <= z <= hi.
Proof.
  intros HD Hz. apply in_concat in Hz. destruct Hz as [row [Hrow Hz]].
  unfold samples_within in HD. rewrite Forall_forall in HD.
  specialize (HD row Hrow). rewrite Forall_forall in HD. now apply HD.
Qed.

Local Close Scope Z_scope.

(** The pass over one file whose difference canvas holds integers between
    0 and 255, one of them positive: the divisor of the final scaling is
    1.0, the scaled canvas is the difference canvas, and its gray levels are
    the differences themselves. *)
Lemma overall_difference_single (decoded : array2 (rgb Byte.byte)) (D : array2 Z) :
  has_shape 672 960 decoded ->
  integer_differences decoded = Some D ->
  (0 < canvas_max D)%Z ->
  overall_difference [decoded] = Some (integer_canvas D) /\
  save_image_black_and_white (integer_canvas D) = map (map Z.to_N) D.
Proof.
  intros Hd ED HM.
  destruct (differences_square_integer Hd) as [D' [ED' [SD [WD EF]]]].
  rewrite ED in ED'. apply some_eq in ED'. subst D'.
  assert (Hfiles : Forall (has_shape 672 960) [decoded])
    by (apply Forall_cons; [exact Hd | apply Forall_nil]).
  destruct (accumulate_files_canvases Hfiles) as [S1 [S2 S3]].
  assert (EI : integer_canvas_of decoded = D)
    by (unfold integer_canvas_of; now rewrite ED).
  change (map integer_canvas_of [decoded]) with [integer_canvas_of decoded]
    in S1, S2, S3.
  rewrite EI in S1, S2, S3.
  rewrite (accumulate_all_integer S1 S2) in S3 by (cbn [length]; lia).
  unfold sum_canvases, max_canvases in S3. cbn [fold_left] in S3.
  rewrite (zip_add_zeros SD) in S3.
  destruct (@amax_canvas 672 672 255 D SD ltac:(lia) ltac:(lia) WD ltac:(lia))
    as [EM HMr].
  rewrite Z.max_r in S3 by lia.
  pose proof (integer_canvas_canon WD ltac:(reflexivity)) as EC.
  split.
  - unfold overall_difference. rewrite S3. cbv beta iota. cbn [res allover_max].
    unfold normalize_image. unfold array2 in *. rewrite EM.
    rewrite self_ratio by lia.
    rewrite amap_array2, EC. f_equal.
    rewrite map_map.
    apply map_ext_Forall. eapply Forall_impl; [|exact WD].
    intros row Hrow. rewrite map_map.
    apply map_ext_Forall. eapply Forall_impl; [|exact Hrow].
    intros z Hz. cbv beta in Hz. apply (unit_ratio Hz).
  - unfold save_image_black_and_white. rewrite EC, map_map.
    apply map_ext_Forall. eapply Forall_impl; [|exact WD].
    intros row Hrow. rewrite map_map.
    apply map_ext_Forall. eapply Forall_impl; [|exact Hrow].
    intros z Hz. cbv beta in Hz. apply (unit_ratio Hz).
Qed.

Lemma px_In {X : Type} (d : X) (h w : nat) (a : array2 X) (y x : nat) :
  has_shape h w a -> y < h -> x < w -> In (px d a y x) (concat a).
Proof.
  intros [La Ra] Hy Hx. unfold px. apply in_concat.
  exists (nth y a []). split; [apply nth_In; lia|].
  apply nth_In. rewrite Forall_nth in Ra. rewrite (Ra y []) by lia. exact Hx.
Qed.

(** For a directory with a single composite in which some pixel of a
    generated image differs from the pixel at the same place of the neutral
    image, the final scaling divides by [max/allover_max = 1.0] and changes
    nothing: the heat map handed to the encoder is the difference canvas
    itself, whose gray level at [(y, x)] is the largest channel difference
    at that pixel; the strongest difference keeps its own value and is not
    stretched to 255. *)
Theorem single_file_heat_map (decoded : array2 (rgb Byte.byte)) :
  has_shape 672 960 decoded ->
  (exists y x, y < 672 /\ x < 672 /\
     px black8 decoded y (x + 288) <>
     px black8 decoded (288 + y mod 96) (576 + x mod 96)) ->
  exists d,
    differences_square decoded = Some d /\
    overall_difference [decoded] = Some d /\
    compute_overall_difference [decoded] = Some (save_image_black_and_white d) /\
    forall y x, y < 672 -> x < 672 ->
      px 0%N (save_image_black_and_white d) y x =
      Z.to_N (level_difference (px black8 decoded y (x + 288))
                               (px black8 decoded (288 + y mod 96) (576 + x mod 96))).
Proof.
  intros Hd [y0 [x0 [Hy0 [Hx0 Hne]]]].
  destruct (differences_square_integer Hd) as [D [ED [SD [WD EF]]]].
  assert (HM : (0 < canvas_max D)%Z).
  { pose proof (integer_differences_px Hd ED Hy0 Hx0) as P.
    pose proof (level_difference_range (px black8 decoded y0 (x0 + 288))
                  (px black8 decoded (288 + y0 mod 96) (576 + x0 mod 96))) as R.
    assert (N0 : level_difference (px black8 decoded y0 (x0 + 288))
                   (px black8 decoded (288 + y0 mod 96) (576 + x0 mod 96)) <> 0%Z)
      by (intros E0; apply Hne; now apply level_difference_zero_iff).
    pose proof (Zmaximum_ge (concat D) (px 0%Z D y0 x0)
                  (px_In 0%Z SD Hy0 Hx0)) as G.
    unfold canvas_max. lia. }
  destruct (overall_difference_single Hd ED HM) as [E1 E2].
  exists (integer_canvas D).
  split; [exact EF|]. split; [exact E1|].
  split; [unfold compute_overall_difference; now rewrite E1|].
  intros y x Hy Hx. rewrite E2.
  change 0%N with (Z.to_N 0). rewrite px_map. f_equal.
  now apply integer_differences_px.
Qed.

Lemma has_shape_marked_composite : has_shape 672 960 marked_composite.
Proof. apply has_shapeb_spec. vm_compute. reflexivity. Qed.

Lemma single_file_heat_map_witness :
  has_shape 672 960 marked_composite /\
  (exists y x, y < 672 /\ x < 672 /\
     px black8 marked_composite y (x + 288) <>
     px black8 marked_composite (288 + y mod 96) (576 + x mod 96)) /\
  exists d,
    differences_square marked_composite = Some d /\
    compute_overall_difference [marked_composite] =
      Some (save_image_black_and_white d) /\
    px 0%N (save_image_black_and_white d) 0 0 = 245%N.
Proof.
  assert (H2 : exists y x, y < 672 /\ x < 672 /\
            px black8 marked_composite y (x + 288) <>
            px black8 marked_composite (288 + y mod 96) (576 + x mod 96)).
  { exists 0, 0. split; [lia|]. split; [lia|]. vm_compute. discriminate. }
  split; [exact has_shape_marked_composite|]. split; [exact H2|].
  destruct (single_file_heat_map has_shape_marked_composite H2)
    as [d [E1 [_ [E3 P]]]].
  exists d. split; [exact E1|]. split; [exact E3|].
  rewrite P by lia. vm_compute. reflexivity.
Defined.

(** ** A black photograph *)

Lemma samples_zeros_rgb (v : float) (h w : nat) :
  samples (zeros (RGB v v v) h w) = repeat v (h * w * 3).
Proof.
  cbn [samples ndarray_list ndarray_rgb]. unfold zeros.
  assert (R : forall n, flat_map (fun c : rgb float => [red c; green c; blue c])
                          (repeat (RGB v v v) n) = repeat v (n * 3)).
  { induction n as [|n IH]; [reflexivity|]. cbn [repeat flat_map]. now rewrite IH. }
  induction h as [|h IH]; [reflexivity|].
  cbn [repeat flat_map]. rewrite IH, R, <- repeat_app. f_equal. lia.
Qed.

(** A photograph whose samples are all zero has the maximum zero: the
    divisor [img.max()/2] is zero, every sample becomes [0/0], and the
    network input is NaN everywhere; no error is raised. *)
Theorem black_photo_gives_nan (h w : nat) :
  0 < h -> 0 < w ->
  load_image_as_network_input (zeros black8 h w) =
  Some (zeros (RGB S754_nan S754_nan S754_nan) h w).
Proof.
  intros Hh Hw. unfold load_image_as_network_input, get_image_array.
  rewrite map_zeros.
  change (rgb_map of_byte black8) with (RGB fzero fzero fzero).
  unfold normalize_image. rewrite samples_zeros_rgb.
  rewrite amax_repeat by (reflexivity || nia).
  rewrite !amap_image, !map_zeros. reflexivity.
Qed.

Lemma black_photo_gives_nan_witness :
  0 < 96 /\ 0 < 96 /\
  load_image_as_network_input (zeros black8 96 96) =
  Some (zeros (RGB S754_nan S754_nan S754_nan) 96 96).
Proof.
  assert (H : 0 < 96) by lia.
  split; [exact H|]. split; [exact H|].
  exact (black_photo_gives_nan H H).
Defined.

(** ** What the difference pass does not read *)

Lemma integer_canvas_inj_px (d1 d2 : array2 (rgb Byte.byte)) (D1 D2 : array2 Z) :
  has_shape 672 960 d1 -> has_shape 672 960 d2 ->
  integer_differences d1 = Some D1 -> integer_differences d2 = Some D2 ->
  has_shape 672 672 D1 -> has_shape 672 672 D2 ->
  (forall y x, y < 672 -> 288 <= x < 960 -> px black8 d1 y x = px black8 d2 y x) ->
  D1 = D2.
Proof.
  intros H1 H2 E1 E2 S1 S2 Hpx.
  apply (@array2_ext Z 0%Z 672 672); [exact S1 | exact S2 |].
  intros y x Hy Hx.
  rewrite (integer_differences_px H1 E1 Hy Hx), (integer_differences_px H2 E2 Hy Hx).
  assert (Hym : y mod 96 < 96) by (apply Nat.mod_upper_bound; lia).
  assert (Hxm : x mod 96 < 96) by (apply Nat.mod_upper_bound; lia).
  rewrite (Hpx y (x + 288)) by lia.
  rewrite (Hpx (288 + y mod 96) (576 + x mod 96)) by lia.
  reflexivity.
Qed.

(** The difference pass reads the 7 by 7 cells on the right of a composite
    only: two composites that agree from column 288 on (whatever their
    input image and spacer cells hold) have the same difference canvas,
    and a directory made of one or the other gives the same heat map. *)
Theorem difference_ignores_input_columns (d1 d2 : array2 (rgb Byte.byte)) :
  has_shape 672 960 d1 -> has_shape 672 960 d2 ->
  (forall y x, y < 672 -> 288 <= x < 960 -> px black8 d1 y x = px black8 d2 y x) ->
  differences_square d1 = differences_square d2 /\
  compute_overall_difference [d1] = compute_overall_difference [d2].
Proof.
  intros H1 H2 Hpx.
  destruct (differences_square_integer H1) as [D1 [E1 [S1 [_ F1]]]].
  destruct (differences_square_integer H2) as [D2 [E2 [S2 [_ F2]]]].
  pose proof (integer_canvas_inj_px H1 H2 E1 E2 S1 S2 Hpx) as ED. subst D2.
  assert (E : differences_square d1 = differences_square d2) by now rewrite F1, F2.
  split; [exact E|].
  unfold compute_overall_difference, overall_difference, accumulate_files.
  cbn [fold_left]. now rewrite E.
Qed.

Lemma has_shape_left_marked_composite : has_shape 672 960 left_marked_composite.
Proof. apply has_shapeb_spec. vm_compute. reflexivity. Qed.

Lemma px_repeat {X : Type} (d v : X) (h w y x : nat) :
  y < h -> x < w -> px d (repeat (repeat v w) h) y x = v.
Proof.
  intros Hy Hx. unfold px.
  rewrite (nth_indep _ [] (repeat v w)) by now rewrite repeat_length.
  rewrite nth_repeat.
  rewrite (nth_indep _ d v) by now rewrite repeat_length.
  apply nth_repeat.
Qed.

Lemma px_left_marked (y x : nat) :
  y < 672 -> 288 <= x < 960 ->
  px black8 left_marked_composite y x = px black8 gray_composite y x.
Proof.
  intros Hy Hx. unfold gray_composite.
  rewrite px_repeat by lia.
  unfold left_marked_composite, px.
  rewrite (nth_indep _ [] (repeat (RGB Byte.xff Byte.xff Byte.xff) 288 ++
                           repeat (RGB Byte.x0a Byte.x0a Byte.x0a) 672))
    by (rewrite repeat_length; exact Hy).
  rewrite nth_repeat.
  rewrite app_nth2 by (rewrite repeat_length; lia).
  rewrite repeat_length.
  rewrite (nth_indep _ black8 (RGB Byte.x0a Byte.x0a Byte.x0a))
    by (rewrite repeat_length; lia).
  apply nth_repeat.
Qed.

Lemma difference_ignores_input_columns_witness :
  has_shape 672 960 left_marked_composite /\
  has_shape 672 960 gray_composite /\
  (forall y x, y < 672 -> 288 <= x < 960 ->
     px black8 left_marked_composite y x = px black8 gray_composite y x) /\
  differences_square left_marked_composite = differences_square gray_composite.
Proof.
  split; [exact has_shape_left_marked_composite|].
  split; [exact has_shape_gray_composite|].
  split; [exact px_left_marked|].
  exact (proj1 (difference_ignores_input_columns
                  has_shape_left_marked_composite has_shape_gray_composite
                  px_left_marked)).
Defined.

(** ** Generated images read back from the composite *)

(** The generated images cut out of the composite written by
    [save_generated_output] and read back without loss are the generated
    images, sample by sample, after the display mapping and the cut to 8
    bits: nothing else is lost, and no image is moved or mixed. *)
Theorem composite_round_trip (inp generated_outp : list (array2 (rgb float))) :
  length inp = 1 -> length generated_outp = 49 ->
  Forall (has_shape 96 96) inp -> Forall (has_shape 96 96) generated_outp ->
  exists saved,
    save_generated_output inp generated_outp = Some saved /\
    has_shape 672 960 (stored saved) /\
    get_generated_images 96 (get_image_array (stored saved)) =
    map (map (map (rgb_map quantise))) generated_outp.
Proof.
  intros Hi Hg Si Sg. unfold save_generated_output.
  set (z := RGB fzero fzero fzero).
  set (inp' := amap (astype binary64) inp).
  set (gen' := amap (astype binary64) generated_outp).
  assert (Hi' : length inp' = 1) by (unfold inp'; simpl; now rewrite length_map).
  assert (Hg' : length gen' = 49) by (unfold gen'; simpl; now rewrite length_map).
  assert (Si' : Forall (has_shape 96 96) inp')
    by (apply Forall_has_shape_map, Si).
  assert (Sg' : Forall (has_shape 96 96) gen')
    by (apply Forall_has_shape_map, Sg).
  destruct (get_generated_images_final_image z Hi' Hg' Si' Sg')
    as [canvas [Ec [Sc R]]].
  rewrite Ec. eexists. split; [reflexivity|].
  unfold stored, save_image. rewrite amap_image.
  split; [do 3 apply has_shape_map; exact Sc|].
  unfold get_image_array, get_generated_images in *.
  rewrite !extract_cells_map, R.
  unfold gen'. cbn [amap ndarray_list]. rewrite !map_map.
  apply map_ext. intros img. rewrite !map_map.
  apply map_ext. intros row. rewrite !map_map.
  apply map_ext. intros [r g b]. reflexivity.
Qed.

Lemma composite_round_trip_witness :
  length [face 100] = 1 /\ length numbered_faces = 49 /\
  Forall (has_shape 96 96) [face 100] /\
  Forall (has_shape 96 96) numbered_faces /\
  exists saved,
    save_generated_output [face 100] numbered_faces = Some saved /\
    get_generated_images 96 (get_image_array (stored saved)) =
    map (map (map (rgb_map quantise))) numbered_faces.
Proof.
  assert (H1 : length [face 100] = 1) by reflexivity.
  assert (H2 : length numbered_faces = 49) by reflexivity.
  assert (H3 : Forall (has_shape 96 96) [face 100]) by shapes.
  assert (H4 : Forall (has_shape 96 96) numbered_faces) by shapes.
  split; [exact H1|]. split; [exact H2|]. split; [exact H3|]. split; [exact H4|].
  destruct (composite_round_trip H1 H2 H3 H4) as [saved [E [_ R]]].
  exists saved. split; [exact E | exact R].
Defined.

(** ** The input photograph as the composite shows it *)

Lemma shown_level_check :
  forallb (fun k =>
             N.eqb (astype_uint8
                      (display (astype binary64
                         (network_input (of_Z binary32 255)
                                        (of_Z binary32 (Z.of_nat k))))))
                   (Z.to_N (shown_level (Z.of_nat k))))
          (seq 0 256) = true.
Proof. vm_compute. reflexivity. Qed.

Lemma shown_level_byte (b : Byte.byte) :
  astype_uint8 (display (astype binary64
                  (network_input (of_Z binary32 255) (of_byte b)))) =
  Z.to_N (shown_level (byte_level b)).
Proof.
  pose proof shown_level_check as C. rewrite forallb_forall in C.
  pose proof (byte_level_range b) as R.
  specialize (C (Z.to_nat (byte_level b))).
  rewrite Z2Nat.id in C by lia.
  apply N.eqb_eq. apply C. apply in_seq. lia.
Qed.

(** The input photograph goes through [load_image_as_network_input], the
    display mapping and the cut to 8 bits before it is written into cell
    (3, 1) of the composite.  For a photograph whose largest sample is 255
    the levels 0 and 64..255 come back unchanged, and the levels 1..63 come
    back one lower: [x/127.5 - 1] is rounded to a float32 and
    [astype('uint8')] cuts the fraction instead of rounding. *)
Theorem input_photo_as_shown (photo : array2 (rgb Byte.byte))
    (generated_outp : list (array2 (rgb float))) :
  has_shape 96 96 photo ->
  amax (samples (get_image_array photo)) = Some (of_Z binary32 255) ->
  length generated_outp = 49 -> Forall (has_shape 96 96) generated_outp ->
  exists i saved,
    load_image_as_network_input photo = Some i /\
    save_generated_output [i] generated_outp = Some saved /\
    crop 288 384 96 192 saved =
    map (map (rgb_map (fun b => Z.to_N (shown_level (byte_level b))))) photo.
Proof.
  intros Sp Hm Hg Sg.
  pose proof (load_image_as_network_input_eq photo Hm) as El.
  set (i := amap (network_input (of_Z binary32 255)) (get_image_array photo)) in *.
  assert (Si : has_shape 96 96 i).
  { unfold i, get_image_array. rewrite amap_image. do 2 apply has_shape_map. exact Sp. }
  set (z := RGB fzero fzero fzero).
  set (inp' := amap (astype binary64) [i]).
  set (gen' := amap (astype binary64) generated_outp).
  assert (Hi' : length inp' = 1) by reflexivity.
  assert (Hg' : length gen' = 49) by (unfold gen'; simpl; now rewrite length_map).
  assert (Si' : Forall (has_shape 96 96) inp').
  { apply Forall_has_shape_map. apply Forall_cons; [exact Si | apply Forall_nil]. }
  assert (Sg' : Forall (has_shape 96 96) gen')
    by (apply Forall_has_shape_map, Sg).
  destruct (final_image_cells z Hi' Hg' Si' Sg')
    as [l [canvas [E [El' [Sl [Ec T]]]]]].
  exists i, (save_image (amap display canvas)).
  split; [exact El|].
  split; [unfold save_generated_output; fold z inp' gen'; now rewrite Ec|].
  unfold save_image. rewrite amap_image, !crop_map.
  pose proof (@crop_tiled _ z 96 7 10 l canvas 3 1 T Sl) as Cr.
  assert (Hl : length l = 70) by (rewrite El', length_map; reflexivity).
  change (3 * 96) with 288 in Cr. change ((3 + 1) * 96) with 384 in Cr.
  change (96 * 1) with 96 in Cr. change (96 * (1 + 1)) with 192 in Cr.
  unfold array2 in *.
  rewrite Cr by lia.
  change (3 * 10 + 1) with 31. rewrite El'.
  rewrite (nth_indep _ [] (cell_image z inp' gen' Input))
    by (rewrite length_map; vm_compute; lia).
  rewrite map_nth.
  change (nth 31 annotated_layout Input) with Input.
  cbn [cell_image]. unfold inp'. cbn [amap ndarray_list map nth].
  unfold i, get_image_array. rewrite !amap_image, !map_map.
  apply map_ext. intros row. rewrite !map_map.
  apply map_ext. intros [r g b].
  unfold rgb_map. cbn [red green blue].
  f_equal; apply shown_level_byte.
Qed.

Lemma photo_40_maximum :
  amax (samples (get_image_array photo_40)) = Some (of_Z binary32 255).
Proof.
  rewrite samples_get_image_array, (@amax_canon 24).
  - replace (Zmaximum (levels_of photo_40)) with 255%Z by (vm_compute; reflexivity).
    reflexivity.
  - lia.
  - intros E. apply (f_equal (@length Z)) in E. vm_compute in E. discriminate.
  - eapply Forall_impl; [|apply levels_of_bounded].
    intros z Hz. cbv beta in Hz. change (2 ^ 24)%Z with 16777216%Z. lia.
Qed.

Lemma input_photo_as_shown_witness :
  has_shape 96 96 photo_40 /\
  amax (samples (get_image_array photo_40)) = Some (of_Z binary32 255) /\
  length numbered_faces = 49 /\ Forall (has_shape 96 96) numbered_faces /\
  exists i saved,
    load_image_as_network_input photo_40 = Some i /\
    save_generated_output [i] numbered_faces = Some saved /\
    px (RGB 0%N 0%N 0%N) (crop 288 384 96 192 saved) 0 0 = RGB 255%N 255%N 255%N /\
    px (RGB 0%N 0%N 0%N) (crop 288 384 96 192 saved) 1 0 = RGB 39%N 39%N 39%N.
Proof.
  assert (H1 : has_shape 96 96 photo_40)
    by (apply has_shapeb_spec; vm_compute; reflexivity).
  assert (H3 : length numbered_faces = 49) by reflexivity.
  assert (H4 : Forall (has_shape 96 96) numbered_faces) by shapes.
  split; [exact H1|]. split; [exact photo_40_maximum|].
  split; [exact H3|]. split; [exact H4|].
  destruct (input_photo_as_shown H1 photo_40_maximum H3 H4)
    as [i [saved [E1 [E2 E3]]]].
  exists i, saved. split; [exact E1|]. split; [exact E2|].
  rewrite E3. split; vm_compute; reflexivity.
Defined.

(** ** Files of the generation pass *)

Lemma name_in_spec (f : String.string) (names : list String.string) :
  name_in f names = true <-> In f names.
Proof.
  unfold name_in. rewrite existsb_exists. split.
  - intros [x [Hx E]]. apply String.eqb_eq in E. now subst.
  - intros H. exists f. split; [exact H | apply String.eqb_refl].
Qed.

Lemma write_file_other {C : Type} (name : String.string) (v : C)
    (d : directory C) (e : String.string * C) :
  fst e <> name -> In e d -> In e (write_file name v d).
Proof.
  intros Hne. induction d as [|[n c] d IH]; intros Hin; [contradiction|].
  cbn [write_file]. destruct Hin as [<- | Hin].
  - cbn [fst] in Hne. destruct (String.eqb_spec n name) as [E | _];
      [contradiction | now left].
  - destruct (String.eqb n name); right; [exact Hin | now apply IH].
Qed.

Lemma listdir_write_file {C : Type} (name : String.string) (v : C)
    (d : directory C) (f : String.string) :
  In f (listdir (write_file name v d)) <-> f = name \/ In f (listdir d).
Proof.
  unfold listdir. induction d as [|[n c] d IH]; cbn [write_file map fst In].
  - split; [intros [H | []]; now left | intros [H | []]; now left].
  - destruct (String.eqb_spec n name) as [E | Hne]; cbn [map fst In].
    + subst. split; [intros [H | H]; right; [now left | now right]|].
      intros [H | [H | H]]; [now left | now left | now right].
    + rewrite IH. split.
      * intros [H | [H | H]]; [right; now left | now left | right; now right].
      * intros [H | [H | H]]; [right; now left | now left | right; now right].
Qed.

Lemma pending_files_names {C : Type} (path_to_dir : directory C)
    (files_already : list String.string) (f : String.string) :
  In f (listdir (pending_files path_to_dir files_already)) <->
  In f (listdir path_to_dir) /\ ~ In f files_already.
Proof.
  unfold listdir, pending_files. rewrite !in_map_iff. split.
  - intros [e [<- He]]. apply filter_In in He. destruct He as [He Hb].
    split; [now exists e|].
    intros Hin. apply name_in_spec in Hin. now rewrite Hin in Hb.
  - intros [[e [<- He]] Hn]. exists e. split; [reflexivity|].
    apply filter_In. split; [exact He|].
    destruct (name_in (fst e) files_already) eqn:Eb; [|reflexivity].
    apply name_in_spec in Eb. contradiction.
Qed.

Section GenerationFacts.
Variable generator :
  list float -> list float -> list (array2 (rgb float)) -> list (array2 (rgb float)).
Variable can_save : String.string -> bool.

Lemma generate_all_keeps (files : directory photograph)
    (out : directory (array2 (rgb N))) (e : String.string * array2 (rgb N)) :
  ~ In (fst e) (listdir files) -> In e out ->
  In e (fst (generate_all generator can_save files out)).
Proof.
  revert out. induction files as [|[file photo] rest IH]; intros out Hn Hin;
    [exact Hin|].
  cbn [generate_all]. destruct (generate generator photo) as [saved|]; [|exact Hin].
  destruct (can_save file); [|exact Hin].
  apply IH.
  - intros H. apply Hn. right. exact H.
  - apply write_file_other; [|exact Hin].
    intros E. apply Hn. left. now rewrite E.
Qed.

Lemma generate_all_names (files : directory photograph)
    (out : directory (array2 (rgb N))) (f : String.string) :
  snd (generate_all generator can_save files out) = true ->
  (In f (listdir (fst (generate_all generator can_save files out))) <->
   In f (listdir files) \/ In f (listdir out)).
Proof.
  revert out. induction files as [|[file photo] rest IH]; intros out Hok.
  - cbn. tauto.
  - cbn [generate_all] in *.
    destruct (generate generator photo) as [saved|]; [|discriminate].
    destruct (can_save file); [|discriminate].
    rewrite (IH _ Hok), listdir_write_file. cbn [listdir map fst In].
    unfold listdir. split.
    + intros [H | [H | H]]; [left; now right | left; left; now rewrite H | now right].
    + intros [[H | H] | H]; [right; left; now rewrite H | now left | right; now right].
Qed.

(** The generation pass never writes to a file that the output directory
    already holds: every file found there before the pass is there
    unchanged after it, whether the pass goes through or stops on an
    exception. *)
Theorem existing_outputs_untouched
    (path_to_dir : directory photograph)
    (path_to_out_dir : directory (array2 (rgb N)))
    (name : String.string) (composite : array2 (rgb N)) :
  In (name, composite) path_to_out_dir ->
  In (name, composite)
     (fst (apply_network_to_images_of_dir generator can_save
             path_to_dir path_to_out_dir)).
Proof.
  intros Hin. unfold apply_network_to_images_of_dir. cbv zeta.
  apply generate_all_keeps; [|exact Hin].
  rewrite pending_files_names. cbn [fst]. intros [_ Hn]. apply Hn.
  unfold listdir. apply in_map_iff. now exists (name, composite).
Qed.

(** A pass that went through leaves a file in the output directory for
    every file name of the input directory, and adds no other name; a
    second pass over the same directories then finds nothing to do and
    leaves the output directory as it is. *)
Theorem second_pass_does_nothing
    (path_to_dir : directory photograph)
    (path_to_out_dir : directory (array2 (rgb N))) :
  snd (apply_network_to_images_of_dir generator can_save
         path_to_dir path_to_out_dir) = true ->
  let out := fst (apply_network_to_images_of_dir generator can_save
                    path_to_dir path_to_out_dir) in
  (forall f, In f (listdir out) <->
             In f (listdir path_to_dir) \/ In f (listdir path_to_out_dir)) /\
  pending_files path_to_dir (listdir out) = [] /\
  apply_network_to_images_of_dir generator can_save path_to_dir out = (out, true).
Proof.
  intros Hok. cbv zeta.
  set (out := fst (apply_network_to_images_of_dir generator can_save
                     path_to_dir path_to_out_dir)).
  assert (Hnames : forall f, In f (listdir out) <->
                     In f (listdir path_to_dir) \/ In f (listdir path_to_out_dir)).
  { intros f. unfold out, apply_network_to_images_of_dir in *. cbv zeta in *.
    rewrite (generate_all_names _ _ f Hok), pending_files_names.
    split; [tauto|].
    intros [H | H]; [|now right].
    destruct (in_dec String.string_dec f (listdir path_to_out_dir)); tauto. }
  assert (Hp : pending_files path_to_dir (listdir out) = []).
  { unfold pending_files.
    destruct (filter _ path_to_dir) as [|e l] eqn:Ef; [reflexivity|].
    assert (He : In e (e :: l)) by now left.
    rewrite <- Ef in He. apply filter_In in He. destruct He as [He Hb].
    assert (Hin : In (fst e) (listdir out)).
    { apply Hnames. left. unfold listdir. apply in_map_iff. now exists e. }
    apply name_in_spec in Hin. now rewrite Hin in Hb. }
  split; [exact Hnames|]. split; [exact Hp|].
  unfold apply_network_to_images_of_dir at 1. cbv zeta. now rewrite Hp.
Qed.

End GenerationFacts.

(** ** When the generation pass goes through *)

Lemma load_image_as_network_input_ok (photo : array2 (rgb Byte.byte)) :
  has_shape 96 96 photo ->
  exists i, load_image_as_network_input photo = Some i /\ has_shape 96 96 i.
Proof.
  intros Sp. unfold load_image_as_network_input, normalize_image.
  destruct (amax (samples (get_image_array photo))) as [m|] eqn:Em.
  - eexists. split; [reflexivity|].
    rewrite !amap_image. unfold get_image_array.
    do 3 apply has_shape_map. exact Sp.
  - exfalso. unfold amax in Em.
    destruct (samples (get_image_array photo)) as [|s l] eqn:Es; [|discriminate].
    rewrite samples_get_image_array in Es.
    destruct Sp as [Lp Rp].
    destruct photo as [|[|c row] rest]; [discriminate Lp | |discriminate Es].
    inversion Rp as [|? ? Hrow _]. discriminate Hrow.
Qed.

Lemma save_generated_output_ok (inp generated_outp : list (array2 (rgb float))) :
  Forall (has_shape 96 96) inp -> Forall (has_shape 96 96) generated_outp ->
  length inp + length generated_outp <= 50 ->
  exists saved, save_generated_output inp generated_outp = Some saved.
Proof.
  intros Hi Hg Hl. unfold save_generated_output, final_image.
  set (z := RGB fzero fzero fzero).
  set (inp' := amap (astype binary64) inp).
  set (gen' := amap (astype binary64) generated_outp).
  assert (Hi' : Forall (has_shape 96 96) inp')
    by (apply Forall_has_shape_map, Hi).
  assert (Hg' : Forall (has_shape 96 96) gen')
    by (apply Forall_has_shape_map, Hg).
  assert (Li : length inp' = length inp)
    by (unfold inp'; simpl; now rewrite length_map).
  assert (Lg : length gen' = length generated_outp)
    by (unfold gen'; simpl; now rewrite length_map).
  destruct (final_image_list_ok z Hi' Hg') as [l [E Sl]].
  pose proof (final_image_list_length _ _ _ E) as Ll.
  rewrite Li, Lg in Ll. rewrite E.
  destruct (@tile_frame_spec _ z 96 7 10 l)
    as [canvas [Ec _]]; [simpl; lia | exact Sl |].
  rewrite Ec. eexists. reflexivity.
Qed.

Section GenerationTotal.
Variable generator :
  list float -> list float -> list (array2 (rgb float)) -> list (array2 (rgb float)).
Variable can_save : String.string -> bool.

(** For 49 query images of 96 by 96 pixels the generator returns 49 images
    of 96 by 96 pixels. *)
Hypothesis generator_shape : forall a v q,
  length q = 49 -> Forall (has_shape 96 96) q ->
  length (generator a v q) = 49 /\ Forall (has_shape 96 96) (generator a v q).

Lemma generate_ok (decoded : array2 (rgb Byte.byte)) :
  has_shape 96 96 decoded ->
  exists saved, generate generator (Three_channels decoded) = Some saved.
Proof.
  intros Sp. unfold generate.
  destruct (load_image_as_network_input_ok Sp) as [i [E Si]]. rewrite E.
  cbv zeta.
  destruct (generator_shape arousal valence (repeat_length i 49)
              (Forall_repeat (has_shape 96 96) i 49 Si)) as [Lx Sx].
  apply save_generated_output_ok; [|exact Sx|].
  - apply Forall_cons; [exact Si | apply Forall_nil].
  - unfold array2 in *. rewrite Lx. cbn [length]. lia.
Qed.

Lemma generate_all_status (files : directory photograph)
    (out : directory (array2 (rgb N))) :
  Forall (fun e => resized (snd e)) files ->
  (snd (generate_all generator can_save files out) = true <->
   Forall (fun e => usable (snd e) = true /\ can_save (fst e) = true) files).
Proof.
  intros Hf. revert out.
  induction Hf as [|[file photo] rest Hp _ IH]; intros out.
  - split; [constructor | reflexivity].
  - cbn [generate_all]. cbn [snd] in Hp.
    destruct photo as [decoded|].
    + destruct (generate_ok Hp) as [saved E]. rewrite E.
      destruct (can_save file) eqn:Ec.
      * rewrite IH. split.
        -- intros H. constructor; [now split | exact H].
        -- intros H. now inversion H.
      * split; [discriminate|].
        intros H. inversion H as [|? ? [_ Hc] _]. cbn [fst] in Hc. congruence.
    + cbn [generate]. split; [discriminate|].
      intros H. inversion H as [|? ? [Hu _] _]. discriminate Hu.
Qed.

(** With a generator that returns 49 images of 96 by 96 pixels, the
    generation pass goes through exactly when every file it has to process
    (every file of the input directory whose name the output directory does
    not hold) is an image with three 8-bit samples per pixel and can be
    saved under its name.  A grayscale, palette or alpha-channel image, a
    file that is not an image, or a name that [img.save] refuses stops the
    pass; what the photographs show (an all-black one included) never
    does. *)
Theorem generation_pass_goes_through
    (path_to_dir : directory photograph)
    (path_to_out_dir : directory (array2 (rgb N))) :
  Forall (fun e => resized (snd e)) path_to_dir ->
  (snd (apply_network_to_images_of_dir generator can_save
          path_to_dir path_to_out_dir) = true <->
   Forall (fun e => usable (snd e) = true /\ can_save (fst e) = true)
          (pending_files path_to_dir (listdir path_to_out_dir))).
Proof.
  intros Hf. unfold apply_network_to_images_of_dir. cbv zeta.
  apply generate_all_status. unfold pending_files.
  apply Forall_forall. intros e He. apply filter_In in He.
  rewrite Forall_forall in Hf. now apply Hf.
Qed.

End GenerationTotal.

Lemma echo_generator_shape (a v : list float) (q : list (array2 (rgb float))) :
  length q = 49 -> Forall (has_shape 96 96) q ->
  length (echo_generator a v q) = 49 /\
  Forall (has_shape 96 96) (echo_generator a v q).
Proof. intros Lq Sq. split; assumption. Qed.

Lemma has_shape_photo_40 : has_shape 96 96 photo_40.
Proof. apply has_shapeb_spec. vm_compute. reflexivity. Qed.

Lemma has_shape_gray_100 : has_shape 96 96 gray_100.
Proof. apply has_shapeb_spec. vm_compute. reflexivity. Qed.

Lemma generation_pass_goes_through_witness :
  (forall a v q, length q = 49 -> Forall (has_shape 96 96) q ->
     length (echo_generator a v q) = 49 /\
     Forall (has_shape 96 96) (echo_generator a v q)) /\
  Forall (fun e => resized (snd e))
         [("a.png"%string, Three_channels photo_40);
          ("b.png"%string, Three_channels (zeros black8 96 96))] /\
  Forall (fun e => resized (snd e))
         [("a.png"%string, Three_channels photo_40);
          ("gray.png"%string, Unusable)] /\
  snd (apply_network_to_images_of_dir echo_generator png_name
         [("a.png"%string, Three_channels photo_40);
          ("b.png"%string, Three_channels (zeros black8 96 96))] []) = true /\
  snd (apply_network_to_images_of_dir echo_generator png_name
         [("a.png"%string, Three_channels photo_40);
          ("gray.png"%string, Unusable)] []) = false.
Proof.
  assert (H1 : Forall (fun e => resized (snd e))
                 [("a.png"%string, Three_channels photo_40);
                  ("b.png"%string, Three_channels (zeros black8 96 96))]).
  { apply Forall_cons; [exact has_shape_photo_40|].
    apply Forall_cons; [exact (has_shape_zeros black8 96 96) | apply Forall_nil]. }
  assert (H2 : Forall (fun e => resized (snd e))
                 [("a.png"%string, Three_channels photo_40);
                  ("gray.png"%string, Unusable)]).
  { apply Forall_cons; [exact has_shape_photo_40|].
    apply Forall_cons; [exact I | apply Forall_nil]. }
  split; [exact echo_generator_shape|]. split; [exact H1|]. split; [exact H2|].
  split.
  - apply (proj2 (@generation_pass_goes_through echo_generator png_name
                    echo_generator_shape _ [] H1)).
    apply Forall_cons; [split; reflexivity|].
    apply Forall_cons; [split; reflexivity | apply Forall_nil].
  - destruct (snd (apply_network_to_images_of_dir echo_generator png_name
                     [("a.png"%string, Three_channels photo_40);
                      ("gray.png"%string, Unusable)] [])) eqn:E; [|reflexivity].
    apply (proj1 (@generation_pass_goes_through echo_generator png_name
                    echo_generator_shape _ [] H2)) in E.
    inversion E as [|? ? _ E']. inversion E' as [|? ? [Hu _] _].
    discriminate Hu.
Defined.

Lemma existing_outputs_untouched_witness :
  In ("a.png"%string, [[RGB 1%N 2%N 3%N]]) [("a.png"%string, [[RGB 1%N 2%N 3%N]])] /\
  In ("a.png"%string, [[RGB 1%N 2%N 3%N]])
     (fst (apply_network_to_images_of_dir echo_generator png_name
             [("a.png"%string, Three_channels photo_40);
              ("b.png"%string, Three_channels gray_100)]
             [("a.png"%string, [[RGB 1%N 2%N 3%N]])])).
Proof.
  assert (H : In ("a.png"%string, [[RGB 1%N 2%N 3%N]])
                [("a.png"%string, [[RGB 1%N 2%N 3%N]])])
    by (left; reflexivity).
  split; [exact H|].
  exact (@existing_outputs_untouched echo_generator png_name
           [("a.png"%string, Three_channels photo_40);
            ("b.png"%string, Three_channels gray_100)] _ _ _ H).
Defined.

Lemma second_pass_does_nothing_witness :
  snd (apply_network_to_images_of_dir echo_generator png_name
         [("a.png"%string, Three_channels photo_40);
          ("b.png"%string, Three_channels gray_100)] []) = true /\
  pending_files [("a.png"%string, Three_channels photo_40);
                 ("b.png"%string, Three_channels gray_100)]
    (listdir (fst (apply_network_to_images_of_dir echo_generator png_name
                     [("a.png"%string, Three_channels photo_40);
                      ("b.png"%string, Three_channels gray_100)] []))) = [].
Proof.
  assert (Hs : Forall (fun e => resized (snd e))
                 [("a.png"%string, Three_channels photo_40);
                  ("b.png"%string, Three_channels gray_100)]).
  { apply Forall_cons; [exact has_shape_photo_40|].
    apply Forall_cons; [exact has_shape_gray_100 | apply Forall_nil]. }
  assert (H : snd (apply_network_to_images_of_dir echo_generator png_name
                     [("a.png"%string, Three_channels photo_40);
                      ("b.png"%string, Three_channels gray_100)] []) = true).
  { unfold apply_network_to_images_of_dir. cbv zeta.
    apply (proj2 (@generate_all_status echo_generator png_name
                    echo_generator_shape _ [] Hs)).
    apply Forall_cons; [split; reflexivity|].
    apply Forall_cons; [split; reflexivity | apply Forall_nil]. }
  split; [exact H|].
  exact (proj1 (proj2 (@second_pass_does_nothing echo_generator png_name
                         [("a.png"%string, Three_channels photo_40);
                          ("b.png"%string, Three_channels gray_100)] [] H))).
Defined.

(** ** The difference pass goes through *)

Lemma amax_nonempty (h w : nat) (a : array2 float) :
  has_shape (S h) (S w) a -> exists m, amax (samples a) = Some m.
Proof.
  intros [La Ra]. rewrite samples_array2.
  destruct a as [|[|s row] rest]; [discriminate La | |].
  - inversion Ra as [|? ? Hrow _]. discriminate Hrow.
  - cbn [concat app amax]. eexists. reflexivity.
Qed.

Lemma accumulate_shape (acc : accumulator) (d : array2 float) :
  has_shape 672 672 (res acc) -> has_shape 672 672 d ->
  exists acc', accumulate acc d = Some acc' /\ has_shape 672 672 (res acc').
Proof.
  intros Sa Sd. unfold accumulate.
  destruct (@amax_nonempty 671 671 d Sd) as [m Em]. rewrite Em.
  destruct (elementwise_spec (fadd binary64) fzero fzero fzero Sa Sd)
    as [r [Er [Sr _]]].
  rewrite Er. eexists. split; [reflexivity | exact Sr].
Qed.

Lemma accumulate_files_shape (files : list (array2 (rgb Byte.byte))) :
  Forall (has_shape 672 960) files ->
  forall acc, has_shape 672 672 (res acc) ->
  exists acc',
    fold_left (fun acc file => match acc with
                               | None => None
                               | Some a =>
                                   match differences_square file with
                                   | None => None
                                   | Some d => accumulate a d
                                   end
                               end) files (Some acc) = Some acc' /\
    has_shape 672 672 (res acc').
Proof.
  intros Hf. induction Hf as [|file files Sf _ IH]; intros acc Sa.
  - exists acc. split; [reflexivity | exact Sa].
  - cbn [fold_left].
    destruct (differences_square_integer Sf) as [D [_ [SD [_ EF]]]].
    rewrite EF.
    destruct (@accumulate_shape acc (integer_canvas D) Sa
                (has_shape_map (of_Z binary64) SD)) as [acc' [E Sa']].
    rewrite E. apply IH. exact Sa'.
Qed.

(** The difference pass goes through for every directory of composites of
    672 by 960 pixels, the empty directory included: every file gives a
    difference canvas, the accumulation and the final scaling raise nothing
    (a division by a zero maximum gives NaN, not an error), and the heat map
    handed to the encoder has 672 by 672 pixels. *)
Theorem difference_pass_goes_through (files : list (array2 (rgb Byte.byte))) :
  Forall (has_shape 672 960) files ->
  exists heat_map,
    compute_overall_difference files = Some heat_map /\
    has_shape 672 672 heat_map.
Proof.
  intros Hf.
  destruct (@accumulate_files_shape files Hf accumulator_init
              (has_shape_zeros fzero 672 672)) as [acc [E Sa]].
  unfold compute_overall_difference, overall_difference, accumulate_files.
  rewrite E. unfold normalize_image.
  destruct (@amax_nonempty 671 671 (res acc) Sa) as [m Em]. rewrite Em.
  cbn [option_map]. eexists. split; [reflexivity|].
  unfold save_image_black_and_white. rewrite amap_array2.
  do 2 apply has_shape_map. exact Sa.
Qed.

Lemma difference_pass_goes_through_witness :
  Forall (has_shape 672 960) [marked_composite; black_composite] /\
  exists heat_map,
    compute_overall_difference [marked_composite; black_composite] = Some heat_map /\
    has_shape 672 672 heat_map.
Proof.
  assert (H : Forall (has_shape 672 960) [marked_composite; black_composite]).
  { apply Forall_cons; [exact has_shape_marked_composite|].
    apply Forall_cons; [exact has_shape_black_composite | apply Forall_nil]. }
  split; [exact H|].
  exact (difference_pass_goes_through H).
Defined.

(** ** The differences against the reference *)

(** The largest of the three channel errors is one of them. *)
Lemma max_error_channel (fmt : format) (p1 p2 : rgb float) :
  In (max_error fmt p1 p2)
     [ SFabs (SFsub (prec fmt) (emax fmt) (red p2) (red p1));
       SFabs (SFsub (prec fmt) (emax fmt) (green p2) (green p1));
       SFabs (SFsub (prec fmt) (emax fmt) (blue p2) (blue p1)) ].
Proof.
  unfold max_error, channel_error, np_maximum, fabs, fsub.
  set (a := SFabs (SFsub _ _ (red p2) (red p1))).
  set (b := SFabs (SFsub _ _ (green p2) (green p1))).
  set (c := SFabs (SFsub _ _ (blue p2) (blue p1))).
  destruct (fge a b || is_nan a);
    match goal with |- In (if ?t then _ else _) _ => destruct t end;
    cbn [In]; tauto.
Qed.

(** On decoded 8-bit images the differences against a reference are, for
    every index and every pixel, the largest absolute channel difference
    of the 8-bit samples, held exactly. *)
Lemma differences_bytes (h w : nat) (cells : list (array2 (rgb Byte.byte)))
    (n : array2 (rgb Byte.byte)) :
  Forall (has_shape h w) cells -> has_shape h w n ->
  exists differences,
    mapM (fun im => get_max_difference binary32 im (get_image_array n))
         (map get_image_array cells) = Some differences /\
    length differences = length cells /\
    forall i c, nth_error cells i = Some c ->
      exists d,
        nth_error differences i = Some d /\ has_shape h w d /\
        forall y x, y < h -> x < w ->
          px fzero d y x =
          of_Z binary32 (level_difference (px black8 c y x) (px black8 n y x)).
Proof.
  intros Sc Sn.
  exists (map (fun c => map (map (canon 24)) (map2 (map2 level_difference) c n)) cells).
  split; [|split; [apply length_map|]].
  - apply mapM_map. intros c Hc. rewrite Forall_forall in Sc.
    apply (get_max_difference_bytes (Sc c Hc) Sn).
  - intros i c Hi. eexists. split; [apply map_nth_error; exact Hi|].
    assert (Hc : has_shape h w c).
    { rewrite Forall_forall in Sc. apply Sc. eapply nth_error_In; eassumption. }
    split; [apply has_shape_map; exact (has_shape_map2 _ Hc Sn)|].
    intros y x Hy Hx.
    change fzero with (canon 24 0). rewrite px_map.
    rewrite (@px_map2 _ _ _ level_difference black8 black8 0%Z h w c n y x Hc Sn Hy Hx).
    pose proof (level_difference_range (px black8 c y x) (px black8 n y x)) as R.
    symmetry. apply of_Z_binary32.
    change (2 ^ 24)%Z with 16777216%Z. lia.
Qed.

(** C8. The differences against the reference are computed for every index,
    the reference index included, sample by sample as the largest absolute
    channel difference: every sample of every entry is one of the three
    absolute channel differences of the two pixels, and on decoded 8-bit
    images it is exactly the largest of the three differences of the 8-bit
    samples.  No entry is left out, and the entry at the reference index is
    the all-zero array, as is the difference of any image (without NaN and
    infinities) with itself.  In the difference pass this is the entry at
    index 24 of the 49 differences of a file. *)
Theorem differences_include_reference (fmt : format) (h w : nat)
    (images : list (array2 (rgb float))) (referenceIndex : nat)
    (neutral : array2 (rgb float)) (decoded : array2 (rgb Byte.byte)) :
  Forall (has_shape h w) images ->
  nth_error images referenceIndex = Some neutral ->
  Forall (Forall (fun c => finite_pixel c = true)) neutral ->
  has_shape 672 960 decoded ->
  (exists differences,
     mapM (fun im => get_max_difference fmt im neutral) images = Some differences /\
     length differences = length images /\
     (forall i im, nth_error images i = Some im ->
        exists d,
          nth_error differences i = Some d /\
          get_max_difference fmt im neutral = Some d /\
          has_shape h w d /\
          forall y x, y < h -> x < w ->
            px fzero d y x = max_error fmt (px black im y x) (px black neutral y x) /\
            In (px fzero d y x)
               [ SFabs (SFsub (prec fmt) (emax fmt)
                          (red (px black neutral y x)) (red (px black im y x)));
                 SFabs (SFsub (prec fmt) (emax fmt)
                          (green (px black neutral y x)) (green (px black im y x)));
                 SFabs (SFsub (prec fmt) (emax fmt)
                          (blue (px black neutral y x)) (blue (px black im y x))) ]) /\
     nth_error differences referenceIndex = Some (zeros fzero h w)) /\
  get_max_difference fmt neutral neutral = Some (zeros fzero h w) /\
  (exists reference differences,
     nth_error (get_generated_images 96 (get_image_array decoded)) 24 = Some reference /\
     mapM (fun im => get_max_difference binary32 im reference)
          (get_generated_images 96 (get_image_array decoded)) = Some differences /\
     length differences = 49 /\
     nth_error differences 24 = Some (zeros fzero 96 96) /\
     forall i cell, nth_error (get_generated_images 96 decoded) i = Some cell ->
       exists d,
         nth_error differences i = Some d /\
         forall y x, y < 96 -> x < 96 ->
           px fzero d y x =
           of_Z binary32
             (level_difference (px black8 cell y x)
                (px black8 (nth 24 (get_generated_images 96 decoded) []) y x))) /\
  (forall (h' w' : nat) (cells : list (array2 (rgb Byte.byte)))
          (k : nat) (n : array2 (rgb Byte.byte)),
     Forall (has_shape h' w') cells -> nth_error cells k = Some n ->
     exists differences,
       mapM (fun im => get_max_difference binary32 im (get_image_array n))
            (map get_image_array cells) = Some differences /\
       length differences = length cells /\
       forall i c, nth_error cells i = Some c ->
         exists d,
           nth_error differences i = Some d /\ has_shape h' w' d /\
           forall y x, y < h' -> x < w' ->
             px fzero d y x =
             of_Z binary32 (level_difference (px black8 c y x) (px black8 n y x))).
Proof.
  intros Hs Hk Hf Hd.
  assert (Hn : has_shape h w neutral).
  { rewrite Forall_forall in Hs. apply Hs. eapply nth_error_In; eassumption. }
  pose proof (get_max_difference_self fmt Hn Hf) as Hself.
  split; [|split; [exact Hself|split]].
  - destruct (differences_spec fmt Hs Hn) as [ds [E [L [_ P]]]].
    exists ds. split; [exact E|]. split; [exact L|]. split.
    + intros i im Hi. destruct (P i im Hi) as [d [D1 [D2 [D3 D4]]]].
      exists d. split; [exact D1|]. split; [exact D2|]. split; [exact D3|].
      intros y x Hy Hx. split; [now apply D4|].
      rewrite (D4 y x Hy Hx). apply max_error_channel.
    + destruct (P referenceIndex neutral Hk) as [d [Hd1 [Hd2 _]]]. congruence.
  - set (cells := get_generated_images 96 decoded).
    destruct (@extract_cells_shape _ 96 7 7 3 672 960 decoded Hd)
      as [Lc Sc]; [lia | lia |].
    fold (get_generated_images 96 decoded) in Lc, Sc. fold cells in Lc, Sc.
    set (n := nth 24 cells []).
    assert (Hn8 : nth_error cells 24 = Some n)
      by (apply nth_error_nth'; unfold array2 in *; rewrite Lc; simpl; lia).
    assert (Sn : has_shape 96 96 n).
    { rewrite Forall_forall in Sc. apply Sc. eapply nth_error_In; eassumption. }
    destruct (differences_bytes Sc Sn) as [ds [E [L P]]].
    exists (get_image_array n), ds.
    rewrite get_generated_images_decoded. fold cells.
    split; [apply map_nth_error; exact Hn8|].
    split; [exact E|].
    split; [unfold array2 in *; rewrite L, Lc; reflexivity|].
    split.
    + destruct (P 24 n Hn8) as [d [D1 [D2 D3]]]. rewrite D1. f_equal.
      apply (@constant_array float fzero fzero 96 96 d D2).
      intros y x Hy Hx. rewrite (D3 y x Hy Hx).
      replace (level_difference (px black8 n y x) (px black8 n y x)) with 0%Z
        by (symmetry; now apply level_difference_zero_iff).
      reflexivity.
    + intros i cell Hi. destruct (P i cell Hi) as [d [D1 [_ D3]]].
      exists d. split; [exact D1 | exact D3].
  - intros h' w' cells k n Sc Hkn.
    assert (Sn : has_shape h' w' n).
    { rewrite Forall_forall in Sc. apply Sc. eapply nth_error_In; eassumption. }
    exact (differences_bytes Sc Sn).
Qed.

Lemma differences_include_reference_witness :
  Forall (has_shape 96 96) numbered_faces /\
  nth_error numbered_faces 24 = Some (face 24) /\
  Forall (Forall (fun c => finite_pixel c = true)) (face 24) /\
  has_shape 672 960 black_composite /\
  (exists differences,
     mapM (fun im => get_max_difference binary32 im (face 24)) numbered_faces =
       Some differences /\
     length differences = length numbered_faces /\
     nth_error differences 24 = Some (zeros fzero 96 96) /\
     exists d, nth_error differences 0 = Some d /\
               px fzero d 0 0 = of_Z binary32 24) /\
  get_max_difference binary32 (face 24) (face 24) = Some (zeros fzero 96 96).
Proof.
  assert (H1 : Forall (has_shape 96 96) numbered_faces) by shapes.
  assert (H2 : nth_error numbered_faces 24 = Some (face 24)) by reflexivity.
  assert (H3 : Forall (Forall (fun c => finite_pixel c = true)) (face 24))
    by (apply Forall_solid; reflexivity).
  pose proof has_shape_black_composite as H4.
  split; [exact H1|]. split; [exact H2|]. split; [exact H3|]. split; [exact H4|].
  pose proof (differences_include_reference binary32 24 H1 H2 H3 H4) as W.
  destruct W as [[ds [W1 [W2 [W5 W3]]]] [W4 _]].
  split; [|exact W4].
  exists ds. split; [exact W1|]. split; [exact W2|]. split; [exact W3|].
  destruct (W5 0 (face 0) eq_refl) as [d [D1 [_ [_ D4]]]].
  exists d. split; [exact D1|].
  destruct (D4 0 0 ltac:(lia) ltac:(lia)) as [D5 _].
  rewrite D5. vm_compute. reflexivity.
Defined.
